(** * arboretum: the per-level best-split finder of [src/core/garden.cu]

    A shallow embedding of the host and device code of the GPU tree
    builder, and the properties of it that the specification states.

    Conventions of the embedding.
    - [float] and [double] are IEEE 754 binary32 and binary64 values,
      [spec_float] with the operations of [SpecFloat] at precision 24 / 128
      and 53 / 1024 (round to nearest, ties to even).
    - [size_t] is a 64-bit and [unsigned int] a 32-bit unsigned integer,
      a [Z] with the wrap-around written out.
    - Device and host vectors are lists; reading or writing outside a
      vector is undefined behaviour in C++ and is the failure [None] of the
      option monad here.
    - A kernel's grid-stride loop is run in increasing order of the
      index [i]. *)

From Stdlib Require Import ZArith Bool List String Lia SpecFloat.
From stdpp Require Import base option list.

Local Open Scope Z_scope.

(** ** Machine integers *)

Definition wrap32 (z : Z) : Z := z mod 2 ^ 32.
Definition wrap64 (z : Z) : Z := z mod 2 ^ 64.

(** [a - b] on [size_t]. *)
Definition size_t_sub (a b : Z) : Z := wrap64 (a - b).

(** [(int) u] for an [unsigned int] [u] (two's complement). *)
Definition int_of_uint (u : Z) : Z := if u <? 2 ^ 31 then u else u - 2 ^ 32.

(** Vector access at an integer index. *)
Definition at_index {A} (l : list A) (i : Z) : option A :=
  if i <? 0 then None else l !! Z.to_nat i.

Definition set_index {A} (l : list A) (i : Z) (x : A) : option (list A) :=
  if (0 <=? i) && (i <? Z.of_nat (length l)) then Some (<[Z.to_nat i := x]> l)
  else None.

(** [for (i = start; i < start + n; ++i) body], threading the state and
    stopping at the first failure. *)
Fixpoint for_loop {St : Type} (body : nat → St → option St) (start n : nat)
    (s : St) : option St :=
  match n with
  | O => Some s
  | S n' => s' ← body start s; for_loop body (S start) n' s'
  end.

(** ** Floating point *)

Definition float := spec_float.
Definition double := spec_float.

Module F32.
Definition prec := 24.
Definition emax := 128.
Definition add := SFadd prec emax.
Definition sub := SFsub prec emax.
Definition mul := SFmul prec emax.
Definition div := SFdiv prec emax.
Definition abs := SFabs.
Definition ltb := SFltb.
Definition leb := SFleb.
Definition eqb := SFeqb.
(** [x != y]: true as soon as either side is a NaN. *)
Definition neb (x y : float) := negb (SFeqb x y).
Definition zero : float := S754_zero false.
Definition infinity : float := S754_infinity false.
Definition neg_infinity : float := S754_infinity true.
(** The value [z * 2^e], rounded. *)
Definition of_Z_exp (z e : Z) : float := binary_normalize prec emax z e false.
Definition of_Z (z : Z) : float := of_Z_exp z 0.
Definition valid (x : float) : bool := valid_binary prec emax x.
End F32.

Module F64.
Definition prec := 53.
Definition emax := 1024.
Definition add := SFadd prec emax.
Definition sub := SFsub prec emax.
Definition mul := SFmul prec emax.
Definition div := SFdiv prec emax.
Definition abs := SFabs.
Definition ltb := SFltb.
Definition leb := SFleb.
Definition zero : double := S754_zero false.
Definition of_Z_exp (z e : Z) : double := binary_normalize prec emax z e false.
Definition of_Z (z : Z) : double := of_Z_exp z 0.
Definition half : double := of_Z_exp 1 (-1).
End F64.

(** Conversions between the two formats and from integers. Widening is
    exact and renormalises the mantissa; narrowing rounds. *)
Definition double_of_float (x : float) : double :=
  match x with
  | S754_finite s m e => binary_round F64.prec F64.emax s m e
  | _ => x
  end.

Definition float_of_double (x : double) : float :=
  match x with
  | S754_finite s m e => binary_round F32.prec F32.emax s m e
  | _ => x
  end.

(** [(float) n] for an unsigned integer [n]. *)
Definition float_of_size_t (n : Z) : float := F32.of_Z n.

(** Pairs [(x, y)] of [float2] and [double2]: gradient and hessian. *)
Record float2 := mk_float2 { f2x : float; f2y : float }.
Record double2 := mk_double2 { d2x : double; d2y : double }.

(** Modelled from the spec: the operators on [float2] and [double2] of
    cuda_helpers.h, which is not under src/. "G_t - G_L" on a 2-tuple is
    the componentwise difference. *)
Definition float2_sub (a b : float2) : float2 :=
  mk_float2 (F32.sub (f2x a) (f2x b)) (F32.sub (f2y a) (f2y b)).
Definition double2_sub (a b : double2) : double2 :=
  mk_double2 (F64.sub (d2x a) (d2x b)) (F64.sub (d2y a) (d2y b)).

(** ** GainEvaluator *)

Record GainFunctionParameters := {
  min_leaf_size : Z;   (* unsigned int *)
  hess : float;
  gamma : float;
  lambda : float;
  alpha : float
}.

(** [gain_func(const double2, const double2, size_t, size_t, params)] *)
Definition gain_func_double2 (left_sum total_sum : double2)
    (left_count total_count : Z) (params : GainFunctionParameters) : float :=
  let right_sum := double2_sub total_sum left_sum in
  if (min_leaf_size params <=? left_count)
     && (min_leaf_size params <=? size_t_sub total_count left_count)
     && F64.leb (double_of_float (hess params)) (F64.abs (d2y left_sum))
     && F64.leb (double_of_float (hess params)) (F64.abs (d2y right_sum))
  then
    let l := float_of_double
               (F64.div (F64.mul (d2x left_sum) (d2x left_sum))
                        (F64.add (d2y left_sum) (double_of_float (lambda params)))) in
    let r := float_of_double
               (F64.div (F64.mul (d2x right_sum) (d2x right_sum))
                        (F64.add (d2y right_sum) (double_of_float (lambda params)))) in
    let p := float_of_double
               (F64.div (F64.mul (d2x total_sum) (d2x total_sum))
                        (F64.add (d2y total_sum) (double_of_float (lambda params)))) in
    F32.sub (F32.add l r) p
  else F32.zero.

(** [gain_func(const float2, const float2, size_t, size_t, params)] *)
Definition gain_func_float2 (left_sum total_sum : float2)
    (left_count total_count : Z) (params : GainFunctionParameters) : float :=
  let right_sum := float2_sub total_sum left_sum in
  if (min_leaf_size params <=? left_count)
     && (min_leaf_size params <=? size_t_sub total_count left_count)
     && F32.leb (hess params) (F32.abs (f2y left_sum))
     && F32.leb (hess params) (F32.abs (f2y right_sum))
  then
    let l := F32.div (F32.mul (f2x left_sum) (f2x left_sum))
                     (F32.add (f2y left_sum) (lambda params)) in
    let r := F32.div (F32.mul (f2x right_sum) (f2x right_sum))
                     (F32.add (f2y right_sum) (lambda params)) in
    let p := F32.div (F32.mul (f2x total_sum) (f2x total_sum))
                     (F32.add (f2y total_sum) (lambda params)) in
    F32.sub (F32.add l r) p
  else F32.zero.

(** [gain_func(const float, const float, size_t, size_t, params)] *)
Definition gain_func_float (left_sum total_sum : float)
    (left_count total_count : Z) (params : GainFunctionParameters) : float :=
  let right_count := size_t_sub total_count left_count in
  if (min_leaf_size params <=? left_count)
     && (min_leaf_size params <=? right_count)
  then
    let right_sum := F32.sub total_sum left_sum in
    let l := F32.div (F32.mul left_sum left_sum)
                     (F32.add (float_of_size_t left_count) (lambda params)) in
    let r := F32.div (F32.mul right_sum right_sum)
                     (F32.add (float_of_size_t right_count) (lambda params)) in
    let p := F32.div (F32.mul total_sum total_sum)
                     (F32.add (float_of_size_t total_count) (lambda params)) in
    F32.sub (F32.add l r) p
  else F32.zero.

(** [gain_func(const double, const double, size_t, size_t, params)]: the
    count and [lambda] are added in [float], the quotient and the final sum
    are taken in [double], and the result is narrowed on return. *)
Definition gain_func_double (left_sum total_sum : double)
    (left_count total_count : Z) (params : GainFunctionParameters) : float :=
  let right_count := size_t_sub total_count left_count in
  if (min_leaf_size params <=? left_count)
     && (min_leaf_size params <=? right_count)
  then
    let right_sum := F64.sub total_sum left_sum in
    let l := F64.div (F64.mul left_sum left_sum)
               (double_of_float (F32.add (float_of_size_t left_count) (lambda params))) in
    let r := F64.div (F64.mul right_sum right_sum)
               (double_of_float (F32.add (float_of_size_t right_count) (lambda params))) in
    let p := F64.div (F64.mul total_sum total_sum)
               (double_of_float (F32.add (float_of_size_t total_count) (lambda params))) in
    float_of_double (F64.sub (F64.add l r) p)
  else F32.zero.

(** ** AtomicMaxWithIndex *)

(** The binary32 encoding of a [float]: sign bit, 8 exponent bits with
    bias 127, 23 fraction bits. *)
Definition bits_of_float (x : float) : Z :=
  match x with
  | S754_zero s => if s then 2 ^ 31 else 0
  | S754_infinity s => (if s then 2 ^ 31 else 0) + 255 * 2 ^ 23
  | S754_nan => 255 * 2 ^ 23 + 2 ^ 22
  | S754_finite s m e =>
      (if s then 2 ^ 31 else 0)
      + (if Zpos m <? 2 ^ 23 then Zpos m
         else (e + 150) * 2 ^ 23 + (Zpos m - 2 ^ 23))
  end.

Definition float_of_bits (b : Z) : float :=
  let s := Z.testbit b 31 in
  let e := Z.land (Z.shiftr b 23) (Z.ones 8) in
  let f := Z.land b (Z.ones 23) in
  if e =? 0 then
    (if f =? 0 then S754_zero s else S754_finite s (Z.to_pos f) (-149))
  else if e =? 255 then
    (if f =? 0 then S754_infinity s else S754_nan)
  else S754_finite s (Z.to_pos (f + 2 ^ 23)) (e - 150).

(** [union my_atomics]: the value is the 64-bit word [ulong]; [floats[0]]
    and [ints[0]] are views of its low half, [ints[1]] of its high half
    (little-endian, as on the CUDA targets). *)
Definition my_atomics := Z.

Definition ints0 (u : my_atomics) : Z := Z.land u (Z.ones 32).
Definition ints1 (u : my_atomics) : Z := Z.shiftr u 32.
Definition floats0 (u : my_atomics) : float := float_of_bits (ints0 u).

(** The word whose low half is [lo] and whose high half is [hi]. *)
Definition my_atomics_of_words (lo hi : Z) : my_atomics := Z.shiftl hi 32 + lo.

(** [atomicCAS(address, compare, val)]: the new content of the cell and
    the old content, which is returned. *)
Definition atomicCAS (cell compare val : Z) : Z * Z :=
  if cell =? compare then (val, cell) else (cell, cell).

(** The loop of [updateAtomicMax] run by one thread with no other writer
    of the cell: [while (loctest.floats[0] < val1) loctest.ulong =
    atomicCAS(address, loctest.ulong, loc.ulong)]. The result is the cell
    and [loctest]; [None] when the fuel runs out. *)
Fixpoint updateAtomicMax_while (fuel : nat) (cell loctest loc : my_atomics)
    (val1 : float) : option (my_atomics * my_atomics) :=
  if F32.ltb (floats0 loctest) val1 then
    match fuel with
    | O => None
    | S fuel' =>
        let '(cell', old) := atomicCAS cell loctest loc in
        updateAtomicMax_while fuel' cell' old loc val1
    end
  else Some (cell, loctest).

(** Iterations a lone thread needs: the second compare-and-swap reads back
    the thread's own write ([updateAtomicMax_fuel] below). *)
Definition cas_rounds : nat := 2.

(** [updateAtomicMax(address, val1, val2)]: the cell afterwards and the
    returned word. *)
Definition updateAtomicMax (cell : my_atomics) (val1 : float) (val2 : Z)
  : option (my_atomics * my_atomics) :=
  let loc := my_atomics_of_words (bits_of_float val1) val2 in
  let loctest := cell in
  updateAtomicMax_while cas_rounds cell loctest loc val1.

(** A sequence of updates applied to one cell, in order. *)
Fixpoint updateAtomicMax_all (cell : my_atomics) (updates : list (float * Z))
  : option my_atomics :=
  match updates with
  | [] => Some cell
  | (g, i) :: rest =>
      r ← updateAtomicMax cell g i; updateAtomicMax_all r.1 rest
  end.

Arguments bits_of_float : simpl never.
Arguments float_of_bits : simpl never.
Arguments floats0 : simpl never.
Arguments ints0 : simpl never.
Arguments ints1 : simpl never.
Arguments my_atomics_of_words : simpl never.
Arguments updateAtomicMax : simpl never.

(** ** Gather kernels *)

Section Gather.
Context {T : Type}.

(** [gather_kernel_simple]: [out1[i] = in1[position[i]]]. *)
Definition gather_kernel_simple_thread (position : list Z) (in1 : list T)
    (i : nat) (out1 : list T) : option (list T) :=
  p ← position !! i;
  x ← at_index in1 p;
  set_index out1 (Z.of_nat i) x.

Definition gather_kernel_simple (position : list Z) (in1 out1 : list T)
    (n : nat) : option (list T) :=
  for_loop (gather_kernel_simple_thread position in1) 0 n out1.

(** [gather]: [index = position[i]; data = s[index]; r[index] = data],
    where [s] and [r] are the coalesced views of [in] and [out]. *)
Definition gather_thread (position : list Z) (in_ : list T)
    (i : nat) (out : list T) : option (list T) :=
  index ← position !! i;
  data ← at_index in_ index;
  set_index out index data.

Definition gather (position : list Z) (in_ out : list T) (n : nat)
  : option (list T) :=
  for_loop (gather_thread position in_) 0 n out.
End Gather.

(** ** Sum types

    The builder is a template over [sum_type], one of [float], [double],
    [float2] and [mydouble2]; the operations it uses on it are collected in
    a class, and overload resolution is instance resolution. *)

Definition is_finite (x : spec_float) : bool :=
  match x with
  | S754_zero _ | S754_finite _ _ _ => true
  | S754_infinity _ | S754_nan => false
  end.

Class SumType (T : Type) := {
  (** [operator-] *)
  sum_sub : T → T → T;
  (** [init(x)]: the value a sum starts from *)
  init : T;
  (** [_isnan(x)] *)
  _isnan : T → bool;
  (** the overload of [gain_func] for [T] *)
  gain_func : T → T → Z → Z → GainFunctionParameters → float
}.

(** Modelled from the spec: [_isnan] and [init] of cuda_helpers.h, which is
    not under src/. The spec calls a value that passes [!_isnan] "finite",
    and [init] gives "the identity element of the gradient type (zero
    scalar or zero-tuple)". *)
#[export] Instance SumType_float : SumType float := {
  sum_sub := F32.sub;
  init := F32.zero;
  _isnan x := negb (is_finite x);
  gain_func := gain_func_float
}.

#[export] Instance SumType_double : SumType double | 10 := {
  sum_sub := F64.sub;
  init := F64.zero;
  _isnan x := negb (is_finite x);
  gain_func := gain_func_double
}.

#[export] Instance SumType_float2 : SumType float2 := {
  sum_sub := float2_sub;
  init := mk_float2 F32.zero F32.zero;
  _isnan x := negb (is_finite (f2x x) && is_finite (f2y x));
  gain_func := gain_func_float2
}.

#[export] Instance SumType_mydouble2 : SumType double2 := {
  sum_sub := double2_sub;
  init := mk_double2 F64.zero F64.zero;
  _isnan x := negb (is_finite (d2x x) && is_finite (d2y x));
  gain_func := gain_func_double2
}.

(** ** The gain kernel *)

Section GainKernel.
Context {sum_type : Type} `{SumType sum_type}.

Variable left_sum : list sum_type.
Variable fvalues : list float.
Variable segments : list Z.
Variable parent_sum_iter : list sum_type.
Variable parent_count_iter : list Z.
Variable parameters : GainFunctionParameters.

(** The test [fvalue != fvalue_prev] of thread [i]. *)
Definition gain_kernel_test (i : nat) : option bool :=
  fvalue ← fvalues !! S i;
  fvalue_prev ← fvalues !! i;
  Some (F32.neb fvalue fvalue_prev).

(** The block guarded by the test, up to the call of [gain_func]: the
    segment and the gain of the split after sort position [i].
    [segment + 1] is taken without wrap-around. *)
Definition gain_kernel_gain (i : nat) : option (Z * float) :=
  segment ← segments !! i;
  left_sum_offset ← at_index parent_sum_iter segment;
  left_sum_i ← left_sum !! i;
  let left_sum_value := sum_sub left_sum_i left_sum_offset in
  left_count_offset ← at_index parent_count_iter segment;
  let left_count_value := size_t_sub (Z.of_nat i) left_count_offset in
  parent_sum_next ← at_index parent_sum_iter (segment + 1);
  let total_sum := sum_sub parent_sum_next left_sum_offset in
  parent_count_next ← at_index parent_count_iter (segment + 1);
  let total_count := size_t_sub parent_count_next left_count_offset in
  Some (segment,
        gain_func left_sum_value total_sum left_count_value total_count
                  parameters).

(** [if (gain > 0.0) updateAtomicMax(&(res[segment].ulong), gain, i)] *)
Definition gain_kernel_record (i : nat) (segment : Z) (gain : float)
    (res : list my_atomics) : option (list my_atomics) :=
  if F32.ltb F32.zero gain then
    cell ← at_index res segment;
    r ← updateAtomicMax cell gain (Z.of_nat i);
    set_index res segment r.1
  else Some res.

(** One iteration of the grid-stride loop of [gain_kernel]. *)
Definition gain_kernel_thread (i : nat) (res : list my_atomics)
  : option (list my_atomics) :=
  test ← gain_kernel_test i;
  if test : bool then
    sg ← gain_kernel_gain i;
    gain_kernel_record i sg.1 sg.2 res
  else Some res.

Definition gain_kernel (n : nat) (res : list my_atomics)
  : option (list my_atomics) :=
  for_loop gain_kernel_thread 0 n res.
End GainKernel.

(** ** Host state of the builder *)

(** [NodeStat<sum_type>] and [Split<sum_type>] are declared in garden.h,
    which is not under src/; the fields are the ones garden.cu reads and
    writes, the counts unbounded integers. *)
Module NodeStat.
Record t (sum_type : Type) := Build {
  count : Z;
  sum_grad : sum_type;
  gain : float
}.
Arguments Build {sum_type}.
Arguments count {sum_type}.
Arguments sum_grad {sum_type}.
Arguments gain {sum_type}.
End NodeStat.

Module Split.
Record t (sum_type : Type) := Build {
  fid : Z;   (* int; -1 when unset *)
  gain : float;
  split_value : float;
  split_by_true : bool;
  count : Z;
  sum_grad : sum_type
}.
Arguments Build {sum_type}.
Arguments fid {sum_type}.
Arguments gain {sum_type}.
Arguments split_value {sum_type}.
Arguments split_by_true {sum_type}.
Arguments count {sum_type}.
Arguments sum_grad {sum_type}.
End Split.

(** The members of [TaylorApproximationBuilder] that the level driver
    reads and writes on the host. [sum], [fvalue] and [results_h] are
    arrays of [overlap_depth] vectors, indexed by the pipeline slot. *)
Record Builder (sum_type : Type) := {
  _rowIndex2Node : list Z;
  _nodeStat : list (NodeStat.t sum_type);
  _bestSplit : list (Split.t sum_type);
  sum : list (list sum_type);
  fvalue : list (list float);
  results_h : list (list my_atomics);
  parent_node_sum_h : list sum_type;
  parent_node_count_h : list Z
}.
Arguments _rowIndex2Node {sum_type}.
Arguments _nodeStat {sum_type}.
Arguments _bestSplit {sum_type}.
Arguments sum {sum_type}.
Arguments fvalue {sum_type}.
Arguments results_h {sum_type}.
Arguments parent_node_sum_h {sum_type}.
Arguments parent_node_count_h {sum_type}.

Definition set_bestSplit {sum_type} (b : Builder sum_type)
    (v : list (Split.t sum_type)) : Builder sum_type :=
  {| _rowIndex2Node := _rowIndex2Node b; _nodeStat := _nodeStat b;
     _bestSplit := v; sum := sum b; fvalue := fvalue b;
     results_h := results_h b; parent_node_sum_h := parent_node_sum_h b;
     parent_node_count_h := parent_node_count_h b |}.

Definition set_rowIndex2Node {sum_type} (b : Builder sum_type)
    (v : list Z) : Builder sum_type :=
  {| _rowIndex2Node := v; _nodeStat := _nodeStat b;
     _bestSplit := _bestSplit b; sum := sum b; fvalue := fvalue b;
     results_h := results_h b; parent_node_sum_h := parent_node_sum_h b;
     parent_node_count_h := parent_node_count_h b |}.

(** The part of [io::DataMatrix] that the row routing reads. *)
Record DataMatrix := {
  rows : nat;
  columns_dense : Z;
  data : list (list float);
  lil_row : list (list Z)
}.

(** [std::binary_search] over an ascending list: whether the value
    occurs. *)
Definition binary_search (l : list Z) (v : Z) : bool := existsb (Z.eqb v) l.

Section LevelDriver.
Context {sum_type : Type} `{SumType sum_type}.

(** [(fvalue_prev_val + fvalue_val) * 0.5]: the sum in [float], the
    product with the [double] constant in [double], narrowed when it is
    stored in the [float] field. *)
Definition split_threshold (fvalue_prev_val fvalue_val : float) : float :=
  float_of_double
    (F64.mul (double_of_float (F32.add fvalue_prev_val fvalue_val)) F64.half).

(** The body of the loop of [GetBestSplitForDenceFeature] for leaf [i]. *)
Definition GetBestSplitForDenceFeature_leaf (active_fid : Z)
    (circular_fid : nat) (i : nat) (b : Builder sum_type)
  : option (Builder sum_type) :=
  node_stat ← _nodeStat b !! i;
  if NodeStat.count node_stat <=? 0 then Some b
  else
    slot_results ← results_h b !! circular_fid;
    cell ← slot_results !! i;
    best ← _bestSplit b !! i;
    if F32.ltb (Split.gain best) (floats0 cell) then
      let index_value := int_of_uint (ints1 cell) in
      slot_sum ← sum b !! circular_fid;
      s ← at_index slot_sum index_value;
      if negb (_isnan s) then
        slot_fvalue ← fvalue b !! circular_fid;
        fvalue_prev_val ← at_index slot_fvalue index_value;
        fvalue_val ← at_index slot_fvalue (index_value + 1);
        parent_count ← parent_node_count_h b !! i;
        let count_val := wrap32 (ints1 cell - parent_count) in
        parent_sum ← parent_node_sum_h b !! i;
        let sum_val := sum_sub s parent_sum in
        Some (set_bestSplit b
                (<[i := {| Split.fid := active_fid;
                           Split.gain := floats0 cell;
                           Split.split_value :=
                             split_threshold fvalue_prev_val fvalue_val;
                           Split.split_by_true := Split.split_by_true best;
                           Split.count := count_val;
                           Split.sum_grad := sum_val |}]> (_bestSplit b)))
      else Some b
    else Some b.

Definition GetBestSplitForDenceFeature (active_fid : Z) (circular_fid : nat)
    (lenght : nat) (b : Builder sum_type) : option (Builder sum_type) :=
  for_loop (GetBestSplitForDenceFeature_leaf active_fid circular_fid)
           0 lenght b.

(** The last loop of [FindBestSplits]: the split of a leaf that no
    feature has claimed. *)
Definition FindBestSplits_finish_leaf (i : nat) (b : Builder sum_type)
  : option (Builder sum_type) :=
  split ← _bestSplit b !! i;
  if Split.fid split <? 0 then
    node_stat ← _nodeStat b !! i;
    Some (set_bestSplit b
            (<[i := {| Split.fid := 0;
                       Split.gain := F32.zero;
                       Split.split_value := F32.infinity;
                       Split.split_by_true := Split.split_by_true split;
                       Split.count := NodeStat.count node_stat;
                       Split.sum_grad := NodeStat.sum_grad node_stat |}]>
               (_bestSplit b)))
  else Some b.

Definition FindBestSplits_finish (lenght : nat) (b : Builder sum_type)
  : option (Builder sum_type) :=
  for_loop FindBestSplits_finish_leaf 0 lenght b.

(** [Node::HeapOffset] and [RegTree::ChildNode] belong to the tree
    container, which is not under src/. *)
Variable HeapOffset : Z → Z.
Variable ChildNode : Z → bool → Z.

(** [isLeft] of [UpdateNodeIndex] for row [i], with the short-circuit
    evaluation of [&&] and [||]. *)
Definition UpdateNodeIndex_isLeft (data_ : DataMatrix)
    (best : Split.t sum_type) (i : nat) : option bool :=
  dense_left ←
    (if Split.fid best <? columns_dense data_ then
       column ← at_index (data data_) (Split.fid best);
       value ← column !! i;
       Some (F32.leb value (Split.split_value best))
     else Some false);
  if dense_left : bool then Some true
  else if Split.split_by_true best then
    row ← lil_row data_ !! i;
    Some (binary_search row (Split.fid best))
  else Some false.

(** The body of the loop of [UpdateNodeIndex] for row [i]; the
    arithmetic is that of [unsigned int]. *)
Definition UpdateNodeIndex_row (level : Z) (data_ : DataMatrix) (i : nat)
    (b : Builder sum_type) : option (Builder sum_type) :=
  let offset := HeapOffset level in
  let offset_next := HeapOffset (level + 1) in
  node ← _rowIndex2Node b !! i;
  best ← at_index (_bestSplit b) node;
  isLeft ← UpdateNodeIndex_isLeft data_ best i;
  Some (set_rowIndex2Node b
          (<[i := wrap32 (ChildNode (wrap32 (node + offset)) isLeft
                          - offset_next)]> (_rowIndex2Node b))).

Definition UpdateNodeIndex (level : Z) (data_ : DataMatrix)
    (b : Builder sum_type) : option (Builder sum_type) :=
  for_loop (UpdateNodeIndex_row level data_) 0 (rows data_) b.
End LevelDriver.

(** ** Initialisation *)

(** What a call that can throw produces: a value, a thrown message, or
    undefined behaviour. *)
Inductive outcome (A : Type) : Type :=
  | Return (a : A)
  | Throw (msg : string)
  | Undefined.
Arguments Return {A}.
Arguments Throw {A}.
Arguments Undefined {A}.

Definition outcome_bind {A B} (o : outcome A) (k : A → outcome B) : outcome B :=
  match o with
  | Return a => k a
  | Throw msg => Throw msg
  | Undefined => Undefined
  end.

Notation "'do' x <- o ; k" := (outcome_bind o (fun x => k))
  (at level 10, x name, o at level 100, k at level 200).

(** The integer part of a float, rounded toward zero, and rounded down. *)
Definition trunc_float (x : float) : option Z :=
  match x with
  | S754_zero _ => Some 0
  | S754_finite s m e =>
      Some (cond_Zopp s (if 0 <=? e then Zpos m * 2 ^ e else Zpos m / 2 ^ (- e)))
  | S754_infinity _ | S754_nan => None
  end.

Definition floor_float (x : float) : option Z :=
  match x with
  | S754_zero _ => Some 0
  | S754_finite s m e =>
      Some (if 0 <=? e then cond_Zopp s (Zpos m) * 2 ^ e
            else cond_Zopp s (Zpos m) / 2 ^ (- e))
  | S754_infinity _ | S754_nan => None
  end.

(** [(int) x]: undefined when the integer part does not fit [int]. *)
Definition int_of_float (x : float) : outcome Z :=
  match trunc_float x with
  | Some z => if (- 2 ^ 31 <=? z) && (z <? 2 ^ 31) then Return z else Undefined
  | None => Undefined
  end.

Inductive Objective := LinearRegression | LogisticRegression | SoftMaxOneVsAll.

(** The fields of [TreeParam] (param.h, not under src/) that initialisation
    reads; [depth + 1] is taken without wrap-around. *)
Record TreeParam := {
  objective : Objective;
  depth : Z;
  colsample_bytree : float;
  colsample_bylevel : float;
  labels_count : nat
}.

Definition colsample_bytree_too_small : string :=
  "colsample_bytree is too small".
Definition colsample_bylevel_too_small : string :=
  "colsample_bytree and colsample_bylevel are too small".
Definition unsupported_depth : string := "unsupported depth".

(** The head of [InitGrowingTree]: the two sampling checks. What follows
    them (the identity order and shuffle of [active_fids], the reset of the
    per-tree tables) throws nothing and is not modelled. *)
Definition InitGrowingTree (param : TreeParam) (columns : Z) : outcome unit :=
  do take <- int_of_float
               (F32.mul (colsample_bytree param) (float_of_size_t columns));
  if take =? 0 then Throw colsample_bytree_too_small
  else
    do take <- int_of_float
                 (F32.mul (F32.mul (colsample_bytree param)
                                   (colsample_bylevel param))
                          (float_of_size_t columns));
    if take =? 0 then Throw colsample_bylevel_too_small
    else Return tt.

(** The template arguments of [TaylorApproximationBuilder]. *)
Inductive node_type := unsigned_char | unsigned_short | unsigned_int
                     | unsigned_long_int.
Inductive value_type := float_t | double_t | float2_t | mydouble2_t.

Record builder_type := TaylorApproximationBuilder {
  builder_node : node_type;
  builder_grad : value_type;
  builder_sum : value_type
}.

(** [sizeof] on the LP64 targets the trainer is built for. *)
Definition sizeof (t : node_type) : Z :=
  match t with
  | unsigned_char => 1
  | unsigned_short => 2
  | unsigned_int => 4
  | unsigned_long_int => 8
  end.
Definition CHAR_BIT : Z := 8.

(** The [switch] of [Garden::GrowTree] that creates [_builder]. *)
Definition Garden_new_builder (param : TreeParam) (double_precision : bool)
  : outcome builder_type :=
  match objective param with
  | LinearRegression =>
      if depth param + 1 <=? sizeof unsigned_char * CHAR_BIT then
        if double_precision
        then Return (TaylorApproximationBuilder unsigned_char float_t double_t)
        else Return (TaylorApproximationBuilder unsigned_char float_t float_t)
      else if depth param + 1 <=? sizeof unsigned_short * CHAR_BIT then
        if double_precision
        then Return (TaylorApproximationBuilder unsigned_short float_t double_t)
        else Return (TaylorApproximationBuilder unsigned_short float_t float_t)
      else if depth param + 1 <=? sizeof unsigned_int * CHAR_BIT then
        if double_precision
        then Return (TaylorApproximationBuilder unsigned_int float_t double_t)
        else Return (TaylorApproximationBuilder unsigned_int float_t float_t)
      else if depth param + 1 <=? sizeof unsigned_long_int * CHAR_BIT then
        if double_precision
        then Return (TaylorApproximationBuilder unsigned_long_int float_t double_t)
        else Return (TaylorApproximationBuilder unsigned_int float_t float_t)
      else Throw unsupported_depth
  | LogisticRegression =>
      if depth param + 1 <=? sizeof unsigned_char * CHAR_BIT then
        if double_precision
        then Return (TaylorApproximationBuilder unsigned_char float2_t mydouble2_t)
        else Return (TaylorApproximationBuilder unsigned_char float2_t float2_t)
      else if depth param + 1 <=? sizeof unsigned_short * CHAR_BIT then
        if double_precision
        then Return (TaylorApproximationBuilder unsigned_short float2_t mydouble2_t)
        else Return (TaylorApproximationBuilder unsigned_short float2_t float2_t)
      else if depth param + 1 <=? sizeof unsigned_int * CHAR_BIT then
        if double_precision
        then Return (TaylorApproximationBuilder unsigned_int float2_t mydouble2_t)
        else Return (TaylorApproximationBuilder unsigned_int float2_t float2_t)
      else if depth param + 1 <=? sizeof unsigned_long_int * CHAR_BIT then
        if double_precision
        then Return (TaylorApproximationBuilder unsigned_long_int float2_t mydouble2_t)
        else Return (TaylorApproximationBuilder unsigned_long_int float2_t float2_t)
      else Throw unsupported_depth
  | SoftMaxOneVsAll =>
      if depth param + 1 <=? sizeof unsigned_char * CHAR_BIT then
        if double_precision
        then Return (TaylorApproximationBuilder unsigned_char float2_t mydouble2_t)
        else Return (TaylorApproximationBuilder unsigned_char float2_t float2_t)
      else if depth param + 1 <=? sizeof unsigned_short * CHAR_BIT then
        if double_precision
        then Return (TaylorApproximationBuilder unsigned_short float2_t mydouble2_t)
        else Return (TaylorApproximationBuilder unsigned_short float2_t float2_t)
      else if depth param + 1 <=? sizeof unsigned_int * CHAR_BIT then
        if double_precision
        then Return (TaylorApproximationBuilder unsigned_int float2_t mydouble2_t)
        else Return (TaylorApproximationBuilder unsigned_int float2_t float2_t)
      else if depth param + 1 <=? sizeof unsigned_long_int * CHAR_BIT then
        if double_precision
        then Return (TaylorApproximationBuilder unsigned_long_int float2_t mydouble2_t)
        else Return (TaylorApproximationBuilder unsigned_long_int float2_t float2_t)
      else Throw unsupported_depth
  end.

(** The members of [Garden] that a boosting round reads and writes. *)
Record Garden (tree : Type) := {
  _init : bool;
  _builder : option builder_type;   (* a null pointer until created *)
  _trees : list tree
}.
Arguments _init {tree}.
Arguments _builder {tree}.
Arguments _trees {tree}.

Section Training.
Context {tree : Type}.
(** The level loop of the builder's [GrowTree] and the leaf weights: the
    tree grown for a label once [InitGrowingTree] has returned. *)
Variable grow_levels : builder_type → nat → tree.

(** [TaylorApproximationBuilder::GrowTree(tree, data, label)] *)
Definition Builder_GrowTree (param : TreeParam) (columns : Z)
    (builder : builder_type) (label : nat) : outcome tree :=
  do _ <- InitGrowingTree param columns;
  Return (grow_levels builder label).

(** The loop over the labels of [Garden::GrowTree]. *)
Fixpoint Garden_grow_labels (param : TreeParam) (columns : Z)
    (builder : builder_type) (label n : nat) (trees : list tree)
  : outcome (list tree) :=
  match n with
  | O => Return trees
  | S n' =>
      do t <- Builder_GrowTree param columns builder label;
      Garden_grow_labels param columns builder (S label) n' (trees ++ [t])
  end.

(** [Garden::GrowTree(data, grad)]: one boosting round. *)
Definition Garden_GrowTree (param : TreeParam) (double_precision : bool)
    (columns : Z) (g : Garden tree) : outcome (Garden tree) :=
  do g1 <- (if _init g then Return g
            else
              do b <- Garden_new_builder param double_precision;
              Return {| _init := true; _builder := Some b;
                        _trees := _trees g |});
  match _builder g1 with
  | None => Undefined
  | Some builder =>
      do trees <- Garden_grow_labels param columns builder 0
                    (labels_count param) (_trees g1);
      Return {| _init := _init g1; _builder := _builder g1;
                _trees := trees |}
  end.
End Training.

(** ** GainEvaluator: the score of the specification *)

(** The regularised quadratic [q] and the score of the specification, at
    the precision of each variant. In the gradient-only variants [n] is the
    row count of the side; in the others the second component of the
    aggregate is the summed hessian. *)
Definition q_float (G : float) (n : Z) (lam : float) : float :=
  F32.div (F32.mul G G) (F32.add (float_of_size_t n) lam).

Definition q_double (G : double) (n : Z) (lam : float) : double :=
  F64.div (F64.mul G G) (double_of_float (F32.add (float_of_size_t n) lam)).

Definition q_float2 (G : float2) (lam : float) : float :=
  F32.div (F32.mul (f2x G) (f2x G)) (F32.add (f2y G) lam).

Definition q_double2 (G : double2) (lam : float) : float :=
  float_of_double
    (F64.div (F64.mul (d2x G) (d2x G)) (F64.add (d2y G) (double_of_float lam))).

Definition score_float (G_L G_t : float) (L N_t : Z) (lam : float) : float :=
  F32.sub (F32.add (q_float G_L L lam) (q_float (F32.sub G_t G_L) (N_t - L) lam))
          (q_float G_t N_t lam).

Definition score_double (G_L G_t : double) (L N_t : Z) (lam : float) : float :=
  float_of_double
    (F64.sub (F64.add (q_double G_L L lam)
                      (q_double (F64.sub G_t G_L) (N_t - L) lam))
             (q_double G_t N_t lam)).

Definition score_float2 (G_L G_t : float2) (lam : float) : float :=
  F32.sub (F32.add (q_float2 G_L lam) (q_float2 (float2_sub G_t G_L) lam))
          (q_float2 G_t lam).

Definition score_double2 (G_L G_t : double2) (lam : float) : float :=
  F32.sub (F32.add (q_double2 G_L lam) (q_double2 (double2_sub G_t G_L) lam))
          (q_double2 G_t lam).

(** The feasibility predicate: both sides have [min_leaf] rows, and in the
    hessian variants a summed hessian of magnitude [min_hess] at least. *)
Definition feasible_count (L N_t min_leaf : Z) : Prop :=
  min_leaf <= L ∧ min_leaf <= N_t - L.

Definition feasible_hess (h_L h_R min_hess : spec_float) : Prop :=
  SFleb min_hess (SFabs h_L) = true ∧ SFleb min_hess (SFabs h_R) = true.


(** Inputs of the scenarios: [min_leaf_size = 1], every other knob 0. *)
Definition scenario_params : GainFunctionParameters :=
  {| min_leaf_size := 1; hess := F32.zero; gamma := F32.zero;
     lambda := F32.zero; alpha := F32.zero |}.

(** ** AtomicMaxWithIndex: sequences of updates *)

(** The updates at different places of the sequence carry gains that do not
    compare equal. *)
Definition distinct_gains (updates : list (float * Z)) : Prop :=
  ∀ (j k : nat) (g1 g2 : float) (i1 i2 : Z),
    j ≠ k → updates !! j = Some (g1, i1) → updates !! k = Some (g2, i2) →
    F32.eqb g1 g2 = false.

(** [g] is a largest gain of the sequence. *)
Definition largest_gain (updates : list (float * Z)) (g : float) : Prop :=
  ∀ (g' : float) (i' : Z), (g', i') ∈ updates → F32.ltb g g' = false.

(** ** Level driver: what a leaf's iteration sees *)

(** Two builder states that a loop over the leaves cannot tell apart at
    leaf [i]: they differ at most in the split records of other leaves. *)
Definition same_at_leaf {sum_type} (i : nat) (b1 b2 : Builder sum_type) : Prop :=
  _rowIndex2Node b1 = _rowIndex2Node b2
  ∧ _nodeStat b1 = _nodeStat b2
  ∧ sum b1 = sum b2
  ∧ fvalue b1 = fvalue b2
  ∧ results_h b1 = results_h b2
  ∧ parent_node_sum_h b1 = parent_node_sum_h b2
  ∧ parent_node_count_h b1 = parent_node_count_h b2
  ∧ length (_bestSplit b1) = length (_bestSplit b2)
  ∧ _bestSplit b1 !! i = _bestSplit b2 !! i.

(** The split written for a leaf that no feature has claimed. *)
Definition degenerate_split {sum_type} (split : Split.t sum_type)
    (node_stat : NodeStat.t sum_type) : Split.t sum_type :=
  {| Split.fid := 0;
     Split.gain := F32.zero;
     Split.split_value := F32.infinity;
     Split.split_by_true := Split.split_by_true split;
     Split.count := NodeStat.count node_stat;
     Split.sum_grad := NodeStat.sum_grad node_stat |}.

(** The split recorded when the result of a dense feature is accepted. *)
Definition accepted_split {sum_type} `{SumType sum_type} (active_fid : Z)
    (best : Split.t sum_type) (cell : my_atomics) (s : sum_type)
    (fvalue_prev_val fvalue_val : float) (parent_count : Z)
    (parent_sum : sum_type) : Split.t sum_type :=
  {| Split.fid := active_fid;
     Split.gain := floats0 cell;
     Split.split_value := split_threshold fvalue_prev_val fvalue_val;
     Split.split_by_true := Split.split_by_true best;
     Split.count := wrap32 (ints1 cell - parent_count);
     Split.sum_grad := sum_sub s parent_sum |}.

Section DenseLeafResult.
Context {sum_type : Type} `{SumType sum_type}.
Implicit Types (b : Builder sum_type).

(** What the iteration of [GetBestSplitForDenceFeature] for leaf [i]
  returns, case by case. *)
Inductive dense_leaf_result (active_fid : Z) (circular_fid : nat) (i : nat)
  b : Builder sum_type → Prop :=
| dense_leaf_empty node_stat :
    _nodeStat b !! i = Some node_stat →
    NodeStat.count node_stat <= 0 →
    dense_leaf_result active_fid circular_fid i b b
| dense_leaf_not_better node_stat slot_results cell best :
    _nodeStat b !! i = Some node_stat →
    0 < NodeStat.count node_stat →
    results_h b !! circular_fid = Some slot_results →
    slot_results !! i = Some cell →
    _bestSplit b !! i = Some best →
    F32.ltb (Split.gain best) (floats0 cell) = false →
    dense_leaf_result active_fid circular_fid i b b
| dense_leaf_nan node_stat slot_results cell best slot_sum s :
    _nodeStat b !! i = Some node_stat →
    0 < NodeStat.count node_stat →
    results_h b !! circular_fid = Some slot_results →
    slot_results !! i = Some cell →
    _bestSplit b !! i = Some best →
    F32.ltb (Split.gain best) (floats0 cell) = true →
    sum b !! circular_fid = Some slot_sum →
    at_index slot_sum (int_of_uint (ints1 cell)) = Some s →
    _isnan s = true →
    dense_leaf_result active_fid circular_fid i b b
| dense_leaf_accepted node_stat slot_results cell best slot_sum s
    slot_fvalue fvalue_prev_val fvalue_val parent_count parent_sum :
    _nodeStat b !! i = Some node_stat →
    0 < NodeStat.count node_stat →
    results_h b !! circular_fid = Some slot_results →
    slot_results !! i = Some cell →
    _bestSplit b !! i = Some best →
    F32.ltb (Split.gain best) (floats0 cell) = true →
    sum b !! circular_fid = Some slot_sum →
    at_index slot_sum (int_of_uint (ints1 cell)) = Some s →
    _isnan s = false →
    fvalue b !! circular_fid = Some slot_fvalue →
    at_index slot_fvalue (int_of_uint (ints1 cell)) = Some fvalue_prev_val →
    at_index slot_fvalue (int_of_uint (ints1 cell) + 1) = Some fvalue_val →
    parent_node_count_h b !! i = Some parent_count →
    parent_node_sum_h b !! i = Some parent_sum →
    dense_leaf_result active_fid circular_fid i b
      (set_bestSplit b
         (<[i := accepted_split active_fid best cell s fvalue_prev_val
                   fvalue_val parent_count parent_sum]> (_bestSplit b))).
End DenseLeafResult.

(** The reductions of the dense features of one level, in the order of the
    loop of [FindBestSplits]: before each call of
    [GetBestSplitForDenceFeature] the pipeline has put new contents in the
    slot buffers [sum], [fvalue] and [results_h]. *)
Definition set_slots {sum_type} (b : Builder sum_type)
    (sum' : list (list sum_type)) (fvalue' : list (list float))
    (results_h' : list (list my_atomics)) : Builder sum_type :=
  {| _rowIndex2Node := _rowIndex2Node b; _nodeStat := _nodeStat b;
     _bestSplit := _bestSplit b; sum := sum'; fvalue := fvalue';
     results_h := results_h'; parent_node_sum_h := parent_node_sum_h b;
     parent_node_count_h := parent_node_count_h b |}.

Inductive dense_reductions {sum_type} `{SumType sum_type} (lenght : nat)
  : Builder sum_type → Builder sum_type → Prop :=
  | dense_reductions_done b : dense_reductions lenght b b
  | dense_reductions_next b b1 b2 sum' fvalue' results_h' active_fid
      circular_fid :
      GetBestSplitForDenceFeature active_fid circular_fid lenght
        (set_slots b sum' fvalue' results_h') = Some b1 →
      dense_reductions lenght b1 b2 →
      dense_reductions lenght b b2.

(** ** Scenarios *)

(** Modelled from the spec: [Split::Clean] of garden.h, which is not under
    src/. An unset record has [fid = -1]; the other fields are zero. *)
Definition clean_split {sum_type} `{SumType sum_type} : Split.t sum_type :=
  {| Split.fid := -1; Split.gain := F32.zero; Split.split_value := F32.zero;
     Split.split_by_true := false; Split.count := 0; Split.sum_grad := init |}.

(** Scenario S1 at level 0: four rows in leaf 0, one dense feature with the
    values 1, 2, 3, 4 and the gradients -1, -1, 1, 1. [scenario_sum] is the
    exclusive scan of the gradients in sort order. *)
Definition scenario_fvalue : list float :=
  [F32.neg_infinity; F32.of_Z 1; F32.of_Z 2; F32.of_Z 3; F32.of_Z 4].
Definition scenario_sum : list float :=
  [F32.zero; F32.of_Z (-1); F32.of_Z (-2); F32.of_Z (-1)].

Definition scenario_builder (count : Z) (cells : list my_atomics)
  : Builder float :=
  {| _rowIndex2Node := [0; 0; 0; 0];
     _nodeStat := [NodeStat.Build count F32.zero F32.zero];
     _bestSplit := [clean_split (H := SumType_float)];
     sum := [scenario_sum];
     fvalue := [scenario_fvalue];
     results_h := [cells];
     parent_node_sum_h := [F32.zero; F32.zero];
     parent_node_count_h := [0; 4] |}.

(** The result cell of leaf 0: the gain 4 at sort index 2. *)
Definition scenario_cell : my_atomics :=
  my_atomics_of_words (bits_of_float (F32.of_Z 4)) 2.

(** The smallest unsigned type of the four with at least [bits] bits. *)
Definition bit_width (t : node_type) : Z := sizeof t * CHAR_BIT.

Definition smallest_node_type (bits : Z) : option node_type :=
  if bits <=? bit_width unsigned_char then Some unsigned_char
  else if bits <=? bit_width unsigned_short then Some unsigned_short
  else if bits <=? bit_width unsigned_int then Some unsigned_int
  else if bits <=? bit_width unsigned_long_int then Some unsigned_long_int
  else None.

(** A float that is not below zero: its sign bit is clear, or it is a zero
    or a NaN. *)
Definition nonneg (x : spec_float) : bool :=
  match x with
  | S754_finite true _ _ | S754_infinity true => false
  | _ => true
  end.

(** A level with one leaf of two rows that no feature has claimed, over
    data without a dense column ([fid] 0 is the sparse feature, true in
    row 0) and over data whose dense feature 0 is a NaN in row 0. *)
Definition unclaimed_builder : Builder float :=
  {| _rowIndex2Node := [0; 0];
     _nodeStat := [NodeStat.Build 2 (F32.of_Z 3) F32.zero];
     _bestSplit := [clean_split (H := SumType_float)];
     sum := []; fvalue := []; results_h := [];
     parent_node_sum_h := [F32.zero; F32.of_Z 3];
     parent_node_count_h := [0; 2] |}.

Definition sparse_only_data : DataMatrix :=
  {| rows := 2; columns_dense := 0; data := []; lil_row := [[0]; []] |}.

Definition nan_data : DataMatrix :=
  {| rows := 2; columns_dense := 1; data := [[S754_nan; F32.of_Z 1]];
     lil_row := [[]; []] |}.

(** Half of one column: the sampling is too small. *)
Definition half_sampling_param : TreeParam :=
  {| objective := LinearRegression; depth := 2;
     colsample_bytree := F32.of_Z_exp 1 (-1);
     colsample_bylevel := F32.of_Z 1; labels_count := 1 |}.

(** ** The gain kernel: the state of the result array *)

Section GainKernelHandled.
Context {sum_type : Type} `{SumType sum_type}.
Variable left_sum : list sum_type.
Variable fvalues : list float.
Variable segments : list Z.
Variable parent_sum_iter : list sum_type.
Variable parent_count_iter : list Z.
Variable parameters : GainFunctionParameters.

(** The state of the result array when the positions below [k] have been
    handled: a cell is still zero or holds a position of its segment that
    passed the test with a positive gain, and no handled position of the
    segment has a gain above the stored one. *)
Definition gain_kernel_handled (k : nat) (res : list my_atomics) : Prop :=
  ∀ (segment : nat) (cell : my_atomics),
    res !! segment = Some cell →
    (cell = 0
     ∨ ∃ (i : nat) (gain : float),
         (i < k)%nat
         ∧ gain_kernel_test fvalues i = Some true
         ∧ gain_kernel_gain left_sum segments parent_sum_iter parent_count_iter
             parameters i = Some (Z.of_nat segment, gain)
         ∧ F32.ltb F32.zero gain = true
         ∧ cell = my_atomics_of_words (bits_of_float gain) (Z.of_nat i))
    ∧ (∀ (i : nat) (gain : float),
         (i < k)%nat →
         gain_kernel_test fvalues i = Some true →
         gain_kernel_gain left_sum segments parent_sum_iter parent_count_iter
             parameters i = Some (Z.of_nat segment, gain) →
         F32.ltb (floats0 cell) gain = false).
End GainKernelHandled.

(** ** Further code of the level driver *)

(** [operator+] of the sum types, for the prefix arrays. *)
Class SumAdd (T : Type) := sum_add : T → T → T.

#[export] Instance SumAdd_float : SumAdd float := F32.add.
#[export] Instance SumAdd_double : SumAdd double | 10 := F64.add.
(** Modelled from the spec: the sums of 2-tuples (cuda_helpers.h, not under
    src/) are componentwise. *)
#[export] Instance SumAdd_float2 : SumAdd float2 :=
  λ a b, mk_float2 (F32.add (f2x a) (f2x b)) (F32.add (f2y a) (f2y b)).
#[export] Instance SumAdd_mydouble2 : SumAdd double2 :=
  λ a b, mk_double2 (F64.add (d2x a) (d2x b)) (F64.add (d2y a) (d2y b)).

Definition set_parents {sum_type} (b : Builder sum_type)
    (sums : list sum_type) (counts : list Z) : Builder sum_type :=
  {| _rowIndex2Node := _rowIndex2Node b; _nodeStat := _nodeStat b;
     _bestSplit := _bestSplit b; sum := sum b; fvalue := fvalue b;
     results_h := results_h b; parent_node_sum_h := sums;
     parent_node_count_h := counts |}.

Section LevelDriverMore.
Context {sum_type : Type} `{SumType sum_type} `{SumAdd sum_type}.

(** The first block of [FindBestSplits]: [parent_node_count_h] and
    [parent_node_sum_h] become the running totals of the leaf statistics;
    the counts are [unsigned int]. *)
Definition FindBestSplits_prefix_leaf (i : nat) (b : Builder sum_type)
  : option (Builder sum_type) :=
  count_i ← parent_node_count_h b !! i;
  node_stat ← _nodeStat b !! i;
  counts ← set_index (parent_node_count_h b) (Z.of_nat i + 1)
              (wrap32 (count_i + NodeStat.count node_stat));
  sum_i ← parent_node_sum_h b !! i;
  sums ← set_index (parent_node_sum_h b) (Z.of_nat i + 1)
            (sum_add sum_i (NodeStat.sum_grad node_stat));
  Some (set_parents b sums counts).

Definition FindBestSplits_prefix (lenght : nat) (b : Builder sum_type)
  : option (Builder sum_type) :=
  sums ← set_index (parent_node_sum_h b) 0 init;
  counts ← set_index (parent_node_count_h b) 0 0;
  for_loop FindBestSplits_prefix_leaf 0 lenght (set_parents b sums counts).

(** The body of the loop of [GetBestSplitForSparseFeature] for leaf [i].
    [sparse_stat] and [gain_param] are members of the builder; the feature
    id [active_fid + columns_dense] is computed in [size_t] and stored in
    an [int]. *)
Definition GetBestSplitForSparseFeature_leaf
    (sparse_stat : list (list Z)) (gain_param : GainFunctionParameters)
    (active_fid columns_dense : Z) (circular_fid : nat) (i : nat)
    (b : Builder sum_type) : option (Builder sum_type) :=
  stat ← at_index sparse_stat active_fid;
  true_count ← stat !! i;
  if true_count =? 0 then Some b
  else
    slot_sum ← sum b !! circular_fid;
    sum_true ← slot_sum !! i;
    if negb (_isnan sum_true) then
      node_stat ← _nodeStat b !! i;
      let gain := gain_func sum_true (NodeStat.sum_grad node_stat) true_count
                    (wrap64 (NodeStat.count node_stat)) gain_param in
      best ← _bestSplit b !! i;
      if F32.ltb (Split.gain best) gain then
        Some (set_bestSplit b
                (<[i := {| Split.fid :=
                             int_of_uint (wrap32 (active_fid + columns_dense));
                           Split.gain := gain;
                           Split.split_value := Split.split_value best;
                           Split.split_by_true := true;
                           Split.count := true_count;
                           Split.sum_grad := sum_true |}]> (_bestSplit b)))
      else Some b
    else Some b.

Definition GetBestSplitForSparseFeature
    (sparse_stat : list (list Z)) (gain_param : GainFunctionParameters)
    (active_fid columns_dense : Z) (circular_fid lenght : nat)
    (b : Builder sum_type) : option (Builder sum_type) :=
  for_loop (GetBestSplitForSparseFeature_leaf sparse_stat gain_param
              active_fid columns_dense circular_fid) 0 lenght b.
End LevelDriverMore.

(** A node of [RegTree] (declared with the tree container, not under
    src/), with the three fields [UpdateTree] writes. *)
Record Node := {
  node_threshold : float;
  node_split_by_true : bool;
  node_fid : Z
}.

Section UpdateTree.
Context {sum_type : Type}.
Variable HeapOffset : Z → Z.

(** The body of the loop of [UpdateTree] for leaf [i]. *)
Definition UpdateTree_leaf (level : Z) (b : Builder sum_type) (i : nat)
    (nodes : list Node) : option (list Node) :=
  let offset := HeapOffset level in
  best ← _bestSplit b !! i;
  set_index nodes (Z.of_nat i + offset)
    {| node_threshold := Split.split_value best;
       node_split_by_true := Split.split_by_true best;
       node_fid := if Split.fid best <? 0 then 0 else Split.fid best |}.

(** [UpdateTree(level, tree)], over [len = 1 << level] leaves. *)
Definition UpdateTree (level : Z) (b : Builder sum_type) (nodes : list Node)
  : option (list Node) :=
  for_loop (UpdateTree_leaf level b) 0 (Z.to_nat (2 ^ level)) nodes.
End UpdateTree.

(** What [UpdateNodeIndex] needs of the data for a split record: a
    feature id that is not negative, and a column of [data->rows] values
    when the feature is dense. *)
Definition routable {sum_type} (data_ : DataMatrix)
    (best : Split.t sum_type) : Prop :=
  0 <= Split.fid best
  ∧ (Split.fid best < columns_dense data_ →
     ∃ column, data data_ !! Z.to_nat (Split.fid best) = Some column
               ∧ (rows data_ <= length column)%nat).

(** ** The feature pipeline of [FindBestSplits] *)

(** A call made by the loop over the sampled features of [FindBestSplits].
    [Process] stands for [ProcessDenceFeature] or [ProcessSparseFeature]
    and [GetBestSplit] for [GetBestSplitForDenceFeature] or
    [GetBestSplitForSparseFeature], as [call_dense] tells;
    [call_position] is the index of [active_fids] the feature was read at,
    [call_fid] the feature argument and [call_slot] the [circular_fid]
    argument. *)
Inductive stage := Process | GetBestSplit.

Record feature_call := {
  call_stage : stage;
  call_position : nat;
  call_dense : bool;
  call_fid : Z;
  call_slot : nat
}.

(** The call for the feature at [position]: the feature is dense when
    [active_fid < data->columns_dense]; a sparse feature is passed as
    [active_fid - data->columns_dense], which does not wrap there. *)
Definition feature_call_of (st : stage) (active_fids : list Z)
    (columns_dense : Z) (overlap_depth position : nat)
  : option feature_call :=
  active_fid ← active_fids !! position;
  Some {| call_stage := st;
          call_position := position;
          call_dense := active_fid <? columns_dense;
          call_fid := if active_fid <? columns_dense then active_fid
                      else active_fid - columns_dense;
          call_slot := position mod overlap_depth |}.

(** The inner loop of [FindBestSplits] for the feature index [j]:
    [for (i = 0; i < overlap_depth && (j + i) < take; ++i)], with [n] the
    number of values of [i] left below [overlap_depth]. *)
Fixpoint FindBestSplits_launch (active_fids : list Z) (columns_dense : Z)
    (take overlap_depth j n i : nat) (trace : list feature_call)
  : option (list feature_call) :=
  match n with
  | O => Some trace
  | S n' =>
      if (j + i <? take)%nat then
        if negb (j =? 0)%nat && (i + 1 <? overlap_depth)%nat then
          FindBestSplits_launch active_fids columns_dense take overlap_depth
            j n' (S i) trace
        else
          c ← feature_call_of Process active_fids columns_dense overlap_depth
                 (j + i);
          FindBestSplits_launch active_fids columns_dense take overlap_depth
            j n' (S i) (trace ++ [c])
      else Some trace
  end.

(** The body of the loop over [j]; [j % overlap_depth] is undefined for
    [overlap_depth = 0]. *)
Definition FindBestSplits_feature (active_fids : list Z) (columns_dense : Z)
    (take overlap_depth j : nat) (trace : list feature_call)
  : option (list feature_call) :=
  launched ← FindBestSplits_launch active_fids columns_dense take
                overlap_depth j overlap_depth 0 trace;
  if (overlap_depth =? 0)%nat then None
  else
    c ← feature_call_of GetBestSplit active_fids columns_dense overlap_depth j;
    Some (launched ++ [c]).

(** The calls of the loop over the [take] sampled features, in order. *)
Definition FindBestSplits_features (active_fids : list Z) (columns_dense : Z)
    (take overlap_depth : nat) : option (list feature_call) :=
  for_loop (FindBestSplits_feature active_fids columns_dense take
              overlap_depth) 0 take [].

(** The use of the pipeline slots by a sequence of calls. A slot is free or
    holds the position of the feature whose buffers ([sum], [fvalue],
    [results_h], ...) it carries. [Process] needs a free slot and fills it;
    [GetBestSplit] needs the slot to hold the feature it reads and frees
    it. *)
Definition slots := nat → option nat.

Definition slot_set (s : slots) (c : nat) (v : option nat) : slots :=
  λ c', if decide (c' = c) then v else s c'.

Definition pipeline_step (s : slots) (c : feature_call) : option slots :=
  match call_stage c, s (call_slot c) with
  | Process, None =>
      Some (slot_set s (call_slot c) (Some (call_position c)))
  | GetBestSplit, Some p =>
      if (p =? call_position c)%nat then Some (slot_set s (call_slot c) None)
      else None
  | _, _ => None
  end.

Definition pipeline_run (trace : list feature_call) (s : slots)
  : option slots :=
  foldl (λ acc c, s' ← acc; pipeline_step s' c) (Some s) trace.

Definition positions_of (st : stage) (trace : list feature_call) : list nat :=
  omap (λ c, match call_stage c, st with
             | Process, Process | GetBestSplit, GetBestSplit =>
                 Some (call_position c)
             | _, _ => None
             end) trace.

(** A call is well formed when its feature is the one [active_fids] holds
    at its position and its slot is the position modulo [overlap_depth],
    an index of the slot arrays. *)
Definition call_wf (active_fids : list Z) (columns_dense : Z)
    (overlap_depth : nat) (c : feature_call) : Prop :=
  feature_call_of (call_stage c) active_fids columns_dense overlap_depth
    (call_position c) = Some c
  ∧ (call_slot c < overlap_depth)%nat.

(** The slots hold the positions from [lo] up to [hi], each in the slot of
    its remainder modulo [overlap_depth]. *)
Definition window (overlap_depth lo hi : nat) (s : slots) : Prop :=
  ∀ c p, s c = Some p ↔ (lo <= p < hi)%nat ∧ c = (p mod overlap_depth)%nat.

(** After [trace] the features below [lo] have been read, those below [hi]
    processed, and the slots hold the ones in between. *)
Definition pipeline_inv (active_fids : list Z) (columns_dense : Z)
    (overlap_depth lo hi : nat) (trace : list feature_call) : Prop :=
  (∃ s, pipeline_run trace (λ _, None) = Some s
        ∧ window overlap_depth lo hi s)
  ∧ positions_of Process trace = seq 0 hi
  ∧ positions_of GetBestSplit trace = seq 0 lo
  ∧ Forall (call_wf active_fids columns_dense overlap_depth) trace.

(** ** Temporary device storage *)

(** The temporary storage of the pipeline slots: the recorded capacity
    [temp_bytes_allocated] of every slot, and for the pointer
    [temp_bytes] of every slot the size of the live device block it points
    to, if any (the pointers start uninitialised and dangle after
    [cudaFree]). [dropped] collects the sizes of the blocks whose pointer
    was overwritten while they were live. Device memory is taken not to
    run out. *)
Record TempStorage := {
  temp_bytes_allocated : list Z;
  temp_bytes : list (option Z);
  dropped : list Z
}.

(** [cudaMalloc(&(temp_bytes[circular_fid]), bytes)] *)
Definition cudaMalloc_temp_bytes (t : TempStorage) (circular_fid : nat)
    (bytes : Z) : option TempStorage :=
  old ← temp_bytes t !! circular_fid;
  Some {| temp_bytes_allocated := temp_bytes_allocated t;
          temp_bytes := <[circular_fid := Some bytes]> (temp_bytes t);
          dropped := match old with
                     | Some size => dropped t ++ [size]
                     | None => dropped t
                     end |}.

(** [cudaFree(temp_bytes[circular_fid])]: an error unless the pointer is
    that of a live block. *)
Definition cudaFree_temp_bytes (t : TempStorage) (circular_fid : nat)
  : option TempStorage :=
  old ← temp_bytes t !! circular_fid;
  match old with
  | Some _ =>
      Some {| temp_bytes_allocated := temp_bytes_allocated t;
              temp_bytes := <[circular_fid := None]> (temp_bytes t);
              dropped := dropped t |}
  | None => None
  end.

Definition set_temp_bytes_allocated (t : TempStorage) (circular_fid : nat)
    (bytes : Z) : TempStorage :=
  {| temp_bytes_allocated := <[circular_fid := bytes]> (temp_bytes_allocated t);
     temp_bytes := temp_bytes t;
     dropped := dropped t |}.

Definition AllocateMemoryIfRequire (t : TempStorage) (circular_fid : nat)
    (bytes : Z) : option TempStorage :=
  allocated ← temp_bytes_allocated t !! circular_fid;
  if allocated =? 0 then
    t1 ← cudaMalloc_temp_bytes t circular_fid bytes;
    Some (set_temp_bytes_allocated t1 circular_fid bytes)
  else if allocated <? bytes then
    t1 ← cudaFree_temp_bytes t circular_fid;
    t2 ← cudaMalloc_temp_bytes t1 circular_fid bytes;
    Some (set_temp_bytes_allocated t2 circular_fid bytes)
  else Some t.

(** The storage as the constructor leaves it before its own calls of
    [AllocateMemoryIfRequire]. *)
Definition TempStorage_new (overlap_depth : nat) : TempStorage :=
  {| temp_bytes_allocated := replicate overlap_depth 0;
     temp_bytes := replicate overlap_depth None;
     dropped := [] |}.

(** A sequence of calls, each with its slot and size. *)
Definition AllocateMemoryIfRequire_all (requests : list (nat * Z))
    (t : TempStorage) : option TempStorage :=
  foldl (λ acc r, t' ← acc; AllocateMemoryIfRequire t' r.1 r.2) (Some t)
    requests.

(** The largest size asked for slot [circular_fid], from [allocated] on. *)
Definition largest_request (requests : list (nat * Z)) (circular_fid : nat)
    (allocated : Z) : Z :=
  foldl (λ a r, if decide (r.1 = circular_fid) then Z.max a r.2 else a)
    allocated requests.

(** The capacities are not negative, a slot with a capacity points to a
    live block of that size, and no block of a positive size was
    dropped. *)
Definition TempStorage_ok (t : TempStorage) : Prop :=
  length (temp_bytes t) = length (temp_bytes_allocated t)
  ∧ (∀ (slot : nat) (allocated : Z),
       temp_bytes_allocated t !! slot = Some allocated →
       0 <= allocated
       ∧ (temp_bytes t !! slot = Some (Some allocated)
          ∨ (allocated = 0 ∧ temp_bytes t !! slot = Some None)))
  ∧ Forall (λ size, size = 0) (dropped t).

(** ** The statistics of the new leaves *)

Definition set_nodeStat {sum_type} (b : Builder sum_type)
    (v : list (NodeStat.t sum_type)) : Builder sum_type :=
  {| _rowIndex2Node := _rowIndex2Node b; _nodeStat := v;
     _bestSplit := _bestSplit b; sum := sum b; fvalue := fvalue b;
     results_h := results_h b; parent_node_sum_h := parent_node_sum_h b;
     parent_node_count_h := parent_node_count_h b |}.

Section UpdateNodeStat.
Context {sum_type : Type} `{SumType sum_type}.
Variable HeapOffset : Z → Z.
Variable ChildNode : Z → bool → Z.

(** [tree->ChildNode(i + offset, isLeft) - offset_next] in
    [UpdateNodeStat]; [i + offset] is a [size_t] and does not wrap. *)
Definition UpdateNodeStat_child (level : Z) (i : nat) (isLeft : bool) : Z :=
  wrap32 (ChildNode (Z.of_nat i + HeapOffset level) isLeft
          - HeapOffset (level + 1)).

(** The assignments to [_nodeStat[k].count] and [_nodeStat[k].sum_grad]. *)
Definition UpdateNodeStat_assign (stats : list (NodeStat.t sum_type)) (k : Z)
    (count : Z) (sum_grad : sum_type) : option (list (NodeStat.t sum_type)) :=
  old ← at_index stats k;
  set_index stats k {| NodeStat.count := count;
                       NodeStat.sum_grad := sum_grad;
                       NodeStat.gain := NodeStat.gain old |}.

(** The body of the first loop of [UpdateNodeStat] for the split leaf [i]
    of the level above; [tmp] is the copy of [_nodeStat] taken before the
    loop. *)
Definition UpdateNodeStat_parent (level : Z)
    (tmp : list (NodeStat.t sum_type)) (i : nat) (b : Builder sum_type)
  : option (Builder sum_type) :=
  best ← _bestSplit b !! i;
  stats ← UpdateNodeStat_assign (_nodeStat b)
             (UpdateNodeStat_child level i true)
             (Split.count best) (Split.sum_grad best);
  parent ← tmp !! i;
  stats ← UpdateNodeStat_assign stats
             (UpdateNodeStat_child level i false)
             (NodeStat.count parent - Split.count best)
             (sum_sub (NodeStat.sum_grad parent) (Split.sum_grad best));
  Some (set_nodeStat b stats).

(** The first loop of [UpdateNodeStat] for [level != 0], over the
    [1 << (level - 1)] leaves of the level above. *)
Definition UpdateNodeStat_children (level : Z) (b : Builder sum_type)
  : option (Builder sum_type) :=
  let tmp := _nodeStat b in
  for_loop (UpdateNodeStat_parent level tmp) 0 (Z.to_nat (2 ^ (level - 1))) b.

(** The body of the last loop of [UpdateNodeStat]. *)
Definition UpdateNodeStat_reset_leaf (i : nat) (b : Builder sum_type)
  : option (Builder sum_type) :=
  node_stat ← _nodeStat b !! i;
  _ ← _bestSplit b !! i;
  Some (set_bestSplit
          (set_nodeStat b
             (<[i := {| NodeStat.count := NodeStat.count node_stat;
                        NodeStat.sum_grad := NodeStat.sum_grad node_stat;
                        NodeStat.gain := F32.zero |}]> (_nodeStat b)))
          (<[i := clean_split]> (_bestSplit b))).

(** The last loop of [UpdateNodeStat], over the [1 << level] leaves of the
    level. *)
Definition UpdateNodeStat_reset (level : Z) (b : Builder sum_type)
  : option (Builder sum_type) :=
  for_loop UpdateNodeStat_reset_leaf 0 (Z.to_nat (2 ^ level)) b.
(** What the first loop has written for the split leaf [i]: the left child
    has the count and the gradient sum of the split, the right child what
    is left of the statistics [parent] the leaf had before the loop. *)
Definition children_of (level : Z) (i : nat) (best : Split.t sum_type)
    (parent : NodeStat.t sum_type) (stats : list (NodeStat.t sum_type))
  : Prop :=
  ∃ l r,
    at_index stats (UpdateNodeStat_child level i true) = Some l
    ∧ at_index stats (UpdateNodeStat_child level i false) = Some r
    ∧ NodeStat.count l = Split.count best
    ∧ NodeStat.sum_grad l = Split.sum_grad best
    ∧ NodeStat.count r = NodeStat.count parent - Split.count best
    ∧ NodeStat.sum_grad r
      = sum_sub (NodeStat.sum_grad parent) (Split.sum_grad best)
    ∧ NodeStat.count l + NodeStat.count r = NodeStat.count parent.
End UpdateNodeStat.

(** ** [gather_kernel_temp] on its grid *)

(** The values [i] of a grid-stride loop
    [for (i = start; i < n; i += stride)]; [fuel] bounds the number of
    rounds. *)
Fixpoint grid_stride (fuel i stride n : nat) : list nat :=
  match fuel with
  | O => []
  | S fuel' =>
      if (i <? n)%nat then i :: grid_stride fuel' (i + stride) stride n
      else []
  end.

(** The indices the threads of block [blockIdx] go through, thread after
    thread: thread [threadIdx] starts at
    [blockDim.x * blockIdx.x + threadIdx.x] and steps by
    [gridDim.x * blockDim.x], both taken without wrap-around. *)
Definition block_indices (blockDim gridDim blockIdx n : nat) : list nat :=
  flat_map (λ threadIdx,
              grid_stride n (blockDim * blockIdx + threadIdx)
                (gridDim * blockDim) n)
    (seq 0 blockDim).

Section GatherTemp.
Context {T : Type}.

(** One assignment [mem[dst] = mem[src]] in device memory, which is one
    array of cells here so that the buffers of a kernel can overlap. *)
Definition copy_cell (src : option Z) (dst : Z) (mem : list T)
  : option (list T) :=
  a ← src;
  v ← at_index mem a;
  set_index mem dst v.

Fixpoint run_threads (step : nat → list T → option (list T))
    (indices : list nat) (mem : list T) : option (list T) :=
  match indices with
  | [] => Some mem
  | i :: rest => mem' ← step i mem; run_threads step rest mem'
  end.

(** The pointer arguments of the kernel, as offsets into device memory;
    [position] is read only. *)
Variable position : list Z.
Variables data out tmp : Z.

(** [tmp[i] = data[position[i]]] *)
Definition gather_kernel_temp_load (i : nat) : list T → option (list T) :=
  copy_cell (p ← position !! i; Some (data + p)) (tmp + Z.of_nat i).

(** [out[i] = tmp[i]] *)
Definition gather_kernel_temp_store (i : nat) : list T → option (list T) :=
  copy_cell (Some (tmp + Z.of_nat i)) (out + Z.of_nat i).

(** A block of [gather_kernel_temp]: every thread of the block runs the
    first loop, the threads meet at [__syncthreads()], and every thread
    runs the second loop. *)
Definition gather_kernel_temp_block (blockDim gridDim n blockIdx : nat)
    (mem : list T) : option (list T) :=
  mem' ← run_threads gather_kernel_temp_load
            (block_indices blockDim gridDim blockIdx n) mem;
  run_threads gather_kernel_temp_store
    (block_indices blockDim gridDim blockIdx n) mem'.

(** The kernel with its blocks run one after the other in the order
    [schedule]; the barrier holds the threads of one block only. *)
Definition gather_kernel_temp (blockDim gridDim n : nat)
    (schedule : list nat) (mem : list T) : option (list T) :=
  run_threads (gather_kernel_temp_block blockDim gridDim n) schedule mem.

(** The buffer of [n] cells at [a] lies in memory, and two such buffers do
    not meet. *)
Definition buffer_in (a : Z) (n : nat) (mem : list T) : Prop :=
  0 <= a ∧ a + Z.of_nat n <= Z.of_nat (length mem).

Definition buffers_apart (a b : Z) (n : nat) : Prop :=
  a + Z.of_nat n <= b ∨ b + Z.of_nat n <= a.
End GatherTemp.

(** ** The counts of the sparse features *)

(** A loop [for (i = 0; i < n; ++i) l[i] = f(i, l[i])] over a vector. *)
Definition update_each {A : Type} (f : nat → A → option A) (n : nat)
    (l : list A) : option (list A) :=
  for_loop (λ i s, x ← s !! i; y ← f i x; Some (<[i := y]> s)) 0 n l.

(** The entry [stat[f][node]] of a table such as [sparse_stat]. *)
Definition cell (stat : list (list Z)) (f node : Z) : option Z :=
  column ← at_index stat f; at_index column node.

Section SparseStat.
(** [data->columns_dense], [data->columns_sparse], [data->lil_row], the
    width [1 << (param.depth - 2)] of the tables, and the row-to-leaf
    table. *)
Variable columns_dense : Z.
Variable columns_sparse : nat.
Variable lil_row : list (list Z).
Variable width : nat.
Variable _rowIndex2Node : list Z.

(** [stat[f][node] += 1] on [unsigned int] counters. *)
Definition count_up (stat : list (list Z)) (f node : Z)
  : option (list (list Z)) :=
  column ← at_index stat f;
  c ← at_index column node;
  column' ← set_index column node (wrap32 (c + 1));
  set_index stat f column'.

(** The loop over the features that are true in a row of leaf [node];
    the index [data->lil_row[i][j] - data->columns_dense] is a
    [size_t]. *)
Fixpoint UpdateNodeStat_count_features (features : list Z) (node : Z)
    (temp_stat : list (list Z)) : option (list (list Z)) :=
  match features with
  | [] => Some temp_stat
  | fid :: rest =>
      temp_stat' ← count_up temp_stat (size_t_sub fid columns_dense) node;
      UpdateNodeStat_count_features rest node temp_stat'
  end.

(** The body of the [omp for] loop for row [i]. *)
Definition UpdateNodeStat_count_row (i : nat) (temp_stat : list (list Z))
  : option (list (list Z)) :=
  node ← _rowIndex2Node !! i;
  features ← lil_row !! i;
  UpdateNodeStat_count_features features node temp_stat.

(** The rows [omp for] gives one thread, in the thread's order. *)
Fixpoint UpdateNodeStat_count_rows (chunk : list nat)
    (temp_stat : list (list Z)) : option (list (list Z)) :=
  match chunk with
  | [] => Some temp_stat
  | i :: rest =>
      temp_stat' ← UpdateNodeStat_count_row i temp_stat;
      UpdateNodeStat_count_rows rest temp_stat'
  end.

(** The [omp critical] block: [sparse_stat[i][j] += temp_stat[i][j]]. *)
Definition UpdateNodeStat_merge (temp_stat sparse_stat : list (list Z))
  : option (list (list Z)) :=
  update_each
    (λ i column,
       temp_column ← temp_stat !! i;
       update_each (λ j c, t ← temp_column !! j; Some (wrap32 (c + t)))
         (length temp_column) column)
    (length temp_stat) sparse_stat.

(** One thread of the parallel region: its own zeroed [temp_stat], its
    share of the rows, then the critical block. *)
Definition UpdateNodeStat_thread (chunk : list nat)
    (sparse_stat : list (list Z)) : option (list (list Z)) :=
  temp_stat ← UpdateNodeStat_count_rows chunk
                (replicate columns_sparse (replicate width 0));
  UpdateNodeStat_merge temp_stat sparse_stat.

(** The threads, in the order in which they enter the critical block;
    what a thread does before is private to it. *)
Fixpoint UpdateNodeStat_threads (chunks : list (list nat))
    (sparse_stat : list (list Z)) : option (list (list Z)) :=
  match chunks with
  | [] => Some sparse_stat
  | chunk :: rest =>
      sparse_stat' ← UpdateNodeStat_thread chunk sparse_stat;
      UpdateNodeStat_threads rest sparse_stat'
  end.

(** The update of [sparse_stat] in [UpdateNodeStat] for [level != 0]: the
    tables of the sparse features are zeroed and, when there is a sparse
    feature, the parallel region counts the rows; [chunks] is the
    distribution of the rows over the threads. *)
Definition UpdateNodeStat_sparse_stat (chunks : list (list nat))
    (sparse_stat : list (list Z)) : option (list (list Z)) :=
  zeroed ← update_each (λ _ column, Some (replicate (length column) 0))
              columns_sparse sparse_stat;
  if (0 <? columns_sparse)%nat then UpdateNodeStat_threads chunks zeroed
  else Some zeroed.

(** The number of times sparse feature [f] is listed in row [i] if the row
    is in leaf [node], and the sum over a list of rows. *)
Definition row_count (f node : Z) (i : nat) : Z :=
  match _rowIndex2Node !! i, lil_row !! i with
  | Some node', Some features =>
      if node' =? node then
        Z.of_nat (length (filter (λ fid, size_t_sub fid columns_dense = f)
                            features))
      else 0
  | _, _ => 0
  end.

Definition rows_count (f node : Z) (rows : list nat) : Z :=
  foldr (λ i acc, row_count f node i + acc) 0 rows.

(** From [stat] to [stat'] every entry of the table of the sparse
    features (the first [columns_sparse] rows and [width] columns) has
    grown by [delta], modulo [2^32]. *)
Definition adds (delta : Z → Z → Z) (stat stat' : list (list Z)) : Prop :=
  ∀ f node, 0 <= f < Z.of_nat columns_sparse → 0 <= node < Z.of_nat width →
    cell stat' f node
    = c ← cell stat f node; Some (wrap32 (c + delta f node)).
End SparseStat.

(** ** The sampling condition of the specification *)

(** The exact value [m * 2^e] of a float that is a number, as the pair
    [(m, e)]. *)
Definition exact_value (x : float) : option (Z * Z) :=
  match x with
  | S754_zero _ => Some (0, 0)
  | S754_finite s m e => Some (cond_Zopp s (Zpos m), e)
  | S754_infinity _ | S754_nan => None
  end.

(** [floor (m * 2^e)] *)
Definition floor_scaled (m e : Z) : Z :=
  if 0 <=? e then m * 2 ^ e else m / 2 ^ (- e).

(** The two quantities of the specification, taken as it writes them, with
    exact products: [floor (colsample_bytree * columns)] and
    [floor (colsample_bytree * colsample_bylevel * columns)]. *)
Definition spec_take_by_tree (param : TreeParam) (columns : Z) : option Z :=
  by_tree ← exact_value (colsample_bytree param);
  Some (floor_scaled (by_tree.1 * columns) by_tree.2).

Definition spec_take_by_level (param : TreeParam) (columns : Z) : option Z :=
  by_tree ← exact_value (colsample_bytree param);
  by_level ← exact_value (colsample_bylevel param);
  Some (floor_scaled (by_tree.1 * by_level.1 * columns)
          (by_tree.2 + by_level.2)).

(** The condition under which the specification has initialisation fail
    with "sampling too small". *)
Definition spec_sampling_too_small (param : TreeParam) (columns : Z) : Prop :=
  spec_take_by_tree param columns = Some 0
  ∨ spec_take_by_level param columns = Some 0.

(** The binary32 number nearest to 1/31 (bits 0x3d042108) as the sampling
    rate by tree, with every feature kept at each level. *)
Definition rate_31 : float := F32.div (F32.of_Z 1) (F32.of_Z 31).

Definition rate_31_param : TreeParam :=
  {| objective := LinearRegression; depth := 2;
     colsample_bytree := rate_31;
     colsample_bylevel := F32.of_Z 1; labels_count := 1 |}.

(** * Properties *)

(** ** Machine integers and loops *)

Lemma size_t_sub_small (a b : Z) :
  0 <= b <= a → a < 2 ^ 64 → size_t_sub a b = a - b.
Proof.
  intros Hb Ha. unfold size_t_sub, wrap64. apply Z.mod_small. lia.
Qed.

Lemma size_t_sub_involutive (a b : Z) :
  0 <= b < 2 ^ 64 → size_t_sub a (size_t_sub a b) = b.
Proof.
  intros Hb. unfold size_t_sub, wrap64.
  rewrite Zminus_mod_idemp_r.
  replace (a - (a - b)) with b by lia.
  apply Z.mod_small. lia.
Qed.

(** ** Floating point *)

Lemma SFadd_comm (prec emax : Z) (x y : spec_float) :
  SFadd prec emax x y = SFadd prec emax y x.
Proof.
  destruct x as [sx|sx| |sx mx ex], y as [sy|sy| |sy my ey]; simpl;
    try reflexivity; try (destruct sx, sy; reflexivity).
  rewrite (Z.min_comm ey ex). f_equal. apply Z.add_comm.
Qed.

Lemma F32_add_comm (x y : float) : F32.add x y = F32.add y x.
Proof. apply SFadd_comm. Qed.

Lemma F64_add_comm (x y : double) : F64.add x y = F64.add y x.
Proof. apply SFadd_comm. Qed.

(** ** GainEvaluator *)

Lemma andb_pair (a b c d : bool) : a && b && c && d = (a && b) && (c && d).
Proof. destruct a, b, c, d; reflexivity. Qed.

Lemma feasible_count_dec (L N_t min_leaf : Z) :
  0 <= L <= N_t → N_t < 2 ^ 64 →
  (min_leaf <=? L) && (min_leaf <=? size_t_sub N_t L) = true
  ↔ feasible_count L N_t min_leaf.
Proof.
  intros HL HN. rewrite size_t_sub_small by lia.
  unfold feasible_count. rewrite andb_true_iff, !Z.leb_le. tauto.
Qed.

Lemma feasible_hess_dec (h_L h_R min_hess : spec_float) :
  SFleb min_hess (SFabs h_L) && SFleb min_hess (SFabs h_R) = true
  ↔ feasible_hess h_L h_R min_hess.
Proof. unfold feasible_hess. apply andb_true_iff. Qed.



(** C7, counterexample. With [G_L = 2^24 + 2], [G_t = 1] and one row on
    each side, the difference [G_t - G_L] rounds to [-2^24], so the
    exchanged call sees [2^24] where the original saw [2^24 + 2]: the two
    gains are [2^49 + 2^26] and [2^49]. *)
Lemma gain_func_exchange_counterexample :
  gain_func_float (F32.of_Z (2 ^ 24 + 2)) (F32.of_Z 1) 1 2 scenario_params
  ≠ gain_func_float (F32.sub (F32.of_Z 1) (F32.of_Z (2 ^ 24 + 2))) (F32.of_Z 1)
                    (2 - 1) 2 scenario_params.
Proof. vm_compute. discriminate. Qed.

(** C7, amended. [gain_func] is symmetric under the exchange of the two
    sides whenever the subtraction that forms the other side's aggregate
    round-trips, that is [G_t - (G_t - G_L) = G_L] in the arithmetic of the
    variant. *)
Theorem gain_func_exchange (params : GainFunctionParameters) (L N_t : Z) :
  0 <= L <= N_t → N_t < 2 ^ 64 →
  (∀ G_L G_t : float,
      F32.sub G_t (F32.sub G_t G_L) = G_L →
      gain_func_float G_L G_t L N_t params
      = gain_func_float (F32.sub G_t G_L) G_t (N_t - L) N_t params)
  ∧ (∀ G_L G_t : double,
      F64.sub G_t (F64.sub G_t G_L) = G_L →
      gain_func_double G_L G_t L N_t params
      = gain_func_double (F64.sub G_t G_L) G_t (N_t - L) N_t params)
  ∧ (∀ G_L G_t : float2,
      float2_sub G_t (float2_sub G_t G_L) = G_L →
      gain_func_float2 G_L G_t L N_t params
      = gain_func_float2 (float2_sub G_t G_L) G_t (N_t - L) N_t params)
  ∧ (∀ G_L G_t : double2,
      double2_sub G_t (double2_sub G_t G_L) = G_L →
      gain_func_double2 G_L G_t L N_t params
      = gain_func_double2 (double2_sub G_t G_L) G_t (N_t - L) N_t params).
Proof.
  intros HL HN.
  assert (Hr : size_t_sub N_t L = N_t - L) by (apply size_t_sub_small; lia).
  assert (Hl : size_t_sub N_t (N_t - L) = L).
  { rewrite <- Hr. apply size_t_sub_involutive. lia. }
  repeat split; intros G_L G_t Hrt.
  - unfold gain_func_float. cbv zeta. rewrite Hl, Hr, Hrt.
    rewrite (andb_comm (min_leaf_size params <=? N_t - L)).
    destruct (_ && _); [|reflexivity].
    f_equal. apply F32_add_comm.
  - unfold gain_func_double. cbv zeta. rewrite Hl, Hr, Hrt.
    rewrite (andb_comm (min_leaf_size params <=? N_t - L)).
    destruct (_ && _); [|reflexivity].
    do 2 f_equal. apply F64_add_comm.
  - unfold gain_func_float2. cbv zeta. rewrite Hl, Hr, Hrt.
    rewrite !andb_pair.
    rewrite (andb_comm (min_leaf_size params <=? N_t - L)).
    rewrite (andb_comm (F32.leb _ (F32.abs (f2y (float2_sub G_t G_L))))).
    destruct (_ && _); [|reflexivity].
    f_equal. apply F32_add_comm.
  - unfold gain_func_double2. cbv zeta. rewrite Hl, Hr, Hrt.
    rewrite !andb_pair.
    rewrite (andb_comm (min_leaf_size params <=? N_t - L)).
    rewrite (andb_comm (F64.leb _ (F64.abs (d2y (double2_sub G_t G_L))))).
    destruct (_ && _); [|reflexivity].
    f_equal. apply F32_add_comm.
Qed.

Lemma gain_func_exchange_witness :
  0 <= 2 <= 4 ∧ 4 < 2 ^ 64
  ∧ F32.sub (F32.of_Z 0) (F32.sub (F32.of_Z 0) (F32.of_Z (-2))) = F32.of_Z (-2)
  ∧ gain_func_float (F32.of_Z (-2)) (F32.of_Z 0) 2 4 scenario_params
    = gain_func_float (F32.sub (F32.of_Z 0) (F32.of_Z (-2))) (F32.of_Z 0)
                      (4 - 2) 4 scenario_params.
Proof.
  assert (H1 : 0 <= 2 <= 4) by lia.
  assert (H2 : 4 < 2 ^ 64) by lia.
  assert (H3 : F32.sub (F32.of_Z 0) (F32.sub (F32.of_Z 0) (F32.of_Z (-2)))
               = F32.of_Z (-2)) by reflexivity.
  split; [exact H1 | split; [exact H2 | split; [exact H3 |]]].
  exact (proj1 (gain_func_exchange scenario_params 2 4 H1 H2) _ _ H3).
Defined.

(** ** The binary32 encoding *)

Lemma digits2_pos_bounds (m : positive) :
  2 ^ (Zpos (digits2_pos m) - 1) <= Zpos m < 2 ^ Zpos (digits2_pos m).
Proof.
  induction m as [p IH | p IH |]; simpl digits2_pos.
  - rewrite Pos2Z.inj_succ.
    replace (Z.succ (Z.pos (digits2_pos p)) - 1)
      with (Z.succ (Z.pos (digits2_pos p) - 1)) by lia.
    rewrite !Z.pow_succ_r by lia. lia.
  - rewrite Pos2Z.inj_succ.
    replace (Z.succ (Z.pos (digits2_pos p)) - 1)
      with (Z.succ (Z.pos (digits2_pos p) - 1)) by lia.
    rewrite !Z.pow_succ_r by lia. lia.
  - simpl. lia.
Qed.

(** A valid binary32 number is normal, with a 24-bit mantissa, or
    subnormal, with the least exponent and a shorter mantissa. *)
Lemma F32_valid_finite (s : bool) (m : positive) (e : Z) :
  F32.valid (S754_finite s m e) = true →
  (2 ^ 23 <= Zpos m < 2 ^ 24 ∧ -149 <= e <= 104)
  ∨ (Zpos m < 2 ^ 23 ∧ e = -149).
Proof.
  unfold F32.valid, valid_binary, bounded, canonical_mantissa, fexp, emin,
    F32.prec, F32.emax.
  rewrite andb_true_iff, Z.eqb_eq, Z.leb_le. intros [Hc He].
  pose proof (digits2_pos_bounds m) as Hd.
  set (d := Zpos (digits2_pos m)) in *.
  assert (Hd0 : 0 < d) by (subst d; lia).
  destruct (Z.max_spec (d + e - 24) (3 - 128 - 24)) as [[Hlt Hm] | [Hge Hm]];
    rewrite Hm in Hc.
  - right. split; [|lia].
    assert (d <= 23) by lia.
    assert (2 ^ d <= 2 ^ 23) by (apply Z.pow_le_mono_r; lia). lia.
  - left. assert (d = 24) by lia. subst d.
    replace (Z.pos (digits2_pos m)) with 24 in Hd by lia.
    simpl in Hd. lia.
Qed.

Lemma bits_of_float_range (x : float) :
  F32.valid x = true → 0 <= bits_of_float x < 2 ^ 32.
Proof.
  destruct x as [s | s | | s m e]; unfold bits_of_float.
  - intros _. destruct s; lia.
  - intros _. destruct s; lia.
  - intros _. lia.
  - intros Hv. apply F32_valid_finite in Hv.
    destruct (Z.ltb_spec (Zpos m) (2 ^ 23)); destruct s; lia.
Qed.

Lemma float_of_bits_fields (S E F : Z) :
  (S = 0 ∨ S = 2 ^ 31) → 0 <= E < 2 ^ 8 → 0 <= F < 2 ^ 23 →
  let b := S + E * 2 ^ 23 + F in
  Z.testbit b 31 = Z.eqb S (2 ^ 31)
  ∧ Z.land (Z.shiftr b 23) (Z.ones 8) = E
  ∧ Z.land b (Z.ones 23) = F.
Proof.
  intros HS HE HF b. subst b.
  rewrite Z.testbit_odd, !Z.shiftr_div_pow2, !Z.land_ones by lia.
  change (2 ^ 31) with 2147483648 in *. change (2 ^ 23) with 8388608 in *.
  change (2 ^ 8) with 256 in *.
  repeat split.
  - destruct HS as [-> | ->]; simpl Z.eqb.
    + replace ((0 + E * 8388608 + F) / 2147483648) with 0; [reflexivity|].
      symmetry. apply Z.div_small. lia.
    + replace ((2147483648 + E * 8388608 + F) / 2147483648) with 1;
        [reflexivity|].
      apply Z.div_unique with (r := E * 8388608 + F); lia.
  - destruct HS as [-> | ->].
    + replace ((0 + E * 8388608 + F) / 8388608) with E.
      * apply Z.mod_small; lia.
      * apply Z.div_unique with (r := F); lia.
    + replace ((2147483648 + E * 8388608 + F) / 8388608) with (256 + E).
      * replace (256 + E) with (E + 1 * 256) by lia.
        rewrite Z.mod_add by lia. apply Z.mod_small; lia.
      * apply Z.div_unique with (r := F); lia.
  - destruct HS as [-> | ->].
    + replace (0 + E * 8388608 + F) with (F + E * 8388608) by lia.
      rewrite Z.mod_add by lia. apply Z.mod_small; lia.
    + replace (2147483648 + E * 8388608 + F) with (F + (256 + E) * 8388608)
        by lia.
      rewrite Z.mod_add by lia. apply Z.mod_small; lia.
Qed.

(** Reading back the encoding of a binary32 number gives the number. *)
Lemma float_of_bits_of_float (x : float) :
  F32.valid x = true → float_of_bits (bits_of_float x) = x.
Proof.
  destruct x as [s | s | | s m e]; intros Hv.
  - destruct s; reflexivity.
  - destruct s; reflexivity.
  - reflexivity.
  - apply F32_valid_finite in Hv. unfold bits_of_float, float_of_bits.
    destruct (Z.ltb_spec (Zpos m) (2 ^ 23)) as [Hsub | Hnorm].
    + destruct Hv as [Hv | [_ ->]]; [lia|].
      destruct (float_of_bits_fields (if s then 2 ^ 31 else 0) 0 (Zpos m))
        as (Hs & He & Hf); [destruct s; auto | lia | lia |].
      replace ((if s then 2 ^ 31 else 0) + Z.pos m)
        with ((if s then 2 ^ 31 else 0) + 0 * 2 ^ 23 + Z.pos m) by lia.
      rewrite Hs, He, Hf. simpl.
      destruct s; reflexivity.
    + destruct Hv as [[Hm He] | Hv]; [|lia].
      destruct (float_of_bits_fields (if s then 2 ^ 31 else 0) (e + 150)
                  (Zpos m - 2 ^ 23)) as (Hs & HE & Hf);
        [destruct s; auto | lia | lia |].
      rewrite Z.add_assoc.
      rewrite Hs, HE, Hf.
      destruct (Z.eqb_spec (e + 150) 0); [lia|].
      destruct (Z.eqb_spec (e + 150) 255); [lia|].
      replace (Z.pos m - 2 ^ 23 + 2 ^ 23) with (Zpos m) by lia.
      replace (e + 150 - 150) with e by lia.
      destruct s; reflexivity.
Qed.

(** ** The order of floats *)

Lemma SFcompare_refl (x : spec_float) :
  x ≠ S754_nan → SFcompare x x = Some Eq.
Proof.
  destruct x as [s | s | | s m e]; intros Hx; simpl; try congruence.
  - destruct s; reflexivity.
  - rewrite Z.compare_refl, Pos.compare_cont_refl. destruct s; reflexivity.
Qed.

Lemma SFltb_irrefl (x : spec_float) : SFltb x x = false.
Proof.
  unfold SFltb. destruct x as [s | s | | s m e]; simpl; try reflexivity.
  - destruct s; reflexivity.
  - rewrite Z.compare_refl, Pos.compare_cont_refl. destruct s; reflexivity.
Qed.

Lemma SFltb_not_nan (x y : spec_float) :
  SFltb x y = true → x ≠ S754_nan ∧ y ≠ S754_nan.
Proof.
  unfold SFltb. destruct x, y; simpl; intros H; split; congruence.
Qed.

Ltac compare_cases :=
  repeat match goal with
    | |- context [Z.compare ?a ?b] => destruct (Z.compare_spec a b)
    | |- context [Pos.compare_cont Eq ?a ?b] =>
        change (Pos.compare_cont Eq a b) with (Pos.compare a b);
        destruct (Pos.compare_spec a b)
    end.

Lemma SFltb_trans (x y z : spec_float) :
  SFltb x y = true → SFltb y z = true → SFltb x z = true.
Proof.
  unfold SFltb.
  destruct x as [sx | sx | | sx mx ex], y as [sy | sy | | sy my ey],
    z as [sz | sz | | sz mz ez]; simpl;
    try discriminate; try (destruct sx, sy, sz; simpl; congruence).
  destruct sx, sy, sz; simpl; try congruence;
    compare_cases; simpl; intros ? ?; try congruence; try lia.
Qed.

(** Two numbers neither of which is below the other compare equal. *)
Lemma SFltb_antisym (x y : spec_float) :
  x ≠ S754_nan → y ≠ S754_nan →
  SFltb x y = false → SFltb y x = false → SFeqb x y = true.
Proof.
  unfold SFltb, SFeqb.
  destruct x as [sx | sx | | sx mx ex], y as [sy | sy | | sy my ey]; simpl;
    try congruence; try (destruct sx, sy; simpl; congruence);
    try (destruct sx; simpl; congruence); try (destruct sy; simpl; congruence).
  destruct sx, sy; simpl; try congruence;
    compare_cases; simpl; intros _ _ ? ?; try congruence; try lia.
Qed.

(** A value that is not below [x] stays not below it when it grows. *)
Lemma SFltb_grows (c c' x : spec_float) :
  SFltb c x = false → SFltb c c' = true → SFltb c' x = false.
Proof.
  intros Hx Hc. destruct (SFltb c' x) eqn:E; [|reflexivity].
  rewrite (SFltb_trans _ _ _ Hc E) in Hx. discriminate.
Qed.

(** ** AtomicMaxWithIndex *)

Lemma ints0_of_words (lo hi : Z) :
  0 <= lo < 2 ^ 32 → ints0 (my_atomics_of_words lo hi) = lo.
Proof.
  intros Hlo. unfold ints0, my_atomics_of_words.
  rewrite Z.land_ones, Z.shiftl_mul_pow2 by lia.
  rewrite Z.add_comm, Z.mod_add by lia. apply Z.mod_small. lia.
Qed.

Lemma ints1_of_words (lo hi : Z) :
  0 <= lo < 2 ^ 32 → ints1 (my_atomics_of_words lo hi) = hi.
Proof.
  intros Hlo. unfold ints1, my_atomics_of_words.
  rewrite Z.shiftr_div_pow2, Z.shiftl_mul_pow2 by lia.
  symmetry. apply Z.div_unique with (r := lo); lia.
Qed.

Lemma floats0_of_words (g : float) (i : Z) :
  F32.valid g = true →
  floats0 (my_atomics_of_words (bits_of_float g) i) = g.
Proof.
  intros Hv. unfold floats0.
  rewrite ints0_of_words by (apply bits_of_float_range, Hv).
  apply float_of_bits_of_float, Hv.
Qed.

Lemma updateAtomicMax_while_unfold (fuel : nat) (cell loctest loc : my_atomics)
    (val1 : float) :
  updateAtomicMax_while fuel cell loctest loc val1
  = if F32.ltb (floats0 loctest) val1 then
      match fuel with
      | O => None
      | S fuel' =>
          updateAtomicMax_while fuel' (atomicCAS cell loctest loc).1
            (atomicCAS cell loctest loc).2 loc val1
      end
    else Some (cell, loctest).
Proof.
  destruct fuel as [| fuel']; [reflexivity|].
  cbn [updateAtomicMax_while].
  destruct (atomicCAS cell loctest loc) as [cell' old]. reflexivity.
Qed.

(** A lone thread leaves the loop after its second compare-and-swap at
    the latest, whatever fuel is left. *)
Lemma updateAtomicMax_while_lone (fuel : nat) (cell : my_atomics) (g : float)
    (i : Z) :
  F32.valid g = true →
  updateAtomicMax_while (S (S fuel)) cell cell
                        (my_atomics_of_words (bits_of_float g) i) g
  = Some (if F32.ltb (floats0 cell) g
          then (my_atomics_of_words (bits_of_float g) i,
                my_atomics_of_words (bits_of_float g) i)
          else (cell, cell)).
Proof.
  intros Hv.
  set (loc := my_atomics_of_words (bits_of_float g) i).
  assert (Hloc : F32.ltb (floats0 loc) g = false).
  { subst loc. rewrite floats0_of_words by exact Hv. apply SFltb_irrefl. }
  rewrite updateAtomicMax_while_unfold.
  destruct (F32.ltb (floats0 cell) g) eqn:Hlt; [|reflexivity].
  unfold atomicCAS at 1 2. rewrite Z.eqb_refl. cbn [fst snd].
  rewrite updateAtomicMax_while_unfold, Hlt.
  assert (Hcas : atomicCAS loc cell loc = (loc, loc)).
  { unfold atomicCAS. destruct (loc =? cell); reflexivity. }
  rewrite Hcas. cbn [fst snd].
  rewrite updateAtomicMax_while_unfold, Hloc. reflexivity.
Qed.

(** What one call does to the cell: it stores the candidate when the
    candidate is above the stored gain and leaves the cell alone
    otherwise; the two rounds of the loop are enough. *)
Lemma updateAtomicMax_spec (cell : my_atomics) (g : float) (i : Z) :
  F32.valid g = true →
  updateAtomicMax cell g i
  = Some (if F32.ltb (floats0 cell) g
          then (my_atomics_of_words (bits_of_float g) i,
                my_atomics_of_words (bits_of_float g) i)
          else (cell, cell)).
Proof.
  intros Hv. unfold updateAtomicMax, cas_rounds.
  apply updateAtomicMax_while_lone, Hv.
Qed.

(** More fuel does not change the result of the loop. *)
Lemma updateAtomicMax_fuel (fuel : nat) (cell : my_atomics) (g : float) (i : Z) :
  F32.valid g = true →
  updateAtomicMax_while (cas_rounds + fuel) cell cell
                        (my_atomics_of_words (bits_of_float g) i) g
  = updateAtomicMax cell g i.
Proof.
  intros Hv. rewrite updateAtomicMax_spec by exact Hv.
  apply updateAtomicMax_while_lone, Hv.
Qed.

Lemma floats0_zero : floats0 0 = F32.zero.
Proof. reflexivity. Qed.

Lemma updateAtomicMax_all_inv (updates : list (float * Z)) :
  ∀ cell : my_atomics,
    (∀ g i, (g, i) ∈ updates → F32.valid g = true) →
    ∃ cell' : my_atomics,
      updateAtomicMax_all cell updates = Some cell'
      ∧ (cell' = cell
         ∨ ∃ (k : nat) (g : float) (i : Z),
             updates !! k = Some (g, i)
             ∧ cell' = my_atomics_of_words (bits_of_float g) i
             ∧ g ≠ S754_nan)
      ∧ (∀ g i, (g, i) ∈ updates → F32.ltb (floats0 cell') g = false)
      ∧ (cell' = cell ∨ F32.ltb (floats0 cell) (floats0 cell') = true).
Proof.
  induction updates as [| [g i] rest IH]; intros cell Hv.
  - exists cell. cbn [updateAtomicMax_all]. repeat split; auto.
    intros g i Hin. apply elem_of_nil in Hin. destruct Hin.
  - assert (Hg : F32.valid g = true) by (apply (Hv g i); left).
    cbn [updateAtomicMax_all]. rewrite updateAtomicMax_spec by exact Hg.
    cbn [mbind option_bind].
    set (cell1 := (if F32.ltb (floats0 cell) g
                   then (my_atomics_of_words (bits_of_float g) i,
                         my_atomics_of_words (bits_of_float g) i)
                   else (cell, cell)).1).
    destruct (IH cell1) as (cell' & Hrun & Hwho & Hmax & Hgrow).
    { intros g' i' Hin. apply (Hv g' i'). right. exact Hin. }
    assert (Hstep : (cell1 = cell ∧ F32.ltb (floats0 cell) g = false)
                    ∨ (cell1 = my_atomics_of_words (bits_of_float g) i
                       ∧ F32.ltb (floats0 cell) g = true)).
    { subst cell1. destruct (F32.ltb (floats0 cell) g); cbn [fst]; auto. }
    assert (Hhead : F32.ltb (floats0 cell1) g = false).
    { destruct Hstep as [[-> Hlt] | [-> Hlt]]; [exact Hlt|].
      rewrite floats0_of_words by exact Hg. apply SFltb_irrefl. }
    exists cell'. split; [exact Hrun|]. split; [|split].
    + destruct Hwho as [-> | (k & g' & i' & Hk & Hc & Hn)].
      * destruct Hstep as [[-> _] | [-> Hlt]]; [left; reflexivity|].
        right. exists 0%nat, g, i. repeat split.
        apply SFltb_not_nan in Hlt. tauto.
      * right. exists (S k), g', i'. auto.
    + intros g' i' Hin. apply elem_of_cons in Hin.
      destruct Hin as [Heq | Hin]; [|apply (Hmax g' i' Hin)].
      injection Heq as -> ->.
      destruct Hgrow as [-> | Hlt]; [exact Hhead|].
      apply (SFltb_grows _ _ _ Hhead Hlt).
    + destruct Hstep as [[Hc1 _] | [Hc1 Hlt]].
      * rewrite Hc1 in Hgrow. exact Hgrow.
      * assert (Hf : floats0 cell1 = g).
        { rewrite Hc1. apply floats0_of_words, Hg. }
        right. destruct Hgrow as [-> | Hlt'].
        -- rewrite Hf. exact Hlt.
        -- rewrite Hf in Hlt'. apply (SFltb_trans _ _ _ Hlt Hlt').
Qed.

(** C5, counterexample. One update with the gain -1 leaves the
    zero-initialised cell as it is: the cell holds the gain 0 and the index
    0, not the largest gain of the sequence and its index 7. *)
Lemma updateAtomicMax_negative_counterexample :
  distinct_gains [(F32.of_Z (-1), 7)]
  ∧ largest_gain [(F32.of_Z (-1), 7)] (F32.of_Z (-1))
  ∧ updateAtomicMax_all 0 [(F32.of_Z (-1), 7)] = Some 0
  ∧ 0 ≠ my_atomics_of_words (bits_of_float (F32.of_Z (-1))) 7.
Proof.
  split; [|split; [|split]].
  - intros j k g1 g2 i1 i2 Hjk Hj Hk.
    destruct j, k; try congruence; simpl in *; discriminate.
  - intros g' i' Hin. apply list_elem_of_singleton in Hin.
    injection Hin as -> ->. reflexivity.
  - reflexivity.
  - vm_compute. discriminate.
Qed.

(** C5, amended. One call replaces the cell by the candidate gain and
    index exactly when the candidate gain is above the stored one. After a
    sequence of updates with distinct gains applied to the zero-initialised
    cell, the cell holds the largest gain of the sequence and its index,
    provided that gain is positive. *)
Theorem updateAtomicMax_max :
  (∀ (cell : my_atomics) (g : float) (i : Z),
      F32.valid g = true →
      ∃ r, updateAtomicMax cell g i = Some r
           ∧ (F32.ltb (floats0 cell) g = true →
              r.1 = my_atomics_of_words (bits_of_float g) i)
           ∧ (F32.ltb (floats0 cell) g = false → r.1 = cell))
  ∧ (∀ (updates : list (float * Z)) (g : float) (i : Z),
      (∀ g' i', (g', i') ∈ updates → F32.valid g' = true) →
      distinct_gains updates →
      (g, i) ∈ updates →
      largest_gain updates g →
      F32.ltb F32.zero g = true →
      updateAtomicMax_all 0 updates
      = Some (my_atomics_of_words (bits_of_float g) i)).
Proof.
  split.
  - intros cell g i Hv. rewrite updateAtomicMax_spec by exact Hv.
    eexists. split; [reflexivity|].
    destruct (F32.ltb (floats0 cell) g); split; intros; simpl; congruence.
  - intros updates g i Hv Hd Hin Hmax Hpos.
    destruct (updateAtomicMax_all_inv updates 0 Hv)
      as (cell' & Hrun & Hwho & Hall & _).
    rewrite Hrun. f_equal.
    pose proof (Hall g i Hin) as Hge.
    destruct Hwho as [-> | (k & g0 & i0 & Hk & -> & Hn0)].
    { rewrite floats0_zero in Hge. congruence. }
    assert (Hin0 : (g0, i0) ∈ updates) by (apply list_elem_of_lookup; eauto).
    rewrite floats0_of_words in Hge by (apply (Hv g0 i0 Hin0)).
    pose proof (Hmax g0 i0 Hin0) as Hle.
    assert (Hn : g ≠ S754_nan) by (apply SFltb_not_nan in Hpos; tauto).
    pose proof (SFltb_antisym g g0 Hn Hn0 Hle Hge) as Heq.
    apply list_elem_of_lookup in Hin. destruct Hin as [j Hj].
    destruct (Nat.eq_dec j k) as [-> | Hjk].
    + rewrite Hj in Hk. injection Hk as -> ->. reflexivity.
    + pose proof (Hd j k g g0 i i0 Hjk Hj Hk) as Hne. unfold F32.eqb in Hne.
      congruence.
Qed.

Lemma updateAtomicMax_max_witness :
  (F32.of_Z 2, 5) ∈ [(F32.of_Z 1, 3); (F32.of_Z 2, 5)]
  ∧ F32.ltb F32.zero (F32.of_Z 2) = true
  ∧ updateAtomicMax_all 0 [(F32.of_Z 1, 3); (F32.of_Z 2, 5)]
    = Some (my_atomics_of_words (bits_of_float (F32.of_Z 2)) 5).
Proof.
  assert (Hin : (F32.of_Z 2, 5) ∈ [(F32.of_Z 1, 3); (F32.of_Z 2, 5)]).
  { right. left. }
  split; [exact Hin | split; [reflexivity |]].
  apply (proj2 updateAtomicMax_max).
  - intros g' i' H. apply elem_of_cons in H.
    destruct H as [H | H]; [injection H as -> ->; reflexivity|].
    apply list_elem_of_singleton in H. injection H as -> ->. reflexivity.
  - intros j k g1 g2 i1 i2 Hjk Hj Hk.
    destruct j as [| [| j]], k as [| [| k]]; simpl in Hj, Hk;
      try congruence; try discriminate;
      injection Hj as <- <-; injection Hk as <- <-; reflexivity.
  - exact Hin.
  - intros g' i' H. apply elem_of_cons in H.
    destruct H as [H | H]; [injection H as -> ->; reflexivity|].
    apply list_elem_of_singleton in H. injection H as -> ->. reflexivity.
  - reflexivity.
Defined.

(** ** Loops *)

(** Reduction of the binds and tests of the option monad only. *)
Ltac monad_simpl := cbn [mbind option_bind negb fst snd].

(** Two reads of the same place give the same value. *)
Ltac same_read H1 H2 :=
  rewrite H1 in H2; injection H2 as <-.

Lemma for_loop_invariant {St : Type} (body : nat → St → option St)
    (P : St → Prop) (n : nat) :
  ∀ (start : nat) (s s' : St),
    (∀ i t t', start <= i < start + n → P t → body i t = Some t' → P t')%nat →
    P s → for_loop body start n s = Some s' → P s'.
Proof.
  induction n as [| n IH]; intros start s s' Hbody Hs Hrun; simpl in Hrun.
  - injection Hrun as <-. exact Hs.
  - destruct (body start s) as [s1|] eqn:E; simpl in Hrun; [|discriminate].
    apply (IH (S start) s1 s'); [| |exact Hrun].
    + intros i t t' Hi. apply Hbody. lia.
    + apply (Hbody start s s1); [lia | exact Hs | exact E].
Qed.

Lemma for_loop_split {St : Type} (body : nat → St → option St) (n m : nat) :
  ∀ (start : nat) (s : St),
    for_loop body start (n + m) s
    = s1 ← for_loop body start n s; for_loop body (start + n) m s1.
Proof.
  induction n as [| n IH]; intros start s; simpl.
  - rewrite Nat.add_0_r. reflexivity.
  - destruct (body start s) as [s1|]; simpl; [|reflexivity].
    rewrite IH. replace (S start + n)%nat with (start + S n)%nat by lia.
    reflexivity.
Qed.

(** ** Gather kernels *)

Section GatherProperties.
Context {T : Type}.
Implicit Types (position : list Z) (out : list T).

Lemma set_index_Some (l l' : list T) (i : Z) (x : T) :
  set_index l i x = Some l' →
  0 <= i ∧ (Z.to_nat i < length l)%nat ∧ l' = <[Z.to_nat i := x]> l.
Proof.
  unfold set_index.
  destruct (Z.leb_spec 0 i), (Z.ltb_spec i (Z.of_nat (length l)));
    simpl; intros Heq; try discriminate.
  injection Heq as <-. repeat split; lia.
Qed.

Lemma at_index_Some (l : list T) (i : Z) (x : T) :
  at_index l i = Some x → 0 <= i ∧ l !! Z.to_nat i = Some x.
Proof.
  unfold at_index. destruct (Z.ltb_spec i 0); [discriminate|].
  intros Heq. split; [lia | exact Heq].
Qed.

(** What thread [i] of [gather] does: it copies one cell of [in_] to the
    cell of [out] with the same index. *)
Lemma gather_thread_Some position in_ (i : nat) out out1 :
  gather_thread position in_ i out = Some out1 →
  ∃ (p : Z) (x : T),
    position !! i = Some p ∧ 0 <= p ∧ in_ !! Z.to_nat p = Some x
    ∧ (Z.to_nat p < length out)%nat ∧ out1 = <[Z.to_nat p := x]> out.
Proof.
  unfold gather_thread.
  destruct (position !! i) as [p|]; simpl; [|discriminate].
  destruct (at_index in_ p) as [x|] eqn:Hx; simpl; [|discriminate].
  intros Hset. apply at_index_Some in Hx. apply set_index_Some in Hset.
  exists p, x. tauto.
Qed.

(** A cell of [out] that already agrees with [in_] keeps its value. *)
Lemma gather_keeps_agreement position in_ (n : nat) (k : nat) (x : T) :
  ∀ (start : nat) out out',
    for_loop (gather_thread position in_) start n out = Some out' →
    in_ !! k = Some x → out !! k = Some x → out' !! k = Some x.
Proof.
  intros start out out' Hrun Hin Hout.
  apply (for_loop_invariant (gather_thread position in_)
           (λ o, o !! k = Some x) n start out out'); [|exact Hout|exact Hrun].
  intros i t t' _ Ht Hstep. apply gather_thread_Some in Hstep.
  destruct Hstep as (p & y & _ & _ & Hy & Hlen & ->).
  destruct (Nat.eq_dec (Z.to_nat p) k) as [<- | Hne].
  - rewrite list_lookup_insert_eq by exact Hlen. congruence.
  - rewrite list_lookup_insert_ne by exact Hne. exact Ht.
Qed.

(** After [gather], the cell of the output named by [position[i]] holds
    the cell of the input with the same index: nothing has moved. *)
Lemma gather_in_place position in_ (n : nat) :
  ∀ (start : nat) out out' (i : nat) (p : Z),
    for_loop (gather_thread position in_) start n out = Some out' →
    (start <= i < start + n)%nat → position !! i = Some p →
    is_Some (in_ !! Z.to_nat p)
    ∧ out' !! Z.to_nat p = in_ !! Z.to_nat p.
Proof.
  induction n as [| n IH]; intros start out out' i p Hrun Hi Hp; [lia|].
  simpl in Hrun.
  destruct (gather_thread position in_ start out) as [out1|] eqn:E;
    simpl in Hrun; [|discriminate].
  destruct (Nat.eq_dec i start) as [-> | Hne].
  - apply gather_thread_Some in E.
    destruct E as (p' & x & Hp' & _ & Hx & Hlen & ->).
    assert (p' = p) by congruence. subst p'.
    split; [eauto|]. rewrite Hx.
    apply (gather_keeps_agreement position in_ n _ x (S start) _ _ Hrun Hx).
    apply list_lookup_insert_eq, Hlen.
  - apply (IH (S start) out1 out' i p Hrun); [lia | exact Hp].
Qed.

Lemma gather_length position in_ (n : nat) :
  ∀ (start : nat) out out',
    for_loop (gather_thread position in_) start n out = Some out' →
    length out' = length out.
Proof.
  intros start out out' Hrun.
  apply (for_loop_invariant (gather_thread position in_)
           (λ o, length o = length out) n start out out');
    [|reflexivity|exact Hrun].
  intros i t t' _ Ht Hstep. apply gather_thread_Some in Hstep.
  destruct Hstep as (p & y & _ & _ & _ & _ & ->).
  rewrite length_insert. exact Ht.
Qed.

(** The dense path: when [position] names every row, [gather] copies its
    input unchanged, whatever the order of [position]. *)
Lemma gather_dense_identity position in_ out out' :
  length out = length in_ →
  (∀ k : nat, (k < length in_)%nat →
     ∃ i : nat, (i < length in_)%nat ∧ position !! i = Some (Z.of_nat k)) →
  gather position in_ out (length in_) = Some out' →
  out' = in_.
Proof.
  intros Hlen Honto Hrun. unfold gather in Hrun.
  apply list_eq. intros k.
  destruct (Nat.lt_ge_cases k (length in_)) as [Hk | Hk].
  - destruct (Honto k Hk) as (i & Hi & Hp).
    destruct (gather_in_place position in_ _ _ _ _ i _ Hrun ltac:(lia) Hp)
      as [_ Heq].
    rewrite Nat2Z.id in Heq. exact Heq.
  - rewrite !lookup_ge_None_2; [reflexivity | lia |].
    rewrite (gather_length _ _ _ _ _ _ Hrun). lia.
Qed.
End GatherProperties.

(** C1. With the gradients [1, 2] and the sorted positions [1, 0], the
    kernel [gather] leaves [1, 2] in [grad_sorted], where
    [grad_sorted[i] = grad[positions_sorted[i]]] asks for [2, 1], the
    result of the sibling kernel [gather_kernel_simple]. *)
Theorem gather_not_permuted :
  let grad := [F32.of_Z 1; F32.of_Z 2] in
  let positions_sorted := [1; 0] in
  let grad_sorted := [F32.zero; F32.zero] in
  gather positions_sorted grad grad_sorted 2 = Some [F32.of_Z 1; F32.of_Z 2]
  ∧ gather_kernel_simple positions_sorted grad grad_sorted 2
    = Some [F32.of_Z 2; F32.of_Z 1]
  ∧ ¬ (∀ out, gather positions_sorted grad grad_sorted 2 = Some out →
         ∀ (i : nat) (p : Z), positions_sorted !! i = Some p →
           out !! i = at_index grad p).
Proof.
  repeat split.
  intros Hclaim.
  specialize (Hclaim _ eq_refl 0%nat 1 eq_refl). vm_compute in Hclaim.
  discriminate.
Qed.

(** ** The gain kernel *)

Lemma gain_func_float_no_left_rows (G_L G_t : float) (N_t : Z)
    (params : GainFunctionParameters) :
  1 <= min_leaf_size params → gain_func_float G_L G_t 0 N_t params = F32.zero.
Proof.
  intros Hmin. unfold gain_func_float. cbv zeta.
  destruct (Z.leb_spec (min_leaf_size params) 0); [lia | reflexivity].
Qed.

Lemma gain_func_double_no_left_rows (G_L G_t : double) (N_t : Z)
    (params : GainFunctionParameters) :
  1 <= min_leaf_size params → gain_func_double G_L G_t 0 N_t params = F32.zero.
Proof.
  intros Hmin. unfold gain_func_double. cbv zeta.
  destruct (Z.leb_spec (min_leaf_size params) 0); [lia | reflexivity].
Qed.

Lemma gain_func_float2_no_left_rows (G_L G_t : float2) (N_t : Z)
    (params : GainFunctionParameters) :
  1 <= min_leaf_size params → gain_func_float2 G_L G_t 0 N_t params = F32.zero.
Proof.
  intros Hmin. unfold gain_func_float2. cbv zeta.
  destruct (Z.leb_spec (min_leaf_size params) 0); [lia | reflexivity].
Qed.

Lemma gain_func_double2_no_left_rows (G_L G_t : double2) (N_t : Z)
    (params : GainFunctionParameters) :
  1 <= min_leaf_size params → gain_func_double2 G_L G_t 0 N_t params = F32.zero.
Proof.
  intros Hmin. unfold gain_func_double2. cbv zeta.
  destruct (Z.leb_spec (min_leaf_size params) 0); [lia | reflexivity].
Qed.

Lemma F32_neb_neg_infinity (v : float) :
  F32.neb v F32.neg_infinity = true ↔ v ≠ F32.neg_infinity.
Proof.
  unfold F32.neb, F32.neg_infinity, SFeqb.
  destruct v as [s | s | | s m e]; simpl; try (split; congruence);
    destruct s; simpl; split; congruence.
Qed.

(** C2, counterexample. A leaf of two rows with feature values 1 and 2
    behind the sentinel: at sort position 0 the test [fvalue != fvalue_prev]
    compares 1 with the sentinel and passes, and the thread goes on to
    evaluate [gain_func] (which returns 0 for the empty left side). *)
Lemma gain_kernel_sentinel_counterexample :
  let fvalues := [F32.neg_infinity; F32.of_Z 1; F32.of_Z 2] in
  let left_sum := [F32.zero; F32.of_Z (-1)] in
  let parent_sum_iter := [F32.zero; F32.zero] in
  let parent_count_iter := [0; 2] in
  gain_kernel_test fvalues 0 = Some true
  ∧ gain_kernel_gain (H := SumType_float) left_sum [0; 0] parent_sum_iter
      parent_count_iter scenario_params 0
    = Some (0, gain_func_float F32.zero F32.zero 0 2 scenario_params)
  ∧ gain_kernel_thread (H := SumType_float) left_sum fvalues [0; 0]
      parent_sum_iter parent_count_iter scenario_params 0 [0]
    = gain_kernel_record 0 0
        (gain_func_float F32.zero F32.zero 0 2 scenario_params) [0].
Proof. repeat split. Qed.

Section GainKernelProperties.
Context {sum_type : Type} `{SumType sum_type}.
Variable left_sum : list sum_type.
Variable fvalues : list float.
Variable segments : list Z.
Variable parent_sum_iter : list sum_type.
Variable parent_count_iter : list Z.
Variable parameters : GainFunctionParameters.

#[local] Abbreviation thread :=
  (gain_kernel_thread left_sum fvalues segments parent_sum_iter
     parent_count_iter parameters).
#[local] Abbreviation gain_at :=
  (gain_kernel_gain left_sum segments parent_sum_iter parent_count_iter
     parameters).

(** A thread whose two feature values compare equal writes nothing. *)
Lemma gain_kernel_skips_equal (i : nat) (a b : float) (res : list my_atomics) :
  fvalues !! S i = Some a → fvalues !! i = Some b → F32.eqb a b = true →
  thread i res = Some res.
Proof.
  intros Ha Hb Heq. unfold gain_kernel_thread, gain_kernel_test.
  rewrite Ha, Hb. simpl. unfold F32.neb. unfold F32.eqb in Heq.
  rewrite Heq. reflexivity.
Qed.

(** A thread that changes the result array has seen two values that do
    not compare equal. *)
Lemma gain_kernel_writes_unequal (i : nat) (res res' : list my_atomics) :
  thread i res = Some res' → res' ≠ res →
  ∃ a b, fvalues !! S i = Some a ∧ fvalues !! i = Some b
         ∧ F32.eqb a b = false.
Proof.
  unfold gain_kernel_thread, gain_kernel_test.
  destruct (fvalues !! S i) as [a|]; simpl; [|discriminate].
  destruct (fvalues !! i) as [b|]; simpl; [|discriminate].
  unfold F32.neb. destruct (SFeqb a b) eqn:E; simpl.
  - intros [= <-] Hne. congruence.
  - intros _ _. exists a, b. auto.
Qed.

(** Behind the sentinel the test at position 0 passes unless the first
    sorted value is the sentinel itself. *)
Lemma gain_kernel_sentinel_passes (v : float) :
  fvalues !! 0%nat = Some F32.neg_infinity → fvalues !! 1%nat = Some v →
  v ≠ F32.neg_infinity →
  gain_kernel_test fvalues 0 = Some true.
Proof.
  intros H0 H1 Hv. unfold gain_kernel_test. rewrite H0, H1. simpl.
  f_equal. apply F32_neb_neg_infinity, Hv.
Qed.

(** A gain that is not above 0 is not recorded. *)
Lemma gain_kernel_record_nonpositive (i : nat) (segment : Z) (gain : float)
    (res : list my_atomics) :
  F32.ltb F32.zero gain = false →
  gain_kernel_record i segment gain res = Some res.
Proof. intros Hg. unfold gain_kernel_record. rewrite Hg. reflexivity. Qed.

(** C2, amended. A thread of the gain kernel evaluates a split, and can
    write a result, only when [fvalue[i+1]] and [fvalue[i]] do not compare
    equal. The sentinel at [fvalue[0]] does not make position 0 fail that
    test: whenever [fvalue[1]] is not the sentinel value itself the test
    passes and the thread evaluates [gain_func]; the gain is recorded
    only if it is above 0. *)
Theorem gain_kernel_sentinel :
  (∀ (i : nat) (a b : float) (res : list my_atomics),
      fvalues !! S i = Some a → fvalues !! i = Some b →
      F32.eqb a b = true → thread i res = Some res)
  ∧ (∀ (i : nat) (res res' : list my_atomics),
      thread i res = Some res' → res' ≠ res →
      ∃ a b, fvalues !! S i = Some a ∧ fvalues !! i = Some b
             ∧ F32.eqb a b = false)
  ∧ (∀ (v : float) (res : list my_atomics),
      fvalues !! 0%nat = Some F32.neg_infinity → fvalues !! 1%nat = Some v →
      v ≠ F32.neg_infinity →
      gain_kernel_test fvalues 0 = Some true
      ∧ thread 0 res = (sg ← gain_at 0; gain_kernel_record 0 sg.1 sg.2 res))
  ∧ (∀ (i : nat) (segment : Z) (gain : float) (res : list my_atomics),
      F32.ltb F32.zero gain = false →
      gain_kernel_record i segment gain res = Some res).
Proof.
  split; [exact gain_kernel_skips_equal|].
  split; [exact gain_kernel_writes_unequal|].
  split; [|exact gain_kernel_record_nonpositive].
  intros v res H0 H1 Hv.
  pose proof (gain_kernel_sentinel_passes v H0 H1 Hv) as Ht.
  split; [exact Ht|].
  unfold gain_kernel_thread. rewrite Ht. reflexivity.
Qed.
End GainKernelProperties.

Lemma gain_kernel_sentinel_witness :
  let fvalues := [F32.neg_infinity; F32.of_Z 1; F32.of_Z 2] in
  F32.of_Z 1 ≠ F32.neg_infinity
  ∧ gain_kernel_test fvalues 0 = Some true
  ∧ gain_kernel_thread (H := SumType_float) [F32.zero; F32.of_Z (-1)] fvalues
      [0; 0] [F32.zero; F32.zero] [0; 2] scenario_params 0 [0]
    = Some [0].
Proof.
  assert (Hv : F32.of_Z 1 ≠ F32.neg_infinity) by discriminate.
  split; [exact Hv|].
  destruct (proj1 (proj2 (proj2
              (gain_kernel_sentinel (H := SumType_float)
                 [F32.zero; F32.of_Z (-1)]
                 [F32.neg_infinity; F32.of_Z 1; F32.of_Z 2] [0; 0]
                 [F32.zero; F32.zero] [0; 2] scenario_params)))
              (F32.of_Z 1) [0] eq_refl eq_refl Hv) as [Ht Hthread].
  split; [exact Ht|].
  rewrite Hthread. reflexivity.
Defined.

(** A loop over the leaves whose iteration [j] touches only what belongs
    to leaf [j]: the state of leaf [i] after the loop is the one its own
    iteration produces from the initial state. *)
Lemma for_loop_pointwise {St : Type} (body : nat → St → option St)
    (R : nat → St → St → Prop) (i n : nat) (s s' : St) :
  Equivalence (R i) →
  (∀ j t t', j ≠ i → body j t = Some t' → R i t t') →
  (∀ t1 t2 t1', R i t1 t2 → body i t1 = Some t1' →
     ∃ t2', body i t2 = Some t2' ∧ R i t1' t2') →
  (i < n)%nat →
  for_loop body 0 n s = Some s' →
  ∃ si, body i s = Some si ∧ R i si s'.
Proof.
  intros HR Hframe Hcong Hi Hrun.
  replace n with (i + (1 + (n - i - 1)))%nat in Hrun by lia.
  rewrite for_loop_split in Hrun.
  destruct (for_loop body 0 i s) as [s1|] eqn:E1; simpl in Hrun; [|discriminate].
  destruct (body i s1) as [s2|] eqn:E2; simpl in Hrun; [|discriminate].
  assert (H1 : R i s s1).
  { apply (for_loop_invariant body (R i s) i 0 s s1); [|reflexivity|exact E1].
    intros j t t' Hj Ht Hstep. etransitivity; [exact Ht|].
    apply (Hframe j); [lia | exact Hstep]. }
  assert (H3 : R i s2 s').
  { apply (for_loop_invariant body (R i s2) (n - i - 1) (S i) s2 s');
      [|reflexivity|exact Hrun].
    intros j t t' Hj Ht Hstep. etransitivity; [exact Ht|].
    apply (Hframe j); [lia | exact Hstep]. }
  destruct (Hcong s1 s s2 (symmetry H1) E2) as (si & Hsi & H2).
  exists si. split; [exact Hsi|].
  etransitivity; [symmetry; exact H2 | exact H3].
Qed.

(** ** Level driver *)

#[export] Instance same_at_leaf_equivalence {sum_type : Type} (i : nat) :
  Equivalence (same_at_leaf (sum_type := sum_type) i).
Proof.
  unfold same_at_leaf. split.
  - intros b. repeat split; reflexivity.
  - intros b1 b2 (H1 & H2 & H3 & H4 & H5 & H6 & H7 & H8 & H9).
    repeat split; congruence.
  - intros b1 b2 b3 (H1 & H2 & H3 & H4 & H5 & H6 & H7 & H8 & H9)
      (K1 & K2 & K3 & K4 & K5 & K6 & K7 & K8 & K9).
    repeat split; congruence.
Qed.

Section LevelDriverProperties.
Context {sum_type : Type} `{SumType sum_type}.
Implicit Types (b : Builder sum_type).

Lemma same_at_leaf_set_other (i j : nat) b (x : Split.t sum_type) :
  j ≠ i → same_at_leaf i b (set_bestSplit b (<[j := x]> (_bestSplit b))).
Proof.
  intros Hne. unfold same_at_leaf. simpl.
  rewrite length_insert, list_lookup_insert_ne by exact Hne.
  repeat split; reflexivity.
Qed.

Lemma same_at_leaf_set_same (i : nat) b1 b2 (x : Split.t sum_type) :
  same_at_leaf i b1 b2 →
  same_at_leaf i (set_bestSplit b1 (<[i := x]> (_bestSplit b1)))
                 (set_bestSplit b2 (<[i := x]> (_bestSplit b2))).
Proof.
  intros (H1 & H2 & H3 & H4 & H5 & H6 & H7 & Hlen & Hbs).
  unfold same_at_leaf. simpl. rewrite !length_insert.
  repeat split; try assumption.
  destruct (_bestSplit b1 !! i) as [y|] eqn:E.
  - apply lookup_lt_Some in E.
    rewrite !list_lookup_insert_eq; [reflexivity | lia | lia].
  - apply lookup_ge_None in E.
    rewrite !list_insert_ge by lia. apply lookup_ge_None in E.
    congruence.
Qed.

Lemma GetBestSplitForDenceFeature_leaf_cases (active_fid : Z)
    (circular_fid i : nat) b b' :
  GetBestSplitForDenceFeature_leaf active_fid circular_fid i b = Some b' →
  dense_leaf_result active_fid circular_fid i b b'.
Proof.
  unfold GetBestSplitForDenceFeature_leaf.
  destruct (_nodeStat b !! i) as [node_stat|] eqn:Hns; monad_simpl; [|discriminate].
  destruct (Z.leb_spec (NodeStat.count node_stat) 0) as [Hc | Hc].
  { intros [= <-]. eapply dense_leaf_empty; eauto. }
  destruct (results_h b !! circular_fid) as [slot_results|] eqn:Hr; monad_simpl;
    [|discriminate].
  destruct (slot_results !! i) as [cell|] eqn:Hcell; monad_simpl; [|discriminate].
  destruct (_bestSplit b !! i) as [best|] eqn:Hbest; monad_simpl; [|discriminate].
  destruct (F32.ltb (Split.gain best) (floats0 cell)) eqn:Hlt.
  2: { intros [= <-]. eapply dense_leaf_not_better; eauto. }
  destruct (sum b !! circular_fid) as [slot_sum|] eqn:Hsum; monad_simpl;
    [|discriminate].
  destruct (at_index slot_sum (int_of_uint (ints1 cell))) as [s|] eqn:Hs;
    monad_simpl; [|discriminate].
  destruct (_isnan s) eqn:Hnan; monad_simpl.
  { intros [= <-]. eapply dense_leaf_nan; eauto. }
  destruct (fvalue b !! circular_fid) as [slot_fvalue|] eqn:Hfv; monad_simpl;
    [|discriminate].
  destruct (at_index slot_fvalue (int_of_uint (ints1 cell)))
    as [fvalue_prev_val|] eqn:Hfp; monad_simpl; [|discriminate].
  destruct (at_index slot_fvalue (int_of_uint (ints1 cell) + 1))
    as [fvalue_val|] eqn:Hfn; monad_simpl; [|discriminate].
  destruct (parent_node_count_h b !! i) as [parent_count|] eqn:Hpc; monad_simpl;
    [|discriminate].
  destruct (parent_node_sum_h b !! i) as [parent_sum|] eqn:Hps; monad_simpl;
    [|discriminate].
  intros [= <-]. eapply dense_leaf_accepted; eauto.
Qed.

Lemma GetBestSplitForDenceFeature_leaf_complete (active_fid : Z)
    (circular_fid i : nat) b b' :
  dense_leaf_result active_fid circular_fid i b b' →
  GetBestSplitForDenceFeature_leaf active_fid circular_fid i b = Some b'.
Proof.
  intros Hr. unfold GetBestSplitForDenceFeature_leaf.
  destruct Hr as
    [ns Hns Hc
    | ns sr cell best Hns Hc Hres Hcell Hbest Hlt
    | ns sr cell best ss s Hns Hc Hres Hcell Hbest Hlt Hsum Hs Hnan
    | ns sr cell best ss s sf fp fv pc ps Hns Hc Hres Hcell Hbest Hlt Hsum
        Hs Hnan Hfv Hfp Hfn Hpc Hps];
    rewrite Hns; monad_simpl;
    (destruct (Z.leb_spec (NodeStat.count ns) 0); [try lia; reflexivity|]);
    try lia;
    rewrite Hres; monad_simpl; rewrite Hcell; monad_simpl;
    rewrite Hbest; monad_simpl; rewrite Hlt; [reflexivity | |];
    rewrite Hsum; monad_simpl; rewrite Hs; monad_simpl; rewrite Hnan;
    monad_simpl; [reflexivity|].
  rewrite Hfv. monad_simpl. rewrite Hfp. monad_simpl. rewrite Hfn.
  monad_simpl. rewrite Hpc. monad_simpl. rewrite Hps. reflexivity.
Qed.
End LevelDriverProperties.

Section DenseReduction.
Context {sum_type : Type} `{SumType sum_type}.
Implicit Types (b : Builder sum_type).

Lemma GetBestSplitForDenceFeature_leaf_frame (active_fid : Z)
    (circular_fid i j : nat) b b' :
  j ≠ i →
  GetBestSplitForDenceFeature_leaf active_fid circular_fid j b = Some b' →
  same_at_leaf i b b'.
Proof.
  intros Hne Hrun. apply GetBestSplitForDenceFeature_leaf_cases in Hrun.
  destruct Hrun; try reflexivity.
  apply same_at_leaf_set_other, Hne.
Qed.

Lemma GetBestSplitForDenceFeature_leaf_cong (active_fid : Z)
    (circular_fid i : nat) b1 b2 b1' :
  same_at_leaf i b1 b2 →
  GetBestSplitForDenceFeature_leaf active_fid circular_fid i b1 = Some b1' →
  ∃ b2', GetBestSplitForDenceFeature_leaf active_fid circular_fid i b2
         = Some b2'
         ∧ same_at_leaf i b1' b2'.
Proof.
  intros Hsame Hrun. apply GetBestSplitForDenceFeature_leaf_cases in Hrun.
  pose proof Hsame as (_ & Hns & Hsum & Hfv & Hres & Hps & Hpc & _ & Hbs).
  destruct Hrun.
  - exists b2. split; [|exact Hsame].
    apply GetBestSplitForDenceFeature_leaf_complete.
    eapply dense_leaf_empty; [rewrite <- Hns|]; eauto.
  - exists b2. split; [|exact Hsame].
    apply GetBestSplitForDenceFeature_leaf_complete.
    eapply dense_leaf_not_better;
      [rewrite <- Hns | | rewrite <- Hres | | rewrite <- Hbs |]; eauto.
  - exists b2. split; [|exact Hsame].
    apply GetBestSplitForDenceFeature_leaf_complete.
    eapply dense_leaf_nan;
      [rewrite <- Hns | | rewrite <- Hres | | rewrite <- Hbs |
       | rewrite <- Hsum | |]; eauto.
  - eexists. split.
    + apply GetBestSplitForDenceFeature_leaf_complete.
      eapply dense_leaf_accepted;
        [rewrite <- Hns | | rewrite <- Hres | | rewrite <- Hbs |
         | rewrite <- Hsum | | | rewrite <- Hfv | | | rewrite <- Hpc
         | rewrite <- Hps]; eauto.
    + apply same_at_leaf_set_same, Hsame.
Qed.

(** After [GetBestSplitForDenceFeature] the split record of leaf [i] is
    the one the iteration for [i] produces from the initial state; the
    leaf statistics are untouched. *)
Lemma GetBestSplitForDenceFeature_at_leaf (active_fid : Z)
    (circular_fid lenght i : nat) b b' :
  (i < lenght)%nat →
  GetBestSplitForDenceFeature active_fid circular_fid lenght b = Some b' →
  ∃ bi, dense_leaf_result active_fid circular_fid i b bi
        ∧ same_at_leaf i bi b'.
Proof.
  intros Hi Hrun.
  destruct (for_loop_pointwise
              (GetBestSplitForDenceFeature_leaf active_fid circular_fid)
              same_at_leaf i lenght b b') as (bi & Hbi & Hsame);
    [apply _ | | | exact Hi | exact Hrun |].
  - intros j t t'. apply GetBestSplitForDenceFeature_leaf_frame.
  - intros t1 t2 t1'. apply GetBestSplitForDenceFeature_leaf_cong.
  - exists bi. split; [|exact Hsame].
    apply GetBestSplitForDenceFeature_leaf_cases, Hbi.
Qed.

Lemma GetBestSplitForDenceFeature_nodeStat (active_fid : Z)
    (circular_fid lenght : nat) b b' :
  GetBestSplitForDenceFeature active_fid circular_fid lenght b = Some b' →
  _nodeStat b' = _nodeStat b.
Proof.
  intros Hrun.
  apply (for_loop_invariant
           (GetBestSplitForDenceFeature_leaf active_fid circular_fid)
           (λ t, _nodeStat t = _nodeStat b) lenght 0 b b');
    [|reflexivity|exact Hrun].
  intros i t t' _ Ht Hstep.
  apply GetBestSplitForDenceFeature_leaf_cases in Hstep.
  destruct Hstep; exact Ht.
Qed.


Lemma FindBestSplits_finish_leaf_cases (i : nat) b b' :
  FindBestSplits_finish_leaf i b = Some b' →
  ∃ split,
    _bestSplit b !! i = Some split
    ∧ ((0 <= Split.fid split ∧ b' = b)
       ∨ (Split.fid split < 0
          ∧ ∃ node_stat,
              _nodeStat b !! i = Some node_stat
              ∧ b' = set_bestSplit b
                       (<[i := degenerate_split split node_stat]>
                          (_bestSplit b)))).
Proof.
  unfold FindBestSplits_finish_leaf.
  destruct (_bestSplit b !! i) as [split|] eqn:Hs; simpl; [|discriminate].
  destruct (Z.ltb_spec (Split.fid split) 0) as [Hneg | Hpos].
  - destruct (_nodeStat b !! i) as [node_stat|] eqn:Hns; simpl;
      [|discriminate].
    intros [= <-]. exists split. split; [reflexivity|]. right.
    split; [exact Hneg|]. exists node_stat. auto.
  - intros [= <-]. exists split. auto.
Qed.

Lemma FindBestSplits_finish_leaf_frame (i j : nat) b b' :
  j ≠ i → FindBestSplits_finish_leaf j b = Some b' → same_at_leaf i b b'.
Proof.
  intros Hne Hrun. apply FindBestSplits_finish_leaf_cases in Hrun.
  destruct Hrun as (split & _ & [[_ ->] | (_ & ns & _ & ->)]).
  - reflexivity.
  - apply same_at_leaf_set_other, Hne.
Qed.

Lemma FindBestSplits_finish_leaf_cong (i : nat) b1 b2 b1' :
  same_at_leaf i b1 b2 →
  FindBestSplits_finish_leaf i b1 = Some b1' →
  ∃ b2', FindBestSplits_finish_leaf i b2 = Some b2'
         ∧ same_at_leaf i b1' b2'.
Proof.
  intros Hsame Hrun.
  pose proof Hsame as (_ & Hns & _ & _ & _ & _ & _ & _ & Hbs).
  apply FindBestSplits_finish_leaf_cases in Hrun.
  destruct Hrun as (split & Hs & [[Hpos ->] | (Hneg & ns & Hn & ->)]);
    unfold FindBestSplits_finish_leaf; rewrite <- Hbs, Hs; simpl.
  - destruct (Z.ltb_spec (Split.fid split) 0); [lia|]. eauto.
  - destruct (Z.ltb_spec (Split.fid split) 0); [|lia].
    rewrite <- Hns, Hn. simpl. eexists. split; [reflexivity|].
    apply same_at_leaf_set_same, Hsame.
Qed.

(** The last loop of [FindBestSplits] at one leaf: an unset record
    becomes the degenerate split, a chosen one is kept. *)
Lemma FindBestSplits_finish_at_leaf (lenght i : nat) b b' :
  (i < lenght)%nat →
  FindBestSplits_finish lenght b = Some b' →
  ∃ split,
    _bestSplit b !! i = Some split
    ∧ ((0 <= Split.fid split ∧ _bestSplit b' !! i = Some split)
       ∨ (Split.fid split < 0
          ∧ ∃ node_stat,
              _nodeStat b !! i = Some node_stat
              ∧ _bestSplit b' !! i
                = Some (degenerate_split split node_stat))).
Proof.
  intros Hi Hrun.
  destruct (for_loop_pointwise FindBestSplits_finish_leaf same_at_leaf
              i lenght b b') as (bi & Hbi & Hsame);
    [apply _ | | | exact Hi | exact Hrun |].
  - intros j t t'. apply FindBestSplits_finish_leaf_frame.
  - intros t1 t2 t1'. apply FindBestSplits_finish_leaf_cong.
  - destruct Hsame as (_ & _ & _ & _ & _ & _ & _ & _ & Hbs).
    rewrite <- Hbs.
    apply FindBestSplits_finish_leaf_cases in Hbi.
    destruct Hbi as (sp & Hs & [[Hpos ->] | (Hneg & ns & Hn & ->)]);
      exists sp; (split; [exact Hs|]).
    + left. auto.
    + right. split; [exact Hneg|]. exists ns. split; [exact Hn|].
      cbn [_bestSplit set_bestSplit].
      apply list_lookup_insert_eq, lookup_lt_is_Some. eauto.
Qed.

Lemma dense_reductions_nodeStat (lenght : nat) b b' :
  dense_reductions lenght b b' → _nodeStat b' = _nodeStat b.
Proof.
  intros Hred. induction Hred as [b | b b1 b2 s' f' r' fid c Hrun Hred IH].
  - reflexivity.
  - rewrite IH. apply (GetBestSplitForDenceFeature_nodeStat _ _ _ _ _ Hrun).
Qed.

(** C10. [GetBestSplitForDenceFeature] leaves the split record of a leaf
    whose [_nodeStat[leaf].count] is at most 0 as it was, whatever the
    result cells hold; through the dense reductions of a level such a
    leaf keeps the record it entered with, and if that record is unset
    the last loop of [FindBestSplits] gives it the degenerate split. *)
Theorem GetBestSplitForDenceFeature_skips_empty_leaf
    (lenght i : nat) b (node_stat : NodeStat.t sum_type) :
  (i < lenght)%nat →
  _nodeStat b !! i = Some node_stat →
  NodeStat.count node_stat <= 0 →
  (∀ active_fid circular_fid b',
      GetBestSplitForDenceFeature active_fid circular_fid lenght b = Some b' →
      _bestSplit b' !! i = _bestSplit b !! i)
  ∧ (∀ b', dense_reductions lenght b b' →
       _bestSplit b' !! i = _bestSplit b !! i)
  ∧ (∀ b' b'' split,
       dense_reductions lenght b b' →
       _bestSplit b !! i = Some split → Split.fid split < 0 →
       FindBestSplits_finish lenght b' = Some b'' →
       _bestSplit b'' !! i = Some (degenerate_split split node_stat)).
Proof.
  intros Hi Hns Hcount.
  assert (Hone : ∀ active_fid circular_fid b0 b',
             _nodeStat b0 !! i = Some node_stat →
             GetBestSplitForDenceFeature active_fid circular_fid lenght b0
             = Some b' →
             _bestSplit b' !! i = _bestSplit b0 !! i).
  { intros active_fid circular_fid b0 b' Hns0 Hrun.
    destruct (GetBestSplitForDenceFeature_at_leaf _ _ _ _ _ _ Hi Hrun)
      as (bi & Hcase & Hsame).
    destruct Hsame as (_ & _ & _ & _ & _ & _ & _ & _ & Hbs).
    rewrite <- Hbs.
    destruct Hcase; try reflexivity;
      match goal with
      | H1 : _nodeStat _ !! i = Some ?a, H2 : 0 < NodeStat.count ?a |- _ =>
          assert (a = node_stat) by congruence; subst; lia
      end. }
  assert (Hall : ∀ b', dense_reductions lenght b b' →
                   _bestSplit b' !! i = _bestSplit b !! i).
  { intros b' Hred.
    induction Hred as [b | b b1 b2 s' f' r' fid c Hrun Hred IH].
    - reflexivity.
    - assert (Hns1 : _nodeStat b1 !! i = Some node_stat).
      { rewrite (GetBestSplitForDenceFeature_nodeStat _ _ _ _ _ Hrun).
        exact Hns. }
      rewrite (IH Hns1).
      apply (Hone fid c (set_slots b s' f' r') b1 Hns Hrun). }
  split; [|split].
  - intros active_fid circular_fid b'. apply Hone, Hns.
  - exact Hall.
  - intros b' b'' split Hred Hsplit Hneg Hfin.
    destruct (FindBestSplits_finish_at_leaf _ _ _ _ Hi Hfin)
      as (split' & Hs' & [[Hpos _] | (_ & ns & Hn & Hres)]).
    + rewrite (Hall b' Hred), Hsplit in Hs'. injection Hs' as <-. lia.
    + rewrite (Hall b' Hred), Hsplit in Hs'. injection Hs' as <-.
      rewrite (dense_reductions_nodeStat _ _ _ Hred), Hns in Hn.
      injection Hn as <-. exact Hres.
Qed.
End DenseReduction.

Lemma scenario_gain_kernel :
  gain_kernel (H := SumType_float) scenario_sum scenario_fvalue [0; 0; 0; 0]
    [F32.zero; F32.zero] [0; 4] scenario_params 4 [0]
  = Some [scenario_cell].
Proof. vm_compute. reflexivity. Qed.


Lemma GetBestSplitForDenceFeature_skips_empty_leaf_witness :
  let b := scenario_builder 0 [scenario_cell] in
  ∃ b',
    GetBestSplitForDenceFeature (H := SumType_float) 0 0 1 b = Some b'
    ∧ _bestSplit b' !! 0%nat = Some clean_split.
Proof.
  intros b.
  destruct (GetBestSplitForDenceFeature (H := SumType_float) 0 0 1 b)
    as [b'|] eqn:Hrun; [|vm_compute in Hrun; discriminate].
  exists b'. split; [reflexivity|].
  assert (Hi : (0 < 1)%nat) by lia.
  assert (Hc : NodeStat.count (NodeStat.Build 0 F32.zero F32.zero) <= 0)
    by (simpl; lia).
  exact (proj1 (GetBestSplitForDenceFeature_skips_empty_leaf 1 0 b
                  (NodeStat.Build 0 F32.zero F32.zero) Hi eq_refl Hc)
               0 0%nat b' Hrun).
Defined.

(** ** Degenerate leaves *)

Lemma F32_leb_infinity (v : float) :
  v ≠ S754_nan → F32.leb v F32.infinity = true.
Proof.
  unfold F32.leb, F32.infinity, SFleb.
  destruct v as [s | s | | s m e]; simpl; try congruence; intros _;
    destruct s; reflexivity.
Qed.

(** With a dense feature 0 that is a number in row [r], the degenerate
    split sends row [r] to the left child. *)
Lemma degenerate_split_routes_left {sum_type : Type}
    (data_ : DataMatrix) (split : Split.t sum_type)
    (node_stat : NodeStat.t sum_type) (column : list float) (r : nat)
    (v : float) :
  0 < columns_dense data_ →
  data data_ !! 0%nat = Some column → column !! r = Some v →
  v ≠ S754_nan →
  UpdateNodeIndex_isLeft data_ (degenerate_split split node_stat) r
  = Some true.
Proof.
  intros Hdense Hcol Hv Hnan. unfold UpdateNodeIndex_isLeft.
  cbn [degenerate_split Split.fid Split.split_value].
  destruct (Z.ltb_spec 0 (columns_dense data_)); [|lia].
  change (at_index (data data_) 0) with (data data_ !! 0%nat).
  rewrite Hcol. monad_simpl. unfold float in *. rewrite Hv. monad_simpl.
  rewrite F32_leb_infinity by exact Hnan. reflexivity.
Qed.

(** C6. The last loop of [FindBestSplits] writes the degenerate split
    ([fid = 0], [gain = 0], [split_value = +inf], the count and the
    gradient sum of the leaf) for an unclaimed leaf. [UpdateNodeIndex] then
    sends the rows of the leaf to the right child when the data has no
    dense column, and sends a row to the right when its value of dense
    feature 0 is a NaN. *)
Theorem degenerate_split_routes_right
    (HeapOffset : Z → Z) (ChildNode : Z → bool → Z) :
  let degenerate :=
    degenerate_split (clean_split (H := SumType_float))
                     (NodeStat.Build 2 (F32.of_Z 3) F32.zero) in
  let finished := set_bestSplit unclaimed_builder [degenerate] in
  let right :=
    wrap32 (ChildNode (wrap32 (0 + HeapOffset 0)) false - HeapOffset (0 + 1)) in
  let left :=
    wrap32 (ChildNode (wrap32 (0 + HeapOffset 0)) true - HeapOffset (0 + 1)) in
  FindBestSplits_finish 1 unclaimed_builder = Some finished
  ∧ Split.count degenerate = 2
  ∧ UpdateNodeIndex_isLeft sparse_only_data degenerate 0 = Some false
  ∧ UpdateNodeIndex_isLeft sparse_only_data degenerate 1 = Some false
  ∧ UpdateNodeIndex HeapOffset ChildNode 0 sparse_only_data finished
    = Some (set_rowIndex2Node finished [right; right])
  ∧ UpdateNodeIndex_isLeft nan_data degenerate 0 = Some false
  ∧ UpdateNodeIndex HeapOffset ChildNode 0 nan_data finished
    = Some (set_rowIndex2Node finished [right; left]).
Proof. cbv zeta. repeat split. Qed.

(** ** Builder selection *)

(** Outside the single-precision linear regression above 32 bits, the
    builder's leaf-id type is the smallest that holds [depth + 1] bits. *)
Lemma Garden_new_builder_smallest (param : TreeParam) (double_precision : bool)
    (b : builder_type) :
  Garden_new_builder param double_precision = Return b →
  ¬ (objective param = LinearRegression ∧ double_precision = false
     ∧ bit_width unsigned_int < depth param + 1) →
  smallest_node_type (depth param + 1) = Some (builder_node b).
Proof.
  intros Hnew Hexcl. unfold Garden_new_builder in Hnew.
  unfold smallest_node_type, bit_width in *.
  destruct (objective param) eqn:Hobj;
    destruct (depth param + 1 <=? sizeof unsigned_char * CHAR_BIT);
    try (destruct double_precision; injection Hnew as <-; reflexivity);
    destruct (depth param + 1 <=? sizeof unsigned_short * CHAR_BIT);
    try (destruct double_precision; injection Hnew as <-; reflexivity);
    destruct (Z.leb_spec (depth param + 1) (sizeof unsigned_int * CHAR_BIT));
    try (destruct double_precision; injection Hnew as <-; reflexivity);
    destruct (depth param + 1 <=? sizeof unsigned_long_int * CHAR_BIT);
    try discriminate;
    destruct double_precision; injection Hnew as <-; try reflexivity.
  exfalso. apply Hexcl. auto.
Qed.

(** C8. For linear regression in single precision at depth 32 the
    builder is instantiated with [unsigned int], which has 32 bits, where
    33 are asked for; in double precision and for the other objectives it
    is [unsigned long int]. *)
Theorem Garden_new_builder_depth_32 :
  let param objective :=
    {| objective := objective; depth := 32; colsample_bytree := F32.of_Z 1;
       colsample_bylevel := F32.of_Z 1; labels_count := 1 |} in
  Garden_new_builder (param LinearRegression) false
  = Return (TaylorApproximationBuilder unsigned_int float_t float_t)
  ∧ bit_width unsigned_int < depth (param LinearRegression) + 1
  ∧ smallest_node_type (depth (param LinearRegression) + 1)
    = Some unsigned_long_int
  ∧ Garden_new_builder (param LinearRegression) true
    = Return (TaylorApproximationBuilder unsigned_long_int float_t double_t)
  ∧ Garden_new_builder (param LogisticRegression) false
    = Return (TaylorApproximationBuilder unsigned_long_int float2_t float2_t)
  ∧ Garden_new_builder (param SoftMaxOneVsAll) false
    = Return (TaylorApproximationBuilder unsigned_long_int float2_t float2_t).
Proof. cbv zeta. repeat split. Qed.

(** ** Initialisation errors *)

Lemma binary_round_aux_nonneg (prec emax mx ex : Z) (lx : location) :
  nonneg (binary_round_aux prec emax false mx ex lx) = true.
Proof.
  unfold binary_round_aux.
  destruct (shr_fexp prec emax mx ex lx) as [mrs' e'].
  destruct (shr_fexp prec emax _ e' loc_Exact) as [mrs'' e''].
  destruct (shr_m mrs''); [reflexivity | | reflexivity].
  destruct (e'' <=? emax - prec); reflexivity.
Qed.

Lemma nonneg_of_not_below_zero (x : float) :
  F32.ltb x F32.zero = false → nonneg x = true.
Proof.
  unfold F32.ltb, F32.zero, SFltb.
  destruct x as [s | s | | s m e]; simpl; try reflexivity;
    destruct s; simpl; congruence.
Qed.

Lemma F32_mul_nonneg (x y : float) :
  nonneg x = true → nonneg y = true → nonneg (F32.mul x y) = true.
Proof.
  unfold F32.mul.
  destruct x as [sx | sx | | sx mx ex], y as [sy | sy | | sy my ey];
    try reflexivity; simpl nonneg; intros Hx Hy;
    try (destruct sx; try discriminate); try (destruct sy; try discriminate);
    try reflexivity.
  cbn [SFmul xorb]. apply binary_round_aux_nonneg.
Qed.

Lemma float_of_size_t_nonneg (n : Z) : 0 <= n → nonneg (float_of_size_t n) = true.
Proof.
  intros Hn. unfold float_of_size_t, F32.of_Z, F32.of_Z_exp, binary_normalize.
  destruct n as [| p | p]; [reflexivity | | lia].
  unfold binary_round.
  destruct (shl_align p 0 _) as [mz ez]. apply binary_round_aux_nonneg.
Qed.

(** The integer part toward zero and the floor agree from zero upwards. *)
Lemma trunc_float_floor (x : float) :
  nonneg x = true → trunc_float x = floor_float x.
Proof.
  destruct x as [s | s | | s m e]; try reflexivity.
  destruct s; [discriminate|]. intros _. simpl.
  destruct (0 <=? e); reflexivity.
Qed.

Lemma int_of_float_Return (x : float) (z : Z) :
  int_of_float x = Return z → trunc_float x = Some z.
Proof.
  unfold int_of_float. destruct (trunc_float x) as [t|]; [|discriminate].
  destruct ((- 2 ^ 31 <=? t) && (t <? 2 ^ 31)); [|discriminate].
  intros [= ->]. reflexivity.
Qed.

(** With the rate nearest to 1/31 and 31 columns the exact product is
    [1 - 2^-25], whose floor is 0: the specification has initialisation
    fail. The code multiplies in binary32, where the product rounds to 1,
    and [InitGrowingTree] returns. The rate lies in (0, 1]. *)
Lemma initialisation_errors_counterexample :
  rate_31 = S754_finite false 8659208 (-28)
  ∧ F32.ltb F32.zero rate_31 = true
  ∧ F32.leb rate_31 (F32.of_Z 1) = true
  ∧ spec_take_by_tree rate_31_param 31 = Some 0
  ∧ spec_sampling_too_small rate_31_param 31
  ∧ F32.mul rate_31 (float_of_size_t 31) = F32.of_Z 1
  ∧ InitGrowingTree rate_31_param 31 = Return tt.
Proof.
  assert (Hfloor : spec_take_by_tree rate_31_param 31 = Some 0)
    by (vm_compute; reflexivity).
  split; [vm_compute; reflexivity|]. split; [vm_compute; reflexivity|].
  split; [vm_compute; reflexivity|]. split; [exact Hfloor|].
  split; [left; exact Hfloor|]. split; vm_compute; reflexivity.
Qed.

Section TrainingProperties.
Context {tree : Type}.
Variable grow_levels : builder_type → nat → tree.

Lemma Garden_grow_labels_throws (param : TreeParam) (columns : Z)
    (builder : builder_type) (msg : string) (n : nat) :
  InitGrowingTree param columns = Throw msg →
  ∀ (label : nat) (trees : list tree),
    Garden_grow_labels grow_levels param columns builder label (S n) trees
    = Throw msg.
Proof.
  intros Hinit label trees. cbn [Garden_grow_labels].
  unfold Builder_GrowTree. rewrite Hinit. reflexivity.
Qed.

(** C9. With sampling rates that are not negative and products that fit
    [int], [InitGrowingTree] throws one of its two "too small" messages
    exactly when the floor of one of the two products is 0, the products
    being the ones the code computes: [colsample_bytree * columns] and
    [(colsample_bytree * colsample_bylevel) * columns] in binary32, with
    [columns] converted to [float] and every product rounded. The creation
    of the builder throws "unsupported depth" exactly when
    [depth + 1 > 64]; and a boosting round in which either throws ends
    with that exception and returns no trainer state. *)
Theorem initialisation_errors (param : TreeParam) (double_precision : bool)
    (columns : Z) :
  let by_tree :=
    F32.mul (colsample_bytree param) (float_of_size_t columns) in
  let by_level :=
    F32.mul (F32.mul (colsample_bytree param) (colsample_bylevel param))
            (float_of_size_t columns) in
  (∀ take_tree take_level : Z,
      0 <= columns →
      F32.ltb (colsample_bytree param) F32.zero = false →
      F32.ltb (colsample_bylevel param) F32.zero = false →
      int_of_float by_tree = Return take_tree →
      int_of_float by_level = Return take_level →
      (InitGrowingTree param columns = Throw colsample_bytree_too_small
       ∨ InitGrowingTree param columns = Throw colsample_bylevel_too_small)
      ↔ (floor_float by_tree = Some 0 ∨ floor_float by_level = Some 0))
  ∧ (Garden_new_builder param double_precision = Throw unsupported_depth
     ↔ 64 < depth param + 1)
  ∧ (∀ (g : Garden tree) (msg : string),
       _init g = false →
       Garden_new_builder param double_precision = Throw msg →
       Garden_GrowTree grow_levels param double_precision columns g
       = Throw msg)
  ∧ (∀ (g : Garden tree) (b : builder_type) (msg : string),
       (_init g = true ∧ _builder g = Some b
        ∨ _init g = false
          ∧ Garden_new_builder param double_precision = Return b) →
       (0 < labels_count param)%nat →
       InitGrowingTree param columns = Throw msg →
       Garden_GrowTree grow_levels param double_precision columns g
       = Throw msg).
Proof.
  cbv zeta. split; [|split; [|split]].
  - intros take_tree take_level Hcol Htree Hlevel Hcast1 Hcast2.
    apply nonneg_of_not_below_zero in Htree, Hlevel.
    pose proof (float_of_size_t_nonneg columns Hcol) as Hn.
    rewrite <- !trunc_float_floor
      by (repeat apply F32_mul_nonneg; assumption).
    rewrite (int_of_float_Return _ _ Hcast1), (int_of_float_Return _ _ Hcast2).
    unfold InitGrowingTree. rewrite Hcast1. cbn [outcome_bind].
    destruct (Z.eqb_spec take_tree 0) as [-> | Hne1].
    { split; auto. }
    rewrite Hcast2. cbn [outcome_bind].
    destruct (Z.eqb_spec take_level 0) as [-> | Hne2].
    { split; auto. }
    split.
    + intros [Hthrow | Hthrow]; discriminate.
    + intros [[= Hz] | [= Hz]]; congruence.
  - unfold Garden_new_builder.
    change (sizeof unsigned_char * CHAR_BIT) with 8.
    change (sizeof unsigned_short * CHAR_BIT) with 16.
    change (sizeof unsigned_int * CHAR_BIT) with 32.
    change (sizeof unsigned_long_int * CHAR_BIT) with 64.
    destruct (objective param);
      repeat match goal with
        | |- context [Z.leb ?a ?b] => destruct (Z.leb_spec a b)
        end;
      try destruct double_precision;
      split; intros; solve [discriminate | lia | reflexivity].
  - intros g msg Hinit Hnew. unfold Garden_GrowTree.
    rewrite Hinit, Hnew. reflexivity.
  - intros g b msg Hb Hlabels Hthrow. unfold Garden_GrowTree.
    destruct (labels_count param) as [| n] eqn:Hn; [lia|].
    destruct Hb as [[Hinit Hb] | [Hinit Hnew]]; rewrite Hinit.
    + cbn [outcome_bind]. rewrite Hb.
      rewrite (Garden_grow_labels_throws _ _ _ _ _ Hthrow). reflexivity.
    + rewrite Hnew. cbn [outcome_bind _builder _trees].
      rewrite (Garden_grow_labels_throws _ _ _ _ _ Hthrow). reflexivity.
Qed.
End TrainingProperties.

Lemma initialisation_errors_witness :
  0 <= 1
  ∧ F32.ltb (colsample_bytree half_sampling_param) F32.zero = false
  ∧ F32.ltb (colsample_bylevel half_sampling_param) F32.zero = false
  ∧ (InitGrowingTree half_sampling_param 1 = Throw colsample_bytree_too_small
     ∨ InitGrowingTree half_sampling_param 1
       = Throw colsample_bylevel_too_small).
Proof.
  assert (H0 : 0 <= 1) by lia.
  split; [exact H0|]. split; [reflexivity|]. split; [reflexivity|].
  apply (proj1 (initialisation_errors (λ _ _, tt) half_sampling_param false 1)
               0 0 H0 eq_refl eq_refl eq_refl eq_refl).
  left. reflexivity.
Defined.

(** * Further properties of the code *)

(** ** Gather kernels *)

Section GatherSimple.
Context {T : Type}.
Variable position : list Z.
Variable in1 : list T.

Lemma gather_kernel_simple_loop (n : nat) :
  ∀ (start : nat) (out1 : list T),
    (start + n <= length position)%nat →
    (start + n <= length out1)%nat →
    (∀ (i : nat) (p : Z), (start <= i < start + n)%nat →
       position !! i = Some p → 0 <= p < Z.of_nat (length in1)) →
    ∃ out' : list T,
      for_loop (gather_kernel_simple_thread position in1) start n out1
      = Some out'
      ∧ length out' = length out1
      ∧ (∀ i : nat, (start <= i < start + n)%nat →
           ∃ p : Z, position !! i = Some p
                    ∧ out' !! i = in1 !! Z.to_nat p)
      ∧ (∀ k : nat, (k < start ∨ start + n <= k)%nat →
           out' !! k = out1 !! k).
Proof.
  induction n as [| n IH]; intros start out1 Hpos Hout Hin.
  - exists out1. repeat split. intros i Hi. lia.
  - destruct (lookup_lt_is_Some_2 position start ltac:(lia)) as [p Hp].
    destruct (Hin start p ltac:(lia) Hp) as [Hp0 Hp1].
    destruct (lookup_lt_is_Some_2 in1 (Z.to_nat p) ltac:(lia)) as [x Hx].
    assert (Hstep : gather_kernel_simple_thread position in1 start out1
                    = Some (<[start := x]> out1)).
    { unfold gather_kernel_simple_thread. rewrite Hp. monad_simpl.
      unfold at_index. destruct (Z.ltb_spec p 0); [lia|]. rewrite Hx.
      monad_simpl. unfold set_index.
      destruct (Z.leb_spec 0 (Z.of_nat start)); [|lia].
      destruct (Z.ltb_spec (Z.of_nat start) (Z.of_nat (length out1))); [|lia].
      rewrite Nat2Z.id. reflexivity. }
    destruct (IH (S start) (<[start := x]> out1)) as (out' & Hrun & Hlen & Hval & Hframe).
    { lia. }
    { rewrite length_insert. lia. }
    { intros i q Hi. apply Hin. lia. }
    exists out'. cbn [for_loop]. rewrite Hstep. monad_simpl.
    split; [exact Hrun|]. split; [rewrite Hlen; apply length_insert|].
    split.
    + intros i Hi. destruct (Nat.eq_dec i start) as [-> | Hne].
      * exists p. split; [exact Hp|].
        rewrite Hframe by lia. rewrite Hx.
        apply list_lookup_insert_eq. lia.
      * apply Hval. lia.
    + intros k Hk. rewrite Hframe by lia.
      apply list_lookup_insert_ne. lia.
Qed.

(** X1. [gather_kernel_simple] permutes: when the first [n] positions
    name cells of the input and the output has [n] cells, the kernel
    returns, cell [i] of the output holds [in1[position[i]]] for every
    [i < n], and the cells from [n] on keep their content. *)
Theorem gather_kernel_simple_permutes (out1 : list T) (n : nat) :
  (n <= length position)%nat →
  (n <= length out1)%nat →
  (∀ (i : nat) (p : Z), (i < n)%nat → position !! i = Some p →
     0 <= p < Z.of_nat (length in1)) →
  ∃ out' : list T,
    gather_kernel_simple position in1 out1 n = Some out'
    ∧ length out' = length out1
    ∧ (∀ i : nat, (i < n)%nat →
         ∃ p : Z, position !! i = Some p ∧ out' !! i = in1 !! Z.to_nat p)
    ∧ (∀ k : nat, (n <= k)%nat → out' !! k = out1 !! k).
Proof.
  intros Hpos Hout Hin.
  destruct (gather_kernel_simple_loop n 0 out1) as (out' & Hrun & Hlen & Hval & Hframe);
    [lia | lia | intros i p Hi; apply Hin; lia |].
  exists out'. split; [exact Hrun|]. split; [exact Hlen|]. split.
  - intros i Hi. apply Hval. lia.
  - intros k Hk. apply Hframe. lia.
Qed.
End GatherSimple.

Lemma gather_kernel_simple_permutes_witness :
  ∃ out' : list float,
    gather_kernel_simple [2; 0; 1] [F32.of_Z 10; F32.of_Z 20; F32.of_Z 30]
      [F32.zero; F32.zero; F32.zero; F32.of_Z 7] 3 = Some out'
    ∧ length out' = 4%nat
    ∧ (∀ i : nat, (i < 3)%nat →
         ∃ p : Z, [2; 0; 1] !! i = Some p
                  ∧ out' !! i
                    = [F32.of_Z 10; F32.of_Z 20; F32.of_Z 30] !! Z.to_nat p)
    ∧ (∀ k : nat, (3 <= k)%nat →
         out' !! k = [F32.zero; F32.zero; F32.zero; F32.of_Z 7] !! k).
Proof.
  apply gather_kernel_simple_permutes.
  - simpl. lia.
  - simpl. lia.
  - intros i p Hi Hp. simpl.
    destruct i as [| [| [| i]]]; simpl in Hp; try lia;
      injection Hp as <-; lia.
Defined.

Section GatherInPlace.
Context {T : Type}.

(** X2. [gather] never moves a value: it keeps the length of the output,
    every cell of the output afterwards holds what it held before or what
    the input holds at the same index, and when [position] names every row
    the output is the input, whatever the order of [position]. *)
Theorem gather_never_moves (position : list Z) (in_ out out' : list T)
    (n : nat) :
  gather position in_ out n = Some out' →
  length out' = length out
  ∧ (∀ (k : nat) (x : T), out' !! k = Some x →
       out !! k = Some x ∨ in_ !! k = Some x)
  ∧ (n = length in_ → length out = length in_ →
     (∀ k : nat, (k < length in_)%nat →
        ∃ i : nat, (i < length in_)%nat ∧ position !! i = Some (Z.of_nat k)) →
     out' = in_).
Proof.
  intros Hrun. split; [|split].
  - apply (gather_length position in_ n 0 out out' Hrun).
  - unfold gather in Hrun.
    apply (for_loop_invariant (gather_thread position in_)
             (λ o, ∀ k x, o !! k = Some x →
                          out !! k = Some x ∨ in_ !! k = Some x)
             n 0 out out'); [| auto | exact Hrun].
    intros i t t' _ Ht Hstep k x Hk. apply gather_thread_Some in Hstep.
    destruct Hstep as (p & y & _ & _ & Hy & Hlen & ->).
    destruct (Nat.eq_dec (Z.to_nat p) k) as [<- | Hne].
    + rewrite list_lookup_insert_eq in Hk by exact Hlen.
      right. congruence.
    + rewrite list_lookup_insert_ne in Hk by exact Hne. apply Ht, Hk.
  - intros -> Hlen Honto.
    apply (gather_dense_identity position in_ out out' Hlen Honto Hrun).
Qed.
End GatherInPlace.

Lemma gather_never_moves_witness :
  length [F32.of_Z 1; F32.of_Z 2] = length [F32.zero; F32.zero]
  ∧ (∀ (k : nat) (x : float), [F32.of_Z 1; F32.of_Z 2] !! k = Some x →
       [F32.zero; F32.zero] !! k = Some x
       ∨ [F32.of_Z 1; F32.of_Z 2] !! k = Some x).
Proof.
  assert (Hrun : gather [1; 0] [F32.of_Z 1; F32.of_Z 2] [F32.zero; F32.zero] 2
                 = Some [F32.of_Z 1; F32.of_Z 2]) by reflexivity.
  destruct (gather_never_moves _ _ _ _ _ Hrun) as (Hlen & Hcells & _).
  split; [exact Hlen | exact Hcells].
Defined.

(** ** The packed cell *)

(** X3. The two fields of [my_atomics] are independent views of one
    64-bit word: after [floats[0] = g] and [ints[1] = i] the word fits 64
    bits, and reading the fields back gives [g] and [i]. *)
Theorem my_atomics_fields (g : float) (i : Z) :
  F32.valid g = true → 0 <= i < 2 ^ 32 →
  let u := my_atomics_of_words (bits_of_float g) i in
  0 <= u < 2 ^ 64 ∧ floats0 u = g ∧ ints1 u = i.
Proof.
  intros Hv Hi u. subst u.
  pose proof (bits_of_float_range g Hv) as Hb.
  split; [|split].
  - unfold my_atomics_of_words. rewrite Z.shiftl_mul_pow2 by lia. lia.
  - apply floats0_of_words, Hv.
  - apply ints1_of_words, Hb.
Qed.

Lemma my_atomics_fields_witness :
  let u := my_atomics_of_words (bits_of_float (F32.of_Z_exp 5 (-1))) 17 in
  0 <= u < 2 ^ 64 ∧ floats0 u = F32.of_Z_exp 5 (-1) ∧ ints1 u = 17.
Proof.
  apply my_atomics_fields; [reflexivity | lia].
Defined.

(** X4. A call of [updateAtomicMax] by a lone thread returns, and returns
    the content of the cell after the call; the stored gain does not go
    down, it is not below the candidate afterwards, and a second call with
    the same candidate changes nothing. *)
Theorem updateAtomicMax_lone_thread (cell : my_atomics) (g : float) (i : Z) :
  F32.valid g = true →
  ∃ cell' : my_atomics,
    updateAtomicMax cell g i = Some (cell', cell')
    ∧ (cell' = cell ∨ F32.ltb (floats0 cell) (floats0 cell') = true)
    ∧ F32.ltb (floats0 cell') g = false
    ∧ updateAtomicMax cell' g i = Some (cell', cell').
Proof.
  intros Hv. rewrite updateAtomicMax_spec by exact Hv.
  destruct (F32.ltb (floats0 cell) g) eqn:Hlt.
  - exists (my_atomics_of_words (bits_of_float g) i).
    assert (Hf : floats0 (my_atomics_of_words (bits_of_float g) i) = g)
      by (apply floats0_of_words, Hv).
    split; [reflexivity|]. rewrite Hf. split; [right; exact Hlt|].
    split; [apply SFltb_irrefl|].
    rewrite updateAtomicMax_spec by exact Hv.
    rewrite Hf. unfold F32.ltb. rewrite SFltb_irrefl. reflexivity.
  - exists cell. split; [reflexivity|]. split; [left; reflexivity|].
    split; [exact Hlt|].
    rewrite updateAtomicMax_spec by exact Hv. rewrite Hlt. reflexivity.
Qed.

Lemma updateAtomicMax_lone_thread_witness :
  ∃ cell' : my_atomics,
    updateAtomicMax scenario_cell (F32.of_Z 9) 1 = Some (cell', cell')
    ∧ (cell' = scenario_cell
       ∨ F32.ltb (floats0 scenario_cell) (floats0 cell') = true)
    ∧ F32.ltb (floats0 cell') (F32.of_Z 9) = false
    ∧ updateAtomicMax cell' (F32.of_Z 9) 1 = Some (cell', cell').
Proof. apply updateAtomicMax_lone_thread. reflexivity. Defined.

(** X5. The loop of [updateAtomicMax] run by a lone thread ends within
    [cas_rounds] = 2 compare-and-swaps: with any larger supply of
    iterations the result is that of the call. *)
Theorem updateAtomicMax_terminates (fuel : nat) (cell : my_atomics)
    (g : float) (i : Z) :
  F32.valid g = true →
  updateAtomicMax_while (cas_rounds + fuel) cell cell
                        (my_atomics_of_words (bits_of_float g) i) g
  = updateAtomicMax cell g i
  ∧ updateAtomicMax cell g i ≠ None.
Proof.
  intros Hv. split; [apply updateAtomicMax_fuel, Hv|].
  rewrite updateAtomicMax_spec by exact Hv. discriminate.
Qed.

Lemma updateAtomicMax_terminates_witness :
  updateAtomicMax_while (cas_rounds + 5) 0 0
    (my_atomics_of_words (bits_of_float (F32.of_Z 3)) 8) (F32.of_Z 3)
  = updateAtomicMax 0 (F32.of_Z 3) 8
  ∧ updateAtomicMax 0 (F32.of_Z 3) 8 ≠ None.
Proof. apply updateAtomicMax_terminates. reflexivity. Defined.

(** A sequence none of whose gains is above the stored one leaves the
    cell alone. *)
Lemma updateAtomicMax_all_none_above (updates : list (float * Z))
    (cell : my_atomics) :
  (∀ g i, (g, i) ∈ updates → F32.valid g = true) →
  (∀ g i, (g, i) ∈ updates → F32.ltb (floats0 cell) g = false) →
  updateAtomicMax_all cell updates = Some cell.
Proof.
  induction updates as [| [g i] rest IH]; intros Hv Hle; [reflexivity|].
  cbn [updateAtomicMax_all].
  rewrite updateAtomicMax_spec by (apply (Hv g i); left).
  rewrite (Hle g i) by left. cbn [mbind option_bind fst].
  apply IH; intros g' i' Hin; [apply (Hv g' i') | apply (Hle g' i')];
    right; exact Hin.
Qed.

Lemma distinct_gains_cons (x : float * Z) (l : list (float * Z)) :
  distinct_gains (x :: l)
  ↔ (∀ g i, (g, i) ∈ l → F32.eqb x.1 g = false ∧ F32.eqb g x.1 = false)
    ∧ distinct_gains l.
Proof.
  destruct x as [gx ix]. cbn [fst]. split.
  - intros Hd. split.
    + intros g i Hin. apply list_elem_of_lookup in Hin. destruct Hin as [k Hk].
      split.
      * apply (Hd 0%nat (S k) gx g ix i); auto.
      * apply (Hd (S k) 0%nat g gx i ix); auto.
    + intros j k g1 g2 i1 i2 Hjk Hj Hk.
      apply (Hd (S j) (S k) g1 g2 i1 i2); auto.
  - intros [Hx Hd] j k g1 g2 i1 i2 Hjk Hj Hk.
    destruct j as [| j], k as [| k]; try congruence; simpl in Hj, Hk.
    + injection Hj as <- <-.
      apply (Hx g2 i2). apply list_elem_of_lookup. eauto.
    + injection Hk as <- <-.
      apply (Hx g1 i1). apply list_elem_of_lookup. eauto.
    + apply (Hd j k g1 g2 i1 i2); auto.
Qed.

Lemma distinct_gains_Permutation (us us' : list (float * Z)) :
  us ≡ₚ us' → distinct_gains us → distinct_gains us'.
Proof.
  intros Hperm.
  induction Hperm as [| x l l' Hp IH | x y l | l l' l'' H1 IH1 H2 IH2];
    intros Hd.
  - exact Hd.
  - apply distinct_gains_cons in Hd. destruct Hd as [Hx Hd].
    apply distinct_gains_cons. split; [|apply IH, Hd].
    intros g i Hin. apply (Hx g i). rewrite Hp. exact Hin.
  - apply distinct_gains_cons in Hd. destruct Hd as [Hy Hd].
    apply distinct_gains_cons in Hd. destruct Hd as [Hx Hd].
    apply distinct_gains_cons. split.
    + destruct x as [gx ix], y as [gy iy]. cbn [fst] in *.
      intros g i Hin. apply elem_of_cons in Hin.
      destruct Hin as [Heq | Hin]; [|apply (Hx g i Hin)].
      injection Heq as -> ->.
      destruct (Hy gx ix) as [H1 H2]; [left|]. auto.
    + apply distinct_gains_cons. split; [|exact Hd].
      intros g i Hin. apply (Hy g i). right. exact Hin.
  - auto.
Qed.

(** The largest gain of a sequence with distinct gains, when it is
    positive, is what the sequence leaves in a zero-initialised cell. *)
Lemma updateAtomicMax_all_largest (updates : list (float * Z)) (g : float)
    (i : Z) :
  (∀ g' i', (g', i') ∈ updates → F32.valid g' = true) →
  distinct_gains updates →
  (g, i) ∈ updates →
  largest_gain updates g →
  F32.ltb F32.zero g = true →
  updateAtomicMax_all 0 updates
  = Some (my_atomics_of_words (bits_of_float g) i).
Proof.
  intros Hv Hd Hin Hmax Hpos.
  destruct (updateAtomicMax_all_inv updates 0 Hv)
    as (cell' & Hrun & Hwho & Hall & _).
  rewrite Hrun. f_equal.
  pose proof (Hall g i Hin) as Hge.
  destruct Hwho as [-> | (k & g0 & i0 & Hk & -> & Hn0)].
  { rewrite floats0_zero in Hge. congruence. }
  assert (Hin0 : (g0, i0) ∈ updates) by (apply list_elem_of_lookup; eauto).
  rewrite floats0_of_words in Hge by (apply (Hv g0 i0 Hin0)).
  pose proof (Hmax g0 i0 Hin0) as Hle.
  assert (Hn : g ≠ S754_nan) by (apply SFltb_not_nan in Hpos; tauto).
  pose proof (SFltb_antisym g g0 Hn Hn0 Hle Hge) as Heq.
  apply list_elem_of_lookup in Hin. destruct Hin as [j Hj].
  destruct (Nat.eq_dec j k) as [-> | Hjk].
  - rewrite Hj in Hk. injection Hk as -> ->. reflexivity.
  - pose proof (Hd j k g g0 i i0 Hjk Hj Hk) as Hne. unfold F32.eqb in Hne.
    congruence.
Qed.

(** X6. The order of the updates does not matter: two sequences of
    updates with distinct gains that are permutations of each other leave
    the same content in a zero-initialised cell. *)
Theorem updateAtomicMax_order_independent (us us' : list (float * Z)) :
  us ≡ₚ us' →
  (∀ g i, (g, i) ∈ us → F32.valid g = true) →
  distinct_gains us →
  updateAtomicMax_all 0 us = updateAtomicMax_all 0 us'.
Proof.
  intros Hperm Hv Hd.
  assert (Hv' : ∀ g i, (g, i) ∈ us' → F32.valid g = true).
  { intros g i Hin. apply (Hv g i). rewrite Hperm. exact Hin. }
  pose proof (distinct_gains_Permutation us us' Hperm Hd) as Hd'.
  destruct (updateAtomicMax_all_inv us 0 Hv)
    as (cell & Hrun & Hwho & Hall & Hgrow).
  rewrite Hrun. symmetry.
  destruct Hgrow as [-> | Hlt].
  - apply updateAtomicMax_all_none_above; [exact Hv'|].
    intros g i Hin. apply (Hall g i). rewrite Hperm. exact Hin.
  - destruct Hwho as [-> | (k & g0 & i0 & Hk & -> & Hn0)].
    { rewrite floats0_zero in Hlt. unfold F32.ltb in Hlt.
      rewrite SFltb_irrefl in Hlt. discriminate. }
    assert (Hin0 : (g0, i0) ∈ us) by (apply list_elem_of_lookup; eauto).
    assert (Hf : floats0 (my_atomics_of_words (bits_of_float g0) i0) = g0)
      by (apply floats0_of_words, (Hv g0 i0 Hin0)).
    rewrite Hf in Hall, Hlt. rewrite floats0_zero in Hlt.
    apply (updateAtomicMax_all_largest us' g0 i0 Hv' Hd').
    + rewrite <- Hperm. exact Hin0.
    + intros g' i' Hin. apply (Hall g' i'). rewrite Hperm. exact Hin.
    + exact Hlt.
Qed.

Lemma updateAtomicMax_order_independent_witness :
  updateAtomicMax_all 0 [(F32.of_Z 1, 3); (F32.of_Z 2, 5)]
  = updateAtomicMax_all 0 [(F32.of_Z 2, 5); (F32.of_Z 1, 3)].
Proof.
  apply updateAtomicMax_order_independent.
  - apply perm_swap.
  - intros g i H. apply elem_of_cons in H.
    destruct H as [H | H]; [injection H as -> ->; reflexivity|].
    apply list_elem_of_singleton in H. injection H as -> ->. reflexivity.
  - intros j k g1 g2 i1 i2 Hjk Hj Hk.
    destruct j as [| [| j]], k as [| [| k]]; simpl in Hj, Hk;
      try congruence; try discriminate;
      injection Hj as <- <-; injection Hk as <- <-; reflexivity.
Defined.

(** ** The gain kernel as a whole *)

Lemma for_loop_indexed_invariant {St : Type} (body : nat → St → option St)
    (P : nat → St → Prop) (n : nat) :
  ∀ (start : nat) (s s' : St),
    (∀ i t t', (start <= i < start + n)%nat → P i t → body i t = Some t' →
       P (S i) t') →
    P start s → for_loop body start n s = Some s' → P (start + n)%nat s'.
Proof.
  induction n as [| n IH]; intros start s s' Hbody Hs Hrun; simpl in Hrun.
  - injection Hrun as <-. rewrite Nat.add_0_r. exact Hs.
  - destruct (body start s) as [s1|] eqn:E; simpl in Hrun; [|discriminate].
    replace (start + S n)%nat with (S start + n)%nat by lia.
    apply (IH (S start) s1 s'); [| |exact Hrun].
    + intros i t t' Hi. apply Hbody. lia.
    + apply (Hbody start s s1); [lia | exact Hs | exact E].
Qed.

Section GainKernelResult.
Context {sum_type : Type} `{SumType sum_type}.
Variable left_sum : list sum_type.
Variable fvalues : list float.
Variable segments : list Z.
Variable parent_sum_iter : list sum_type.
Variable parent_count_iter : list Z.
Variable parameters : GainFunctionParameters.

#[local] Abbreviation kernel_thread :=
  (gain_kernel_thread left_sum fvalues segments parent_sum_iter
     parent_count_iter parameters).
#[local] Abbreviation handled :=
  (gain_kernel_handled left_sum fvalues segments parent_sum_iter
     parent_count_iter parameters).
#[local] Abbreviation kernel_gain :=
  (gain_kernel_gain left_sum segments parent_sum_iter parent_count_iter
     parameters).

(** What thread [i] does to the result array. *)
Lemma gain_kernel_thread_effect (i : nat) (res res' : list my_atomics) :
  kernel_thread i res = Some res' →
  (res' = res
   ∧ (gain_kernel_test fvalues i = Some false
      ∨ ∃ segment gain,
          gain_kernel_test fvalues i = Some true
          ∧ kernel_gain i = Some (segment, gain)
          ∧ F32.ltb F32.zero gain = false))
  ∨ (∃ segment gain cell r,
       gain_kernel_test fvalues i = Some true
       ∧ kernel_gain i = Some (segment, gain)
       ∧ F32.ltb F32.zero gain = true
       ∧ at_index res segment = Some cell
       ∧ updateAtomicMax cell gain (Z.of_nat i) = Some r
       ∧ set_index res segment r.1 = Some res').
Proof.
  unfold gain_kernel_thread.
  destruct (gain_kernel_test fvalues i) as [[|]|]; monad_simpl;
    [| intros [= <-]; left; auto | discriminate].
  destruct (kernel_gain i) as [[segment gain]|]; monad_simpl; [|discriminate].
  unfold gain_kernel_record.
  destruct (F32.ltb F32.zero gain) eqn:Hpos.
  - destruct (at_index res segment) as [cell|] eqn:Hcell; monad_simpl;
      [|discriminate].
    destruct (updateAtomicMax cell gain (Z.of_nat i)) as [r|] eqn:Hr;
      monad_simpl; [|discriminate].
    intros Hset. right. exists segment, gain, cell, r.
    repeat split; first [assumption | reflexivity].
  - intros [= <-]. left. split; [reflexivity|]. right.
    exists segment, gain. auto.
Qed.

Hypothesis gains_valid :
  ∀ (i : nat) (segment : Z) (gain : float),
    kernel_gain i = Some (segment, gain) → F32.valid gain = true.

Lemma gain_kernel_handled_nonneg (k : nat) (res : list my_atomics)
    (segment : nat) (cell : my_atomics) (gain : float) :
  handled k res → res !! segment = Some cell →
  F32.ltb F32.zero gain = false → F32.ltb (floats0 cell) gain = false.
Proof.
  intros Hinv Hcell Hg.
  destruct (Hinv segment cell Hcell) as [[-> | (i & g & _ & _ & Hgi & Hpos & ->)] _].
  - exact Hg.
  - rewrite floats0_of_words by (apply (gains_valid _ _ _ Hgi)).
    apply (SFltb_grows _ _ _ Hg Hpos).
Qed.

Lemma gain_kernel_thread_handled (i : nat) (res res' : list my_atomics) :
  handled i res → kernel_thread i res = Some res' →
  handled (S i) res'.
Proof.
  intros Hinv Hstep. apply gain_kernel_thread_effect in Hstep.
  destruct Hstep as [[-> Hwhy] | (sg & g & cell & r & Ht & Hg & Hpos & Hcell
                                  & Hr & Hset)].
  - intros segment cell Hcell.
    destruct (Hinv segment cell Hcell) as [Hwho Hmax]. split.
    + destruct Hwho as [-> | (j & gj & Hj & Hrest)]; [left; reflexivity|].
      right. exists j, gj. split; [lia | exact Hrest].
    + intros j gj Hj Htj Hgj.
      destruct (Nat.eq_dec j i) as [-> | Hne]; [|apply (Hmax j gj); [lia | exact Htj | exact Hgj]].
      destruct Hwhy as [Hf | (sg & g & _ & Hg & Hnp)]; [congruence|].
      rewrite Hg in Hgj. injection Hgj as -> ->.
      apply (gain_kernel_handled_nonneg i res segment cell gj Hinv Hcell Hnp).
  - pose proof (gains_valid _ _ _ Hg) as Hv.
    rewrite updateAtomicMax_spec in Hr by exact Hv.
    apply (inj Some) in Hr. subst r.
    apply at_index_Some in Hcell. destruct Hcell as [Hsg Hcell].
    apply set_index_Some in Hset. destruct Hset as (_ & Hlen & ->).
    intros segment c Hc.
    destruct (Nat.eq_dec (Z.to_nat sg) segment) as [<- | Hne].
    + rewrite list_lookup_insert_eq in Hc by exact Hlen.
      apply (inj Some) in Hc. subst c.
      destruct (Hinv (Z.to_nat sg) cell Hcell) as [Hwho Hmax].
      rewrite Z2Nat.id in * by exact Hsg.
      destruct (F32.ltb (floats0 cell) g) eqn:Hlt; cbn [fst].
      * split.
        -- right. exists i, g. repeat split; auto.
        -- intros j gj Hj Htj Hgj.
           rewrite floats0_of_words by exact Hv.
           destruct (Nat.eq_dec j i) as [-> | Hnj].
           ++ rewrite Hg in Hgj. injection Hgj as <-. apply SFltb_irrefl.
           ++ apply (SFltb_grows (floats0 cell)); [|exact Hlt].
              apply (Hmax j gj); [lia | exact Htj | exact Hgj].
      * split.
        -- destruct Hwho as [-> | (j & gj & Hj & Hrest)]; [left; reflexivity|].
           right. exists j, gj. split; [lia | exact Hrest].
        -- intros j gj Hj Htj Hgj.
           destruct (Nat.eq_dec j i) as [-> | Hnj].
           ++ rewrite Hg in Hgj. injection Hgj as <-. exact Hlt.
           ++ apply (Hmax j gj); [lia | exact Htj | exact Hgj].
    + rewrite list_lookup_insert_ne in Hc by exact Hne.
      destruct (Hinv segment c Hc) as [Hwho Hmax]. split.
      * destruct Hwho as [-> | (j & gj & Hj & Hrest)]; [left; reflexivity|].
        right. exists j, gj. split; [lia | exact Hrest].
      * intros j gj Hj Htj Hgj.
        destruct (Nat.eq_dec j i) as [-> | Hnj]; [|apply (Hmax j gj); [lia | exact Htj | exact Hgj]].
        rewrite Hg in Hgj. injection Hgj as Hs _. lia.
Qed.

(** X7. The result of the gain kernel on zeroed cells, when the gains it
    evaluates are binary32 numbers: every cell is still zero or holds the
    gain and the sort position of a split of its segment that passed the
    test with a positive gain, and no split of the segment that passed the
    test has a gain above the one stored. *)
Theorem gain_kernel_argmax (n m : nat) (res' : list my_atomics) :
  gain_kernel left_sum fvalues segments parent_sum_iter parent_count_iter
    parameters n (replicate m 0) = Some res' →
  length res' = m ∧ handled n res'.
Proof.
  intros Hrun. unfold gain_kernel in Hrun.
  pose proof (for_loop_indexed_invariant kernel_thread
                (λ k res, length res = m ∧ handled k res)
                n 0 (replicate m 0) res') as Hloop.
  apply Hloop; [| |exact Hrun].
  - intros i t t' _ [Hlen Hinv] Hstep. split.
    + apply gain_kernel_thread_effect in Hstep.
      destruct Hstep as [[-> _] | (sg & g & cell & r & _ & _ & _ & _ & _ & Hset)];
        [exact Hlen|].
      apply set_index_Some in Hset. destruct Hset as (_ & _ & ->).
      rewrite length_insert. exact Hlen.
    + apply (gain_kernel_thread_handled i t t' Hinv Hstep).
  - split; [apply length_replicate|].
    intros segment cell Hcell. apply lookup_replicate in Hcell.
    destruct Hcell as [-> _]. split; [left; reflexivity|].
    intros i gain Hi. lia.
Qed.
End GainKernelResult.

Lemma gain_kernel_argmax_witness :
  length [scenario_cell] = 1%nat
  ∧ gain_kernel_handled (H := SumType_float) scenario_sum scenario_fvalue
      [0; 0; 0; 0] [F32.zero; F32.zero] [0; 4] scenario_params 4
      [scenario_cell].
Proof.
  apply (gain_kernel_argmax (H := SumType_float) scenario_sum scenario_fvalue
           [0; 0; 0; 0] [F32.zero; F32.zero] [0; 4] scenario_params).
  - intros i segment gain Hg.
    destruct i as [| [| [| [| i]]]]; vm_compute in Hg; try discriminate;
      injection Hg as <- <-; reflexivity.
  - exact scenario_gain_kernel.
Defined.

Lemma for_loop_total {St : Type} (body : nat → St → option St)
    (P : St → Prop) (n : nat) :
  ∀ (start : nat) (s : St),
    (∀ i t, (start <= i < start + n)%nat → P t →
       ∃ t', body i t = Some t' ∧ P t') →
    P s → ∃ s', for_loop body start n s = Some s' ∧ P s'.
Proof.
  induction n as [| n IH]; intros start s Hbody Hs.
  - exists s. split; [reflexivity | exact Hs].
  - destruct (Hbody start s ltac:(lia) Hs) as (s1 & Hs1 & HP1).
    destruct (IH (S start) s1) as (s' & Hrun & HP'); [|exact HP1|].
    + intros i t Hi. apply Hbody. lia.
    + exists s'. cbn [for_loop]. rewrite Hs1. monad_simpl. auto.
Qed.

Section GainKernelBounds.
Context {sum_type : Type} `{SumType sum_type}.
Variable left_sum : list sum_type.
Variable fvalues : list float.
Variable segments : list Z.
Variable parent_sum_iter : list sum_type.
Variable parent_count_iter : list Z.
Variable parameters : GainFunctionParameters.

(** X8. The gain kernel stays inside its arrays and returns when there
    are [n + 1] feature values, [n] scanned sums and [n] segments, every
    segment [s] is a leaf whose cell and whose entries [s] and [s + 1] of
    the two parent arrays exist, and the gains are binary32 numbers; the
    result array keeps its length. *)
Theorem gain_kernel_returns (n : nat) (res : list my_atomics) :
  (n < length fvalues)%nat →
  (n <= length left_sum)%nat →
  (n <= length segments)%nat →
  (∀ (i : nat) (s : Z), (i < n)%nat → segments !! i = Some s →
     0 <= s < Z.of_nat (length res)
     ∧ s + 1 < Z.of_nat (length parent_sum_iter)
     ∧ s + 1 < Z.of_nat (length parent_count_iter)) →
  (∀ (i : nat) (segment : Z) (gain : float),
     gain_kernel_gain left_sum segments parent_sum_iter parent_count_iter
       parameters i = Some (segment, gain) → F32.valid gain = true) →
  ∃ res' : list my_atomics,
    gain_kernel left_sum fvalues segments parent_sum_iter parent_count_iter
      parameters n res = Some res'
    ∧ length res' = length res.
Proof.
  intros Hfv Hls Hsg Hseg Hvalid. unfold gain_kernel.
  apply (for_loop_total _ (λ t, length t = length res)); [|reflexivity].
  intros i t Hi Ht.
  destruct (lookup_lt_is_Some_2 fvalues (S i) ltac:(lia)) as [a Ha].
  destruct (lookup_lt_is_Some_2 fvalues i ltac:(lia)) as [b Hb].
  destruct (lookup_lt_is_Some_2 segments i ltac:(lia)) as [s Hs].
  destruct (lookup_lt_is_Some_2 left_sum i ltac:(lia)) as [ls Hl].
  destruct (Hseg i s ltac:(lia) Hs) as (Hs0 & Hps & Hpc).
  assert (Hat : ∀ {A} (l : list A) (z : Z),
             0 <= z < Z.of_nat (length l) → ∃ x, at_index l z = Some x).
  { intros A l z Hz. unfold at_index. destruct (Z.ltb_spec z 0); [lia|].
    apply lookup_lt_is_Some_2. lia. }
  destruct (Hat _ parent_sum_iter s ltac:(lia)) as [ps0 Hps0].
  destruct (Hat _ parent_sum_iter (s + 1) ltac:(lia)) as [ps1 Hps1].
  destruct (Hat _ parent_count_iter s ltac:(lia)) as [pc0 Hpc0].
  destruct (Hat _ parent_count_iter (s + 1) ltac:(lia)) as [pc1 Hpc1].
  destruct (Hat _ t s ltac:(lia)) as [cell Hcell].
  unfold gain_kernel_thread, gain_kernel_test.
  rewrite Ha, Hb. monad_simpl.
  destruct (F32.neb a b); [|eauto].
  destruct (gain_kernel_gain left_sum segments parent_sum_iter
              parent_count_iter parameters i) as [[s' g]|] eqn:Hg.
  2: { unfold gain_kernel_gain in Hg. rewrite Hs in Hg. monad_simpl.
       cbn [mbind option_bind] in Hg. rewrite Hps0 in Hg.
       cbn [mbind option_bind] in Hg. rewrite Hl in Hg.
       cbn [mbind option_bind] in Hg. rewrite Hpc0 in Hg.
       cbn [mbind option_bind] in Hg. rewrite Hps1 in Hg.
       cbn [mbind option_bind] in Hg. rewrite Hpc1 in Hg.
       discriminate. }
  assert (s' = s).
  { unfold gain_kernel_gain in Hg. rewrite Hs in Hg.
    cbn [mbind option_bind] in Hg. rewrite Hps0 in Hg.
    cbn [mbind option_bind] in Hg. rewrite Hl in Hg.
    cbn [mbind option_bind] in Hg. rewrite Hpc0 in Hg.
    cbn [mbind option_bind] in Hg. rewrite Hps1 in Hg.
    cbn [mbind option_bind] in Hg. rewrite Hpc1 in Hg.
    cbn [mbind option_bind] in Hg. apply (inj Some) in Hg.
    apply (f_equal fst) in Hg. symmetry. exact Hg. }
  subst s'. monad_simpl. unfold gain_kernel_record.
  destruct (F32.ltb F32.zero g); [|eauto].
  rewrite Hcell. monad_simpl.
  rewrite updateAtomicMax_spec by (apply (Hvalid _ _ _ Hg)). monad_simpl.
  unfold set_index.
  destruct (Z.leb_spec 0 s); [|lia].
  destruct (Z.ltb_spec s (Z.of_nat (length t))); [|lia].
  cbn [andb]. eexists. split; [reflexivity|].
  rewrite length_insert. exact Ht.
Qed.
End GainKernelBounds.

Lemma gain_kernel_returns_witness :
  ∃ res' : list my_atomics,
    gain_kernel (H := SumType_float) scenario_sum scenario_fvalue [0; 0; 0; 0]
      [F32.zero; F32.zero] [0; 4] scenario_params 4 [0] = Some res'
    ∧ length res' = length [0].
Proof.
  apply gain_kernel_returns.
  - simpl. lia.
  - simpl. lia.
  - simpl. lia.
  - intros i s Hi Hs. simpl.
    destruct i as [| [| [| [| i]]]]; simpl in Hs; try lia;
      injection Hs as <-; lia.
  - intros i segment gain Hg.
    destruct i as [| [| [| [| i]]]]; vm_compute in Hg; try discriminate;
      injection Hg as <- <-; reflexivity.
Defined.

(** ** The dense reduction on the host *)

Section DenseReductionFrame.
Context {sum_type : Type} `{SumType sum_type}.
Implicit Types (b : Builder sum_type).

(** X9. [GetBestSplitForDenceFeature] writes nothing but the split records
    of the leaves below [lenght]: every other member of the builder and the
    number of records are kept. A record that changes takes the feature
    [active_fid] and a gain strictly above the one it had, and keeps its
    [split_by_true] flag. *)
Theorem GetBestSplitForDenceFeature_frame (active_fid : Z)
    (circular_fid lenght : nat) b b' :
  GetBestSplitForDenceFeature active_fid circular_fid lenght b = Some b' →
  (_rowIndex2Node b' = _rowIndex2Node b ∧ _nodeStat b' = _nodeStat b
   ∧ sum b' = sum b ∧ fvalue b' = fvalue b ∧ results_h b' = results_h b
   ∧ parent_node_sum_h b' = parent_node_sum_h b
   ∧ parent_node_count_h b' = parent_node_count_h b
   ∧ length (_bestSplit b') = length (_bestSplit b))
  ∧ (∀ i : nat, (lenght <= i)%nat → _bestSplit b' !! i = _bestSplit b !! i)
  ∧ (∀ (i : nat) (old new : Split.t sum_type),
       _bestSplit b !! i = Some old → _bestSplit b' !! i = Some new →
       new = old
       ∨ (Split.fid new = active_fid
          ∧ F32.ltb (Split.gain old) (Split.gain new) = true
          ∧ Split.split_by_true new = Split.split_by_true old)).
Proof.
  intros Hrun.
  assert (Hframe :
    (_rowIndex2Node b' = _rowIndex2Node b ∧ _nodeStat b' = _nodeStat b
     ∧ sum b' = sum b ∧ fvalue b' = fvalue b ∧ results_h b' = results_h b
     ∧ parent_node_sum_h b' = parent_node_sum_h b
     ∧ parent_node_count_h b' = parent_node_count_h b
     ∧ length (_bestSplit b') = length (_bestSplit b))
    ∧ (∀ i : nat, (lenght <= i)%nat →
         _bestSplit b' !! i = _bestSplit b !! i)).
  { apply (for_loop_invariant
             (GetBestSplitForDenceFeature_leaf active_fid circular_fid)
             (λ t, (_rowIndex2Node t = _rowIndex2Node b
                    ∧ _nodeStat t = _nodeStat b
                    ∧ sum t = sum b ∧ fvalue t = fvalue b
                    ∧ results_h t = results_h b
                    ∧ parent_node_sum_h t = parent_node_sum_h b
                    ∧ parent_node_count_h t = parent_node_count_h b
                    ∧ length (_bestSplit t) = length (_bestSplit b))
                   ∧ (∀ i : nat, (lenght <= i)%nat →
                        _bestSplit t !! i = _bestSplit b !! i))
             lenght 0 b b'); [|repeat split; reflexivity|exact Hrun].
    intros j t t' Hj [Hfields Hrest] Hstep.
    apply GetBestSplitForDenceFeature_leaf_cases in Hstep.
    destruct Hstep; try (split; assumption).
    cbn [set_bestSplit _rowIndex2Node _nodeStat sum fvalue results_h
         parent_node_sum_h parent_node_count_h _bestSplit].
    rewrite length_insert. split; [exact Hfields|].
    intros i Hi. rewrite list_lookup_insert_ne by lia. apply Hrest, Hi. }
  destruct Hframe as [Hfields Hrest].
  split; [exact Hfields|]. split; [exact Hrest|].
  intros i old new Hold Hnew.
  destruct (Nat.lt_ge_cases i lenght) as [Hi | Hi].
  2: { rewrite (Hrest i Hi), Hold in Hnew. left. congruence. }
  destruct (GetBestSplitForDenceFeature_at_leaf _ _ _ _ _ _ Hi Hrun)
    as (bi & Hcase & Hsame).
  destruct Hsame as (_ & _ & _ & _ & _ & _ & _ & _ & Hbs).
  rewrite <- Hbs in Hnew. clear Hbs.
  destruct Hcase as
    [ns Hns Hc
    | ns sr cell best Hns Hc Hres Hcell Hbest Hlt
    | ns sr cell best ss s Hns Hc Hres Hcell Hbest Hlt Hsum Hs Hnan
    | ns sr cell best ss s sf fp fv pc ps Hns Hc Hres Hcell Hbest Hlt Hsum
        Hs Hnan Hfv Hfp Hfn Hpc Hps];
    try (left; congruence).
  right. cbn [set_bestSplit _bestSplit] in Hnew.
  rewrite list_lookup_insert_eq in Hnew
    by (apply lookup_lt_is_Some; eauto).
  apply (inj Some) in Hnew. subst new.
  assert (best = old) by congruence. subst best.
  cbn [accepted_split Split.fid Split.gain Split.split_by_true]. auto.
Qed.

(** X10. [GetBestSplitForDenceFeature] returns when the per-leaf vectors
    have [lenght] entries, the slot exists, and the sort index in every
    result cell is one the gain kernel can have written: non-negative and
    below the number of scanned sums, with a feature value after it. *)
Theorem GetBestSplitForDenceFeature_returns (active_fid : Z)
    (circular_fid lenght : nat) b (slot_results : list my_atomics)
    (slot_sum : list sum_type) (slot_fvalue : list float) :
  (lenght <= length (_nodeStat b))%nat →
  (lenght <= length (_bestSplit b))%nat →
  (lenght <= length (parent_node_count_h b))%nat →
  (lenght <= length (parent_node_sum_h b))%nat →
  results_h b !! circular_fid = Some slot_results →
  sum b !! circular_fid = Some slot_sum →
  fvalue b !! circular_fid = Some slot_fvalue →
  (lenght <= length slot_results)%nat →
  (∀ (i : nat) (cell : my_atomics), slot_results !! i = Some cell →
     0 <= int_of_uint (ints1 cell) < Z.of_nat (length slot_sum)
     ∧ int_of_uint (ints1 cell) + 1 < Z.of_nat (length slot_fvalue)) →
  ∃ b', GetBestSplitForDenceFeature active_fid circular_fid lenght b = Some b'.
Proof.
  intros Hns Hbs Hpc Hps Hres Hsum Hfv Hlen Hcells.
  destruct (for_loop_total
              (GetBestSplitForDenceFeature_leaf active_fid circular_fid)
              (λ t, _nodeStat t = _nodeStat b ∧ sum t = sum b
                    ∧ fvalue t = fvalue b ∧ results_h t = results_h b
                    ∧ parent_node_sum_h t = parent_node_sum_h b
                    ∧ parent_node_count_h t = parent_node_count_h b
                    ∧ length (_bestSplit t) = length (_bestSplit b))
              lenght 0 b) as (b' & Hrun & _);
    [|repeat split; reflexivity|exists b'; exact Hrun].
  intros i t Hi (E1 & E2 & E3 & E4 & E5 & E6 & E7).
  assert (Hat : ∀ {A} (l : list A) (z : Z),
             0 <= z < Z.of_nat (length l) → ∃ x, at_index l z = Some x).
  { intros A l z Hz. unfold at_index. destruct (Z.ltb_spec z 0); [lia|].
    apply lookup_lt_is_Some_2. lia. }
  destruct (lookup_lt_is_Some_2 (_nodeStat b) i ltac:(lia)) as [ns Hn].
  destruct (lookup_lt_is_Some_2 slot_results i ltac:(lia)) as [cell Hcell].
  destruct (lookup_lt_is_Some_2 (_bestSplit t) i ltac:(lia)) as [best Hbest].
  destruct (lookup_lt_is_Some_2 (parent_node_count_h b) i ltac:(lia))
    as [pc Hpc'].
  destruct (lookup_lt_is_Some_2 (parent_node_sum_h b) i ltac:(lia))
    as [ps Hps'].
  destruct (Hcells i cell Hcell) as [Hidx Hidx1].
  destruct (Hat _ slot_sum _ Hidx) as [s Hs].
  destruct (Hat _ slot_fvalue (int_of_uint (ints1 cell)) ltac:(lia))
    as [fp Hfp].
  destruct (Hat _ slot_fvalue (int_of_uint (ints1 cell) + 1) ltac:(lia))
    as [fn Hfn].
  assert (Hkeep : ∀ t', (t' = t ∨ ∃ x, t' = set_bestSplit t
                                            (<[i := x]> (_bestSplit t))) →
            _nodeStat t' = _nodeStat b ∧ sum t' = sum b
            ∧ fvalue t' = fvalue b ∧ results_h t' = results_h b
            ∧ parent_node_sum_h t' = parent_node_sum_h b
            ∧ parent_node_count_h t' = parent_node_count_h b
            ∧ length (_bestSplit t') = length (_bestSplit b)).
  { intros t' [-> | [x ->]]; [tauto|].
    cbn [set_bestSplit _nodeStat sum fvalue results_h parent_node_sum_h
         parent_node_count_h _bestSplit].
    rewrite length_insert. tauto. }
  unfold GetBestSplitForDenceFeature_leaf.
  rewrite E1, Hn. monad_simpl.
  destruct (NodeStat.count ns <=? 0); [eauto|].
  rewrite E4, Hres. monad_simpl. rewrite Hcell. monad_simpl.
  rewrite Hbest. monad_simpl.
  destruct (F32.ltb (Split.gain best) (floats0 cell)); [|eauto].
  rewrite E2, Hsum. monad_simpl. rewrite Hs. monad_simpl.
  destruct (_isnan s); monad_simpl; [eauto|].
  rewrite E3, Hfv. monad_simpl. rewrite Hfp. monad_simpl.
  rewrite Hfn. monad_simpl. rewrite E6, Hpc'. monad_simpl.
  rewrite E5, Hps'. monad_simpl.
  eexists. split; [reflexivity|]. apply Hkeep. right. eauto.
Qed.
End DenseReductionFrame.

Lemma GetBestSplitForDenceFeature_frame_witness :
  ∃ b', GetBestSplitForDenceFeature (H := SumType_float) 0 0 1
          (scenario_builder 4 [scenario_cell]) = Some b'
        ∧ _nodeStat b' = _nodeStat (scenario_builder 4 [scenario_cell])
        ∧ ∀ i : nat, (1 <= i)%nat →
            _bestSplit b' !! i
            = _bestSplit (scenario_builder 4 [scenario_cell]) !! i.
Proof.
  destruct (GetBestSplitForDenceFeature (H := SumType_float) 0 0 1
              (scenario_builder 4 [scenario_cell])) as [b'|] eqn:Hrun;
    [|vm_compute in Hrun; discriminate].
  exists b'. split; [reflexivity|].
  destruct (GetBestSplitForDenceFeature_frame 0 0 1 _ b' Hrun)
    as ((_ & Hns & _) & Hrest & _).
  split; [exact Hns | exact Hrest].
Defined.

Lemma GetBestSplitForDenceFeature_returns_witness :
  ∃ b', GetBestSplitForDenceFeature (H := SumType_float) 0 0 1
          (scenario_builder 4 [scenario_cell]) = Some b'.
Proof.
  apply (GetBestSplitForDenceFeature_returns (H := SumType_float) 0 0 1
           (scenario_builder 4 [scenario_cell]) [scenario_cell] scenario_sum
           scenario_fvalue); try reflexivity; try (simpl; lia).
  intros i cell Hcell. destruct i as [| i]; simpl in Hcell; [|discriminate].
  injection Hcell as <-. vm_compute. repeat split; discriminate.
Defined.

(** ** Finishing a level *)

Lemma for_loop_fixed {St : Type} (body : nat → St → option St) (s : St)
    (n : nat) :
  ∀ start : nat,
    (∀ i, (start <= i < start + n)%nat → body i s = Some s) →
    for_loop body start n s = Some s.
Proof.
  induction n as [| n IH]; intros start Hbody; [reflexivity|].
  cbn [for_loop]. rewrite Hbody by lia. monad_simpl.
  apply IH. intros i Hi. apply Hbody. lia.
Qed.

Section FinishProperties.
Context {sum_type : Type} `{SumType sum_type}.
Implicit Types (b : Builder sum_type).

(** The last loop of [FindBestSplits] leaves a feature id from 0 on in
    every record below [lenght]. *)
Lemma FindBestSplits_finish_nonneg (lenght i : nat) b b' :
  FindBestSplits_finish lenght b = Some b' → (i < lenght)%nat →
  ∃ sp, _bestSplit b' !! i = Some sp ∧ 0 <= Split.fid sp.
Proof.
  intros Hrun Hi.
  destruct (FindBestSplits_finish_at_leaf lenght i b b' Hi Hrun)
    as (sp & Hs & [[Hpos Hres] | (Hneg & ns & Hn & Hres)]).
  - exists sp. auto.
  - eexists. split; [exact Hres|]. cbn [degenerate_split Split.fid]. lia.
Qed.

(** X11. After the last loop of [FindBestSplits] no leaf below [lenght]
    is left without a split: every record has [fid >= 0]; the records from
    [lenght] on and the leaf statistics are untouched; and running the
    loop again changes nothing. *)
Theorem FindBestSplits_finish_complete (lenght : nat) b b' :
  FindBestSplits_finish lenght b = Some b' →
  (∀ i : nat, (i < lenght)%nat →
     ∃ sp, _bestSplit b' !! i = Some sp ∧ 0 <= Split.fid sp)
  ∧ (∀ i : nat, (lenght <= i)%nat → _bestSplit b' !! i = _bestSplit b !! i)
  ∧ _nodeStat b' = _nodeStat b
  ∧ FindBestSplits_finish lenght b' = Some b'.
Proof.
  intros Hrun.
  assert (Hall : ∀ i : nat, (i < lenght)%nat →
            ∃ sp, _bestSplit b' !! i = Some sp ∧ 0 <= Split.fid sp).
  { intros i Hi. exact (FindBestSplits_finish_nonneg lenght i b b' Hrun Hi). }
  assert (Hframe : (∀ i : nat, (lenght <= i)%nat →
                      _bestSplit b' !! i = _bestSplit b !! i)
                   ∧ _nodeStat b' = _nodeStat b).
  { apply (for_loop_invariant FindBestSplits_finish_leaf
             (λ t, (∀ i : nat, (lenght <= i)%nat →
                      _bestSplit t !! i = _bestSplit b !! i)
                   ∧ _nodeStat t = _nodeStat b) lenght 0 b b');
      [|split; reflexivity|exact Hrun].
    intros j t t' Hj [Hrest Hns] Hstep.
    apply FindBestSplits_finish_leaf_cases in Hstep.
    destruct Hstep as (sp & _ & [[_ ->] | (_ & ns & _ & ->)]); [auto|].
    cbn [set_bestSplit _bestSplit _nodeStat]. split; [|exact Hns].
    intros i Hi. rewrite list_lookup_insert_ne by lia. apply Hrest, Hi. }
  destruct Hframe as [Hrest Hns].
  split; [exact Hall|]. split; [exact Hrest|]. split; [exact Hns|].
  apply for_loop_fixed. intros i Hi.
  destruct (Hall i ltac:(lia)) as (sp & Hs & Hpos).
  unfold FindBestSplits_finish_leaf. rewrite Hs. monad_simpl.
  destruct (Z.ltb_spec (Split.fid sp) 0); [lia | reflexivity].
Qed.
End FinishProperties.

Lemma FindBestSplits_finish_complete_witness :
  ∃ b', FindBestSplits_finish 1 unclaimed_builder = Some b'
        ∧ (∀ i : nat, (i < 1)%nat →
             ∃ sp, _bestSplit b' !! i = Some sp ∧ 0 <= Split.fid sp)
        ∧ FindBestSplits_finish 1 b' = Some b'.
Proof.
  destruct (FindBestSplits_finish 1 unclaimed_builder) as [b'|] eqn:Hrun;
    [|vm_compute in Hrun; discriminate].
  exists b'. split; [reflexivity|].
  destruct (FindBestSplits_finish_complete 1 unclaimed_builder b' Hrun)
    as (Hall & _ & _ & Hidem).
  split; [exact Hall | exact Hidem].
Defined.

Section UpdateTreeProperties.
Context {sum_type : Type} `{SumType sum_type}.
Variable HeapOffset : Z → Z.
Implicit Types (b : Builder sum_type).

Lemma UpdateTree_leaf_Some (level : Z) b (i : nat) (nodes nodes' : list Node) :
  UpdateTree_leaf HeapOffset level b i nodes = Some nodes' →
  ∃ best,
    _bestSplit b !! i = Some best
    ∧ 0 <= Z.of_nat i + HeapOffset level
    ∧ (Z.to_nat (Z.of_nat i + HeapOffset level) < length nodes)%nat
    ∧ nodes' = <[Z.to_nat (Z.of_nat i + HeapOffset level) :=
                   {| node_threshold := Split.split_value best;
                      node_split_by_true := Split.split_by_true best;
                      node_fid := if Split.fid best <? 0 then 0
                                  else Split.fid best |}]> nodes.
Proof.
  unfold UpdateTree_leaf.
  destruct (_bestSplit b !! i) as [best|]; monad_simpl; [|discriminate].
  intros Hset. apply set_index_Some in Hset. exists best. tauto.
Qed.

(** X12. [UpdateTree] writes the nodes of one level and only those: the
    node count is kept, node [i + offset] receives the threshold, the flag
    and the feature of the split of leaf [i] (feature 0 when the record is
    unset), and every node outside the level keeps its content. Called
    after the last loop of [FindBestSplits], it writes the feature of the
    record as it is. *)
Theorem UpdateTree_level (level : Z) b (nodes nodes' : list Node) :
  UpdateTree HeapOffset level b nodes = Some nodes' →
  length nodes' = length nodes
  ∧ (∀ i : nat, (i < Z.to_nat (2 ^ level))%nat →
       ∃ best,
         _bestSplit b !! i = Some best
         ∧ 0 <= Z.of_nat i + HeapOffset level
         ∧ nodes' !! Z.to_nat (Z.of_nat i + HeapOffset level)
           = Some {| node_threshold := Split.split_value best;
                     node_split_by_true := Split.split_by_true best;
                     node_fid := if Split.fid best <? 0 then 0
                                 else Split.fid best |}
         ∧ (∀ b0, FindBestSplits_finish (Z.to_nat (2 ^ level)) b0 = Some b →
              0 <= Split.fid best
              ∧ (if Split.fid best <? 0 then 0 else Split.fid best)
                = Split.fid best))
  ∧ (∀ k : nat,
       (Z.of_nat k < HeapOffset level
        ∨ HeapOffset level + 2 ^ level <= Z.of_nat k) →
       nodes' !! k = nodes !! k).
Proof.
  intros Hrun. unfold UpdateTree in Hrun.
  set (n := Z.to_nat (2 ^ level)) in *.
  assert (Hn : Z.of_nat n <= 2 ^ level ∨ (n = 0)%nat).
  { subst n. destruct (Z.le_gt_cases 0 (2 ^ level)); [left|right]; lia. }
  pose proof (for_loop_indexed_invariant (UpdateTree_leaf HeapOffset level b)
    (λ k t, length t = length nodes
            ∧ (∀ i : nat, (i < k)%nat →
                 ∃ best,
                   _bestSplit b !! i = Some best
                   ∧ 0 <= Z.of_nat i + HeapOffset level
                   ∧ t !! Z.to_nat (Z.of_nat i + HeapOffset level)
                     = Some {| node_threshold := Split.split_value best;
                               node_split_by_true := Split.split_by_true best;
                               node_fid := if Split.fid best <? 0 then 0
                                           else Split.fid best |})
            ∧ (∀ j : nat,
                 (Z.of_nat j < HeapOffset level
                  ∨ HeapOffset level + Z.of_nat k <= Z.of_nat j) →
                 t !! j = nodes !! j))
    n 0 nodes nodes') as Hloop.
  destruct Hloop as (Hlen & Hval & Hrest); [| |exact Hrun|].
  - intros i t t' Hi (Hlen & Hval & Hrest) Hstep.
    apply UpdateTree_leaf_Some in Hstep.
    destruct Hstep as (best & Hbest & Hidx & Hin & ->).
    split; [rewrite length_insert; exact Hlen|]. split.
    + intros i' Hi'. destruct (Nat.eq_dec i' i) as [-> | Hne].
      * exists best. split; [exact Hbest|]. split; [exact Hidx|].
        apply list_lookup_insert_eq, Hin.
      * destruct (Hval i' ltac:(lia)) as (best' & Hb' & Hidx' & Hnode').
        exists best'. split; [exact Hb'|]. split; [exact Hidx'|].
        rewrite list_lookup_insert_ne by lia. exact Hnode'.
    + intros j Hj. rewrite list_lookup_insert_ne by lia.
      apply Hrest. lia.
  - split; [reflexivity|]. split; [intros i Hi; lia | auto].
  - split; [exact Hlen|]. split.
    + intros i Hi. destruct (Hval i Hi) as (best & Hbest & Hidx & Hnode).
      exists best. split; [exact Hbest|]. split; [exact Hidx|].
      split; [exact Hnode|].
      intros b0 Hfin.
      destruct (FindBestSplits_finish_nonneg _ i b0 b Hfin Hi)
        as (sp & Hsp & Hpos).
      assert (sp = best) by congruence. subst sp.
      split; [exact Hpos|].
      destruct (Z.ltb_spec (Split.fid best) 0); [lia | reflexivity].
    + intros k Hk. apply Hrest. simpl in *. lia.
Qed.
End UpdateTreeProperties.

Lemma UpdateTree_level_witness :
  let b := set_bestSplit unclaimed_builder
             [degenerate_split (clean_split (H := SumType_float))
                (NodeStat.Build 2 (F32.of_Z 3) F32.zero)] in
  let blank := {| node_threshold := F32.zero; node_split_by_true := false;
                  node_fid := 7 |} in
  ∃ nodes',
    UpdateTree (λ level, 2 ^ level - 1) 0 b [blank; blank; blank] = Some nodes'
    ∧ length nodes' = 3%nat
    ∧ nodes' !! 1%nat = Some blank.
Proof.
  intros b blank.
  destruct (UpdateTree (λ level, 2 ^ level - 1) 0 b [blank; blank; blank])
    as [nodes'|] eqn:Hrun; [|vm_compute in Hrun; discriminate].
  exists nodes'. split; [reflexivity|].
  destruct (UpdateTree_level (λ level, 2 ^ level - 1) 0 b _ _ Hrun)
    as (Hlen & _ & Hrest).
  split; [exact Hlen|].
  rewrite (Hrest 1%nat); [reflexivity|]. right. simpl. lia.
Defined.

(** ** The parent prefix arrays *)

Section PrefixProperties.
Context {sum_type : Type} `{SumType sum_type} `{SumAdd sum_type}.
Implicit Types (b : Builder sum_type).

Lemma FindBestSplits_prefix_leaf_Some (i : nat) b b' :
  FindBestSplits_prefix_leaf i b = Some b' →
  ∃ count_i node_stat sum_i,
    parent_node_count_h b !! i = Some count_i
    ∧ _nodeStat b !! i = Some node_stat
    ∧ parent_node_sum_h b !! i = Some sum_i
    ∧ (S i < length (parent_node_count_h b))%nat
    ∧ (S i < length (parent_node_sum_h b))%nat
    ∧ b' = set_parents b
             (<[S i := sum_add sum_i (NodeStat.sum_grad node_stat)]>
                (parent_node_sum_h b))
             (<[S i := wrap32 (count_i + NodeStat.count node_stat)]>
                (parent_node_count_h b)).
Proof.
  unfold FindBestSplits_prefix_leaf.
  destruct (parent_node_count_h b !! i) as [count_i|]; monad_simpl;
    [|discriminate].
  destruct (_nodeStat b !! i) as [node_stat|]; monad_simpl; [|discriminate].
  destruct (set_index (parent_node_count_h b) _ _) as [counts|] eqn:Hc;
    monad_simpl; [|discriminate].
  destruct (parent_node_sum_h b !! i) as [sum_i|]; monad_simpl;
    [|discriminate].
  destruct (set_index (parent_node_sum_h b) _ _) as [sums|] eqn:Hs;
    monad_simpl; [|discriminate].
  intros [= <-]. apply set_index_Some in Hc, Hs.
  destruct Hc as (_ & Hc1 & ->). destruct Hs as (_ & Hs1 & ->).
  replace (Z.to_nat (Z.of_nat i + 1)) with (S i) in * by lia.
  exists count_i, node_stat, sum_i. auto 10.
Qed.

(** X13. The prefix arrays built at the head of [FindBestSplits]: entry 0
    is 0 (the initial value of the sum type), entry [k + 1] is entry [k]
    plus the count (the gradient sum) of leaf [k], the counts being added
    as [unsigned int], so that the difference of two neighbours is the
    count of the leaf modulo [2^32]; the entries above [lenght] and the
    leaf statistics and split records are untouched. *)
Theorem FindBestSplits_prefix_totals (lenght : nat) b b' :
  FindBestSplits_prefix lenght b = Some b' →
  parent_node_count_h b' !! 0%nat = Some 0
  ∧ parent_node_sum_h b' !! 0%nat = Some init
  ∧ (∀ k : nat, (k < lenght)%nat →
       ∃ count_k sum_k node_stat,
         _nodeStat b !! k = Some node_stat
         ∧ parent_node_count_h b' !! k = Some count_k
         ∧ parent_node_count_h b' !! S k
           = Some (wrap32 (count_k + NodeStat.count node_stat))
         ∧ wrap32 (wrap32 (count_k + NodeStat.count node_stat) - count_k)
           = wrap32 (NodeStat.count node_stat)
         ∧ parent_node_sum_h b' !! k = Some sum_k
         ∧ parent_node_sum_h b' !! S k
           = Some (sum_add sum_k (NodeStat.sum_grad node_stat)))
  ∧ (∀ k : nat, (lenght < k)%nat →
       parent_node_count_h b' !! k = parent_node_count_h b !! k
       ∧ parent_node_sum_h b' !! k = parent_node_sum_h b !! k)
  ∧ _nodeStat b' = _nodeStat b ∧ _bestSplit b' = _bestSplit b
  ∧ length (parent_node_count_h b') = length (parent_node_count_h b)
  ∧ length (parent_node_sum_h b') = length (parent_node_sum_h b).
Proof.
  unfold FindBestSplits_prefix.
  destruct (set_index (parent_node_sum_h b) 0 init) as [sums0|] eqn:Hs0;
    monad_simpl; [|discriminate].
  destruct (set_index (parent_node_count_h b) 0 0) as [counts0|] eqn:Hc0;
    monad_simpl; [|discriminate].
  apply set_index_Some in Hs0, Hc0.
  destruct Hs0 as (_ & Hs0 & ->). destruct Hc0 as (_ & Hc0 & ->).
  change (Z.to_nat 0) with 0%nat in *.
  intros Hrun.
  pose proof (for_loop_indexed_invariant FindBestSplits_prefix_leaf
    (λ n t,
       parent_node_count_h t !! 0%nat = Some 0
       ∧ parent_node_sum_h t !! 0%nat = Some init
       ∧ (∀ k : nat, (k < n)%nat →
            ∃ count_k sum_k node_stat,
              _nodeStat b !! k = Some node_stat
              ∧ parent_node_count_h t !! k = Some count_k
              ∧ parent_node_count_h t !! S k
                = Some (wrap32 (count_k + NodeStat.count node_stat))
              ∧ parent_node_sum_h t !! k = Some sum_k
              ∧ parent_node_sum_h t !! S k
                = Some (sum_add sum_k (NodeStat.sum_grad node_stat)))
       ∧ (∀ k : nat, (n < k)%nat →
            parent_node_count_h t !! k = parent_node_count_h b !! k
            ∧ parent_node_sum_h t !! k = parent_node_sum_h b !! k)
       ∧ _nodeStat t = _nodeStat b ∧ _bestSplit t = _bestSplit b
       ∧ length (parent_node_count_h t) = length (parent_node_count_h b)
       ∧ length (parent_node_sum_h t) = length (parent_node_sum_h b))
    lenght 0
    (set_parents b (<[0%nat := init]> (parent_node_sum_h b))
       (<[0%nat := 0]> (parent_node_count_h b))) b') as Hloop.
  cbv beta in Hloop.
  destruct Hloop as (Hz0 & Hz1 & Hk & Hrest & Hns & Hbs & Hlc & Hls);
    [| |exact Hrun|].
  - intros i t t' _ (Hz0 & Hz1 & Hk & Hrest & Hns & Hbs & Hlc & Hls) Hstep.
    apply FindBestSplits_prefix_leaf_Some in Hstep.
    destruct Hstep as (ci & ns & si & Hci & Hnsi & Hsi & Hlc' & Hls' & ->).
    cbn [set_parents parent_node_count_h parent_node_sum_h _nodeStat
         _bestSplit].
    rewrite !length_insert.
    rewrite !(list_lookup_insert_ne _ (S i) 0) by lia.
    repeat split; try assumption.
    + intros k Hklt. destruct (Nat.eq_dec k i) as [-> | Hne].
      * exists ci, si, ns. rewrite Hns in Hnsi.
        rewrite !(list_lookup_insert_ne _ (S i) i) by lia.
        rewrite !list_lookup_insert_eq by lia. auto 10.
      * destruct (Hk k ltac:(lia)) as (ck & sk & nk & E1 & E2 & E3 & E4 & E5).
        exists ck, sk, nk.
        rewrite !(list_lookup_insert_ne _ (S i) k) by lia.
        rewrite !(list_lookup_insert_ne _ (S i) (S k)) by lia. auto 10.
    + rewrite list_lookup_insert_ne by lia. apply Hrest. lia.
    + rewrite list_lookup_insert_ne by lia. apply Hrest. lia.
  - cbn [set_parents parent_node_count_h parent_node_sum_h _nodeStat
         _bestSplit].
    rewrite !length_insert, !list_lookup_insert_eq by lia.
    repeat split; try reflexivity; try (intros k Hk; lia);
      rewrite list_lookup_insert_ne by lia; reflexivity.
  - split; [exact Hz0|]. split; [exact Hz1|]. split; [|auto 10].
    intros k Hklt.
    destruct (Hk k Hklt) as (ck & sk & nk & E1 & E2 & E3 & E4 & E5).
    exists ck, sk, nk. repeat split; try assumption.
    unfold wrap32. rewrite Zminus_mod_idemp_l. f_equal. lia.
Qed.
End PrefixProperties.

Lemma FindBestSplits_prefix_totals_witness :
  ∃ b', FindBestSplits_prefix (H := SumType_float) (H0 := SumAdd_float) 1
          unclaimed_builder = Some b'
        ∧ parent_node_count_h b' !! 0%nat = Some 0
        ∧ parent_node_count_h b' = [0; 2].
Proof.
  destruct (FindBestSplits_prefix (H := SumType_float) (H0 := SumAdd_float) 1
              unclaimed_builder) as [b'|] eqn:Hrun;
    [|vm_compute in Hrun; discriminate].
  exists b'. split; [reflexivity|].
  destruct (FindBestSplits_prefix_totals 1 unclaimed_builder b' Hrun)
    as (H0 & _).
  split; [exact H0|].
  vm_compute in Hrun. injection Hrun as <-. reflexivity.
Defined.

(** ** The sparse reduction on the host *)

Section SparseReduction.
Context {sum_type : Type} `{SumType sum_type}.
Implicit Types (b : Builder sum_type).
Variable sparse_stat : list (list Z).
Variable gain_param : GainFunctionParameters.
Variable active_fid columns_dense : Z.
Variable circular_fid : nat.

#[local] Abbreviation sparse_leaf :=
  (GetBestSplitForSparseFeature_leaf sparse_stat gain_param active_fid
     columns_dense circular_fid).

(** The record written when a sparse feature is accepted for a leaf. *)
Lemma GetBestSplitForSparseFeature_leaf_cases (i : nat) b b' :
  sparse_leaf i b = Some b' →
  ∃ stat true_count,
    at_index sparse_stat active_fid = Some stat
    ∧ stat !! i = Some true_count
    ∧ ((true_count = 0 ∧ b' = b)
       ∨ (true_count ≠ 0
          ∧ ∃ slot_sum sum_true,
              sum b !! circular_fid = Some slot_sum
              ∧ slot_sum !! i = Some sum_true
              ∧ ((_isnan sum_true = true ∧ b' = b)
                 ∨ (_isnan sum_true = false
                    ∧ ∃ node_stat best,
                        _nodeStat b !! i = Some node_stat
                        ∧ _bestSplit b !! i = Some best
                        ∧ ((F32.ltb (Split.gain best)
                              (gain_func sum_true (NodeStat.sum_grad node_stat)
                                 true_count (wrap64 (NodeStat.count node_stat))
                                 gain_param) = false
                            ∧ b' = b)
                           ∨ (F32.ltb (Split.gain best)
                                (gain_func sum_true
                                   (NodeStat.sum_grad node_stat) true_count
                                   (wrap64 (NodeStat.count node_stat))
                                   gain_param) = true
                              ∧ b' = set_bestSplit b
                                  (<[i := {| Split.fid :=
                                               int_of_uint
                                                 (wrap32 (active_fid
                                                          + columns_dense));
                                             Split.gain :=
                                               gain_func sum_true
                                                 (NodeStat.sum_grad node_stat)
                                                 true_count
                                                 (wrap64
                                                    (NodeStat.count node_stat))
                                                 gain_param;
                                             Split.split_value :=
                                               Split.split_value best;
                                             Split.split_by_true := true;
                                             Split.count := true_count;
                                             Split.sum_grad := sum_true |}]>
                                     (_bestSplit b)))))))).
Proof.
  unfold GetBestSplitForSparseFeature_leaf.
  destruct (at_index sparse_stat active_fid) as [stat|]; monad_simpl;
    [|discriminate].
  destruct (stat !! i) as [true_count|] eqn:Htc; monad_simpl;
    [|discriminate].
  destruct (Z.eqb_spec true_count 0) as [Hz | Hne].
  { intros Hrun. apply (inj Some) in Hrun. subst b'.
    exists stat, true_count. auto. }
  destruct (sum b !! circular_fid) as [slot_sum|]; monad_simpl;
    [|discriminate].
  destruct (slot_sum !! i) as [sum_true|] eqn:Hst; monad_simpl;
    [|discriminate].
  destruct (_isnan sum_true) eqn:Hnan; monad_simpl.
  { intros Hrun. apply (inj Some) in Hrun. subst b'.
    exists stat, true_count. do 2 (split; [reflexivity || assumption|]).
    right. split; [exact Hne|]. exists slot_sum, sum_true. auto. }
  destruct (_nodeStat b !! i) as [node_stat|]; monad_simpl; [|discriminate].
  destruct (_bestSplit b !! i) as [best|]; monad_simpl; [|discriminate].
  destruct (F32.ltb (Split.gain best) _) eqn:Hlt;
    intros Hrun; apply (inj Some) in Hrun; subst b';
    exists stat, true_count; (do 2 (split; [reflexivity || assumption|]));
    right; (split; [exact Hne|]); exists slot_sum, sum_true;
    (do 2 (split; [reflexivity || assumption|]));
    right; (split; [exact Hnan|]); exists node_stat, best;
    (do 2 (split; [reflexivity|])); [right | left]; auto.
Qed.

Lemma GetBestSplitForSparseFeature_leaf_shape (i : nat) b b' :
  sparse_leaf i b = Some b' →
  b' = b ∨ ∃ x, b' = set_bestSplit b (<[i := x]> (_bestSplit b)).
Proof.
  intros Hrun. apply GetBestSplitForSparseFeature_leaf_cases in Hrun.
  destruct Hrun as (stat & tc & _ & _ & [[_ ->] | (_ & ss & st & _ & _ & Hr)]);
    [auto|].
  destruct Hr as [[_ ->] | (_ & ns & best & _ & _ & [[_ ->] | [_ ->]])]; eauto.
Qed.

Lemma GetBestSplitForSparseFeature_leaf_frame (i j : nat) b b' :
  j ≠ i → sparse_leaf j b = Some b' → same_at_leaf i b b'.
Proof.
  intros Hne Hrun. apply GetBestSplitForSparseFeature_leaf_shape in Hrun.
  destruct Hrun as [-> | [x ->]]; [reflexivity|].
  apply same_at_leaf_set_other, Hne.
Qed.

Lemma GetBestSplitForSparseFeature_leaf_cong (i : nat) b1 b2 b1' :
  same_at_leaf i b1 b2 → sparse_leaf i b1 = Some b1' →
  ∃ b2', sparse_leaf i b2 = Some b2' ∧ same_at_leaf i b1' b2'.
Proof.
  intros Hsame.
  pose proof Hsame as (_ & Hns & Hsum & _ & _ & _ & _ & _ & Hbs).
  unfold GetBestSplitForSparseFeature_leaf.
  rewrite <- Hns, <- Hsum, <- Hbs.
  destruct (at_index sparse_stat active_fid) as [stat|]; monad_simpl;
    [|discriminate].
  destruct (stat !! i) as [true_count|]; monad_simpl; [|discriminate].
  destruct (true_count =? 0); [intros [= <-]; eauto|].
  destruct (sum b1 !! circular_fid) as [slot_sum|]; monad_simpl;
    [|discriminate].
  destruct (slot_sum !! i) as [sum_true|]; monad_simpl; [|discriminate].
  destruct (_isnan sum_true); monad_simpl; [intros [= <-]; eauto|].
  destruct (_nodeStat b1 !! i) as [node_stat|]; monad_simpl; [|discriminate].
  destruct (_bestSplit b1 !! i) as [best|]; monad_simpl; [|discriminate].
  destruct (F32.ltb (Split.gain best) _); intros [= <-]; [|eauto].
  eexists. split; [reflexivity|]. apply same_at_leaf_set_same, Hsame.
Qed.

End SparseReduction.


(** ** Routing the rows to the next level *)

Lemma for_loop_indexed_total {St : Type} (body : nat → St → option St)
    (P : nat → St → Prop) (n : nat) :
  ∀ (start : nat) (s : St),
    (∀ i t, (start <= i < start + n)%nat → P i t →
       ∃ t', body i t = Some t' ∧ P (S i) t') →
    P start s → ∃ s', for_loop body start n s = Some s' ∧ P (start + n)%nat s'.
Proof.
  induction n as [| n IH]; intros start s Hbody Hs.
  - exists s. rewrite Nat.add_0_r. split; [reflexivity | exact Hs].
  - destruct (Hbody start s ltac:(lia) Hs) as (s1 & Hs1 & HP1).
    destruct (IH (S start) s1) as (s' & Hrun & HP'); [|exact HP1|].
    + intros i t Hi. apply Hbody. lia.
    + exists s'. cbn [for_loop]. rewrite Hs1. monad_simpl.
      replace (start + S n)%nat with (S start + n)%nat by lia. auto.
Qed.

Section RoutingProperties.
Context {sum_type : Type} `{SumType sum_type}.
Implicit Types (b : Builder sum_type).
Variable HeapOffset : Z → Z.
Variable ChildNode : Z → bool → Z.

(** The leaf id [UpdateNodeIndex] gives a row of leaf [node]. *)
#[local] Abbreviation child level node isLeft :=
  (wrap32 (ChildNode (wrap32 (node + HeapOffset level)) isLeft
           - HeapOffset (level + 1))).

Lemma UpdateNodeIndex_row_Some (level : Z) (data_ : DataMatrix) (i : nat)
    b b' :
  UpdateNodeIndex_row HeapOffset ChildNode level data_ i b = Some b' →
  ∃ node best isLeft,
    _rowIndex2Node b !! i = Some node
    ∧ at_index (_bestSplit b) node = Some best
    ∧ UpdateNodeIndex_isLeft data_ best i = Some isLeft
    ∧ b' = set_rowIndex2Node b
             (<[i := child level node isLeft]> (_rowIndex2Node b)).
Proof.
  unfold UpdateNodeIndex_row. cbv zeta.
  destruct (_rowIndex2Node b !! i) as [node|]; monad_simpl; [|discriminate].
  destruct (at_index (_bestSplit b) node) as [best|] eqn:Hbest; monad_simpl;
    [|discriminate].
  destruct (UpdateNodeIndex_isLeft data_ best i) as [isLeft|] eqn:Hleft;
    monad_simpl; [|discriminate].
  intros Hrun. apply (inj Some) in Hrun. subst b'.
  exists node, best, isLeft. auto.
Qed.

(** X15. [UpdateNodeIndex] decides every row from what the row and the
    split records held before the call: row [i] of leaf [node] gets the id
    [ChildNode(node + offset, isLeft) - offset_next], computed modulo
    [2^32], where [isLeft] is taken from the record of [node]. No row
    reads what the loop wrote for another one, the entries from
    [data->rows] on stay, and the split records and leaf statistics are
    not written. *)
Theorem UpdateNodeIndex_rows (level : Z) (data_ : DataMatrix) b b' :
  UpdateNodeIndex HeapOffset ChildNode level data_ b = Some b' →
  _bestSplit b' = _bestSplit b
  ∧ _nodeStat b' = _nodeStat b
  ∧ length (_rowIndex2Node b') = length (_rowIndex2Node b)
  ∧ (∀ i, (i < rows data_)%nat →
       ∃ node best isLeft,
         _rowIndex2Node b !! i = Some node
         ∧ at_index (_bestSplit b) node = Some best
         ∧ UpdateNodeIndex_isLeft data_ best i = Some isLeft
         ∧ _rowIndex2Node b' !! i = Some (child level node isLeft))
  ∧ (∀ i, (rows data_ <= i)%nat →
       _rowIndex2Node b' !! i = _rowIndex2Node b !! i).
Proof.
  intros Hrun. unfold UpdateNodeIndex in Hrun.
  pose proof (for_loop_indexed_invariant
                (UpdateNodeIndex_row HeapOffset ChildNode level data_)
                (λ k t,
                   _bestSplit t = _bestSplit b
                   ∧ _nodeStat t = _nodeStat b
                   ∧ length (_rowIndex2Node t) = length (_rowIndex2Node b)
                   ∧ (∀ i, (i < k)%nat →
                        ∃ node best isLeft,
                          _rowIndex2Node b !! i = Some node
                          ∧ at_index (_bestSplit b) node = Some best
                          ∧ UpdateNodeIndex_isLeft data_ best i = Some isLeft
                          ∧ _rowIndex2Node t !! i
                            = Some (child level node isLeft))
                   ∧ (∀ i, (k <= i)%nat →
                        _rowIndex2Node t !! i = _rowIndex2Node b !! i))
                (rows data_) 0 b b') as Hinv.
  apply Hinv; [| |exact Hrun]; clear Hinv Hrun.
  - intros k t t' _ (Hbs & Hns & Hlen & Hdone & Hrest) Hstep.
    apply UpdateNodeIndex_row_Some in Hstep.
    destruct Hstep as (node & best & isLeft & Hnode & Hbest & Hleft & ->).
    cbn [set_rowIndex2Node _bestSplit _nodeStat _rowIndex2Node].
    split; [exact Hbs|]. split; [exact Hns|].
    split; [rewrite length_insert; exact Hlen|].
    assert (Hk : (k < length (_rowIndex2Node t))%nat)
      by (apply lookup_lt_is_Some; eauto).
    split.
    + intros i Hi. destruct (decide (i = k)) as [-> | Hne].
      * exists node, best, isLeft. rewrite <- Hrest by lia.
        rewrite <- Hbs. split; [exact Hnode|]. split; [exact Hbest|].
        split; [exact Hleft|]. apply list_lookup_insert_eq, Hk.
      * destruct (Hdone i ltac:(lia)) as (n0 & b0 & l0 & ? & ? & ? & Hi0).
        exists n0, b0, l0. rewrite list_lookup_insert_ne by auto. auto.
    + intros i Hi. rewrite list_lookup_insert_ne by lia. apply Hrest. lia.
  - split; [reflexivity|]. split; [reflexivity|]. split; [reflexivity|].
    split; [intros i Hi; lia | reflexivity].
Qed.

Lemma UpdateNodeIndex_isLeft_Some (data_ : DataMatrix)
    (best : Split.t sum_type) (i : nat) :
  routable data_ best → (i < rows data_)%nat →
  (rows data_ <= length (lil_row data_))%nat →
  is_Some (UpdateNodeIndex_isLeft data_ best i).
Proof.
  intros (Hfid & Hdense) Hi Hrows. unfold UpdateNodeIndex_isLeft.
  assert (Hrow : is_Some (lil_row data_ !! i))
    by (apply lookup_lt_is_Some; lia).
  destruct Hrow as [row Hrow]. rewrite Hrow.
  destruct (Z.ltb_spec (Split.fid best) (columns_dense data_)) as [Hlt | Hge].
  - destruct (Hdense Hlt) as (column & Hcol & Hlen).
    unfold at_index. destruct (Z.ltb_spec (Split.fid best) 0); [lia|].
    rewrite Hcol. monad_simpl.
    assert (Hv : is_Some (column !! i)) by (apply lookup_lt_is_Some; lia).
    destruct Hv as [v Hv]. unfold float in *. rewrite Hv. monad_simpl.
    destruct (F32.leb v _); [eauto|].
    destruct (Split.split_by_true best); monad_simpl; eauto.
  - monad_simpl. destruct (Split.split_by_true best); monad_simpl; eauto.
Qed.

(** X16. [UpdateNodeIndex] reads inside its vectors, and so returns, when
    [_rowIndex2Node] has an entry for every row, every entry names a split
    record, the records have a feature id from 0 on whose column (for a
    dense feature) holds every row, and [lil_row] has a list for every
    row. *)
Theorem UpdateNodeIndex_returns (level : Z) (data_ : DataMatrix) b :
  (rows data_ <= length (_rowIndex2Node b))%nat →
  (rows data_ <= length (lil_row data_))%nat →
  (∀ i node, (i < rows data_)%nat → _rowIndex2Node b !! i = Some node →
     0 <= node < Z.of_nat (length (_bestSplit b))) →
  (∀ best, best ∈ _bestSplit b → routable data_ best) →
  is_Some (UpdateNodeIndex HeapOffset ChildNode level data_ b).
Proof.
  intros Hrows Hlil Hnodes Hroutable. unfold UpdateNodeIndex.
  destruct (for_loop_indexed_total
              (UpdateNodeIndex_row HeapOffset ChildNode level data_)
              (λ k t,
                 _bestSplit t = _bestSplit b
                 ∧ length (_rowIndex2Node t) = length (_rowIndex2Node b)
                 ∧ (∀ i, (k <= i)%nat →
                      _rowIndex2Node t !! i = _rowIndex2Node b !! i))
              (rows data_) 0 b) as (b' & Hrun & _); [| |eauto].
  - intros k t Hk (Hbs & Hlen & Hrest).
    assert (Hnode : is_Some (_rowIndex2Node t !! k))
      by (apply lookup_lt_is_Some; lia).
    destruct Hnode as [node Hnode].
    pose proof Hnode as Hold. rewrite Hrest in Hold by lia.
    apply Hnodes in Hold; [|lia].
    assert (Hbest : is_Some (_bestSplit b !! Z.to_nat node))
      by (apply lookup_lt_is_Some; lia).
    destruct Hbest as [best Hbest].
    destruct (UpdateNodeIndex_isLeft_Some data_ best k) as [isLeft Hleft];
      [|lia|exact Hlil|].
    { apply Hroutable. eapply list_elem_of_lookup_2, Hbest. }
    unfold UpdateNodeIndex_row. cbv zeta. rewrite Hnode. monad_simpl.
    unfold at_index. destruct (Z.ltb_spec node 0); [lia|].
    rewrite Hbs, Hbest. monad_simpl. rewrite Hleft. monad_simpl.
    eexists. split; [reflexivity|].
    cbn [set_rowIndex2Node _bestSplit _rowIndex2Node].
    split; [exact Hbs|]. split; [rewrite length_insert; exact Hlen|].
    intros i Hi. rewrite list_lookup_insert_ne by lia. apply Hrest. lia.
  - split; [reflexivity|]. split; reflexivity.
Qed.
End RoutingProperties.

Lemma UpdateNodeIndex_rows_witness :
  let HeapOffset := λ level, 2 ^ level - 1 in
  let ChildNode :=
    λ node (isLeft : bool), 2 * node + (if isLeft then 1 else 2) in
  let b :=
    set_bestSplit unclaimed_builder
      [degenerate_split (clean_split (H := SumType_float))
         (NodeStat.Build 2 (F32.of_Z 3) F32.zero)] in
  ∃ b',
    UpdateNodeIndex HeapOffset ChildNode 0 nan_data b = Some b'
    ∧ _bestSplit b' = _bestSplit b
    ∧ length (_rowIndex2Node b') = 2%nat.
Proof.
  intros HeapOffset ChildNode b.
  destruct (UpdateNodeIndex HeapOffset ChildNode 0 nan_data b) as [b'|]
    eqn:Hrun; [|vm_compute in Hrun; discriminate].
  destruct (UpdateNodeIndex_rows HeapOffset ChildNode 0 nan_data b b' Hrun)
    as (Hbs & _ & Hlen & _).
  exists b'. split; [reflexivity|]. split; [exact Hbs | exact Hlen].
Defined.

Lemma UpdateNodeIndex_returns_witness :
  let HeapOffset := λ level, 2 ^ level - 1 in
  let ChildNode :=
    λ node (isLeft : bool), 2 * node + (if isLeft then 1 else 2) in
  let b :=
    set_bestSplit unclaimed_builder
      [degenerate_split (clean_split (H := SumType_float))
         (NodeStat.Build 2 (F32.of_Z 3) F32.zero)] in
  is_Some (UpdateNodeIndex HeapOffset ChildNode 0 nan_data b).
Proof.
  intros HeapOffset ChildNode b.
  apply UpdateNodeIndex_returns.
  - cbn. lia.
  - cbn. lia.
  - intros i node Hi Hnode. cbn in Hi.
    destruct i as [|[|i]]; [| |lia]; cbn in Hnode;
      injection Hnode as <-; cbn; lia.
  - intros best Hbest. apply list_elem_of_singleton in Hbest. subst best.
    split; [cbn; lia|]. intros _. eexists. split; [reflexivity|].
    cbn. lia.
Defined.

(** ** The feature pipeline of [FindBestSplits] *)

Lemma mod_window (n p q : nat) :
  (0 < n)%nat → (p mod n = q mod n)%nat → (p <= q < p + n)%nat → p = q.
Proof.
  intros Hn Hmod Hq.
  pose proof (Nat.div_mod_eq p n) as Hp.
  pose proof (Nat.div_mod_eq q n) as Hq'.
  pose proof (Nat.Div0.div_le_mono p q n ltac:(lia)) as Hdiv.
  destruct (decide (p / n = q / n)%nat) as [Heq | Hne]; [rewrite Heq in Hp; lia|].
  assert (p / n + 1 <= q / n)%nat by lia. nia.
Qed.

Lemma pipeline_run_app (trace : list feature_call) (c : feature_call)
    (s : slots) :
  pipeline_run (trace ++ [c]) s = s' ← pipeline_run trace s; pipeline_step s' c.
Proof. unfold pipeline_run. rewrite foldl_app. reflexivity. Qed.

Lemma positions_of_app (st : stage) (trace : list feature_call)
    (c : feature_call) :
  positions_of st (trace ++ [c])
  = positions_of st trace
    ++ match call_stage c, st with
       | Process, Process | GetBestSplit, GetBestSplit => [call_position c]
       | _, _ => []
       end.
Proof.
  unfold positions_of. rewrite omap_app. f_equal. cbn.
  destruct (call_stage c), st; reflexivity.
Qed.

Section PipelineProperties.
Variable active_fids : list Z.
Variable columns_dense : Z.
Variable take overlap_depth : nat.
Hypothesis overlap_pos : (0 < overlap_depth)%nat.
Hypothesis take_sampled : (take <= length active_fids)%nat.

#[local] Abbreviation inv :=
  (pipeline_inv active_fids columns_dense overlap_depth).
#[local] Abbreviation call st position :=
  (feature_call_of st active_fids columns_dense overlap_depth position).

Lemma feature_call_of_Some (st : stage) (position : nat) :
  (position < length active_fids)%nat →
  ∃ c, call st position = Some c
       ∧ call_stage c = st ∧ call_position c = position
       ∧ call_slot c = (position mod overlap_depth)%nat
       ∧ call_wf active_fids columns_dense overlap_depth c.
Proof.
  intros Hp. unfold feature_call_of.
  destruct (lookup_lt_is_Some_2 active_fids position Hp) as [fid Hfid].
  rewrite Hfid. monad_simpl. eexists. split; [reflexivity|].
  cbn [call_stage call_position call_slot].
  split; [reflexivity|]. split; [reflexivity|]. split; [reflexivity|].
  split.
  - unfold feature_call_of. cbn [call_stage call_position].
    rewrite Hfid. reflexivity.
  - cbn [call_slot]. apply Nat.mod_upper_bound. lia.
Qed.

Lemma pipeline_inv_process (lo hi : nat) (trace : list feature_call)
    (c : feature_call) :
  inv lo hi trace → (lo <= hi < lo + overlap_depth)%nat →
  call Process hi = Some c →
  inv lo (S hi) (trace ++ [c]).
Proof.
  intros ((s & Hrun & Hwin) & Hproc & Hget & Hwf) Hhi Hc.
  assert (Hlt : (hi < length active_fids)%nat).
  { unfold feature_call_of in Hc.
    destruct (active_fids !! hi) eqn:E; [|discriminate].
    apply lookup_lt_is_Some. eauto. }
  destruct (feature_call_of_Some Process hi Hlt)
    as (c' & Hc' & Hstage & Hpos & Hslot & Hcwf).
  rewrite Hc in Hc'. apply (inj Some) in Hc'. subst c'.
  assert (Hfree : s (call_slot c) = None).
  { destruct (s (call_slot c)) as [p|] eqn:E; [|reflexivity].
    apply Hwin in E. destruct E as [Hp Hmod]. rewrite Hslot in Hmod.
    pose proof (mod_window overlap_depth p hi overlap_pos
                  (eq_sym Hmod) ltac:(lia)). lia. }
  split; [|split; [|split]].
  - exists (slot_set s (call_slot c) (Some hi)). split.
    + rewrite pipeline_run_app, Hrun. monad_simpl.
      unfold pipeline_step. rewrite Hstage, Hfree, Hpos. reflexivity.
    + intros c0 p. unfold slot_set.
      destruct (decide (c0 = call_slot c)) as [-> | Hne].
      * rewrite Hslot. split.
        -- intros [= <-]. split; [lia | reflexivity].
        -- intros [Hp Hmod]. f_equal.
           destruct (decide (p = hi)) as [-> | Hneq]; [reflexivity|].
           assert (Hold : s (p mod overlap_depth)%nat = Some p)
             by (apply Hwin; split; [lia | reflexivity]).
           rewrite <- Hmod, <- Hslot, Hfree in Hold. discriminate.
      * rewrite (Hwin c0 p). split.
        -- intros [Hp Hmod]. split; [lia | exact Hmod].
        -- intros [Hp Hmod]. split; [|exact Hmod].
           destruct (decide (p = hi)) as [-> | Hneq]; [congruence | lia].
  - rewrite positions_of_app, Hstage, Hproc, Hpos, seq_S. reflexivity.
  - rewrite positions_of_app, Hstage, Hget, app_nil_r. reflexivity.
  - apply Forall_app. split; [exact Hwf|]. constructor; [exact Hcwf|constructor].
Qed.

Lemma pipeline_inv_read (lo hi : nat) (trace : list feature_call)
    (c : feature_call) :
  inv lo hi trace → (lo < hi <= lo + overlap_depth)%nat →
  call GetBestSplit lo = Some c →
  inv (S lo) hi (trace ++ [c]).
Proof.
  intros ((s & Hrun & Hwin) & Hproc & Hget & Hwf) Hhi Hc.
  assert (Hlt : (lo < length active_fids)%nat).
  { unfold feature_call_of in Hc.
    destruct (active_fids !! lo) eqn:E; [|discriminate].
    apply lookup_lt_is_Some. eauto. }
  destruct (feature_call_of_Some GetBestSplit lo Hlt)
    as (c' & Hc' & Hstage & Hpos & Hslot & Hcwf).
  rewrite Hc in Hc'. apply (inj Some) in Hc'. subst c'.
  assert (Hheld : s (call_slot c) = Some lo).
  { apply Hwin. split; [lia | exact Hslot]. }
  split; [|split; [|split]].
  - exists (slot_set s (call_slot c) None). split.
    + rewrite pipeline_run_app, Hrun. monad_simpl.
      unfold pipeline_step. rewrite Hstage, Hheld, Hpos, Nat.eqb_refl.
      reflexivity.
    + intros c0 p. unfold slot_set.
      destruct (decide (c0 = call_slot c)) as [-> | Hne].
      * split; [discriminate|]. intros [Hp Hmod]. rewrite Hslot in Hmod.
        pose proof (mod_window overlap_depth lo p overlap_pos Hmod
                      ltac:(lia)). lia.
      * rewrite (Hwin c0 p). split.
        -- intros [Hp Hmod]. split; [|exact Hmod].
           destruct (decide (p = lo)) as [-> | Hneq]; [congruence | lia].
        -- intros [Hp Hmod]. split; [lia | exact Hmod].
  - rewrite positions_of_app, Hstage, Hproc, app_nil_r. reflexivity.
  - rewrite positions_of_app, Hstage, Hget, Hpos, seq_S. reflexivity.
  - apply Forall_app. split; [exact Hwf|]. constructor; [exact Hcwf|constructor].
Qed.

(** The features processed before the inner loop for [j] reaches [i]. *)
#[local] Abbreviation launched j i :=
  (if (j =? 0)%nat then i%nat
   else if (i <? overlap_depth)%nat then (j + overlap_depth - 1)%nat
        else (j + overlap_depth)%nat).

Lemma FindBestSplits_launch_inv (j : nat) :
  (j < take)%nat →
  ∀ (n i : nat) (trace : list feature_call),
    (n + i = overlap_depth)%nat →
    inv j (Nat.min take (launched j i)) trace →
    ∃ trace',
      FindBestSplits_launch active_fids columns_dense take overlap_depth j n i
        trace = Some trace'
      ∧ inv j (Nat.min take (j + overlap_depth)) trace'.
Proof.
  intros Hj n. induction n as [| n IH]; intros i trace Hn Hinv.
  - exists trace. split; [reflexivity|].
    replace (Nat.min take (j + overlap_depth))
      with (Nat.min take (launched j i)); [exact Hinv|].
    destruct (Nat.eqb_spec j 0); [lia|].
    destruct (Nat.ltb_spec i overlap_depth); lia.
  - cbn [FindBestSplits_launch].
    destruct (Nat.ltb_spec (j + i) take) as [Hlt | Hge].
    + destruct (Nat.eqb_spec j 0) as [Hj0 | Hj0];
        destruct (Nat.ltb_spec (i + 1) overlap_depth) as [Hi | Hi];
        cbn [negb andb].
      * destruct (feature_call_of_Some Process (j + i) ltac:(lia))
          as (c & Hc & _). rewrite Hc. monad_simpl.
        apply IH; [lia|]. destruct (Nat.eqb_spec j 0); [|lia].
        replace (Nat.min take (S i)) with (S (j + i)) by lia.
        apply pipeline_inv_process; [|lia|exact Hc].
        replace (j + i)%nat with (Nat.min take i) by lia. exact Hinv.
      * destruct (feature_call_of_Some Process (j + i) ltac:(lia))
          as (c & Hc & _). rewrite Hc. monad_simpl.
        apply IH; [lia|]. destruct (Nat.eqb_spec j 0); [|lia].
        replace (Nat.min take (S i)) with (S (j + i)) by lia.
        apply pipeline_inv_process; [|lia|exact Hc].
        replace (j + i)%nat with (Nat.min take i) by lia. exact Hinv.
      * apply IH; [lia|]. destruct (Nat.eqb_spec j 0); [lia|].
        destruct (Nat.ltb_spec i overlap_depth); [|lia].
        destruct (Nat.ltb_spec (S i) overlap_depth); [|lia]. exact Hinv.
      * destruct (feature_call_of_Some Process (j + i) ltac:(lia))
          as (c & Hc & _). rewrite Hc. monad_simpl.
        apply IH; [lia|]. destruct (Nat.eqb_spec j 0); [lia|].
        destruct (Nat.ltb_spec i overlap_depth); [|lia].
        destruct (Nat.ltb_spec (S i) overlap_depth); [lia|].
        replace (Nat.min take (j + overlap_depth)) with (S (j + i)) by lia.
        apply pipeline_inv_process; [|lia|exact Hc].
        replace (j + i)%nat with (Nat.min take (j + overlap_depth - 1))
          by lia.
        exact Hinv.
    + exists trace. split; [reflexivity|].
      replace (Nat.min take (j + overlap_depth))
        with (Nat.min take (launched j i)); [exact Hinv|].
      destruct (Nat.eqb_spec j 0); [lia|].
      destruct (Nat.ltb_spec i overlap_depth); lia.
Qed.

(** The features processed before the iteration for [j]. *)
#[local] Abbreviation ahead j :=
  (if (j =? 0)%nat then 0%nat else (j + overlap_depth - 1)%nat).

Lemma FindBestSplits_feature_inv (j : nat) (trace : list feature_call) :
  (j < take)%nat → inv j (Nat.min take (ahead j)) trace →
  ∃ trace',
    FindBestSplits_feature active_fids columns_dense take overlap_depth j
      trace = Some trace'
    ∧ inv (S j) (Nat.min take (ahead (S j))) trace'.
Proof.
  intros Hj Hinv. unfold FindBestSplits_feature.
  destruct (FindBestSplits_launch_inv j Hj overlap_depth 0 trace)
    as (launched & Hlaunch & Hinv'); [lia| |].
  { destruct (Nat.eqb_spec j 0); [exact Hinv|].
    destruct (Nat.ltb_spec 0 overlap_depth); [exact Hinv | lia]. }
  rewrite Hlaunch. monad_simpl.
  destruct (Nat.eqb_spec overlap_depth 0); [lia|].
  destruct (feature_call_of_Some GetBestSplit j ltac:(lia)) as (c & Hc & _).
  rewrite Hc. monad_simpl. eexists. split; [reflexivity|].
  cbn [Nat.eqb].
  replace (S j + overlap_depth - 1)%nat with (j + overlap_depth)%nat by lia.
  apply pipeline_inv_read; [exact Hinv'|lia|exact Hc].
Qed.

(** X17. With [overlap_depth > 0] and [take] features in [active_fids],
    the loop over the sampled features of [FindBestSplits] reads inside
    [active_fids] and makes its calls so that every feature position below
    [take] is processed once and read once, both in the order of the
    positions, with the slot [position % overlap_depth]; a feature is
    processed into a free slot only, it is read from the slot that holds
    it, and every slot is free again at the end. *)
Theorem FindBestSplits_pipeline :
  ∃ trace final,
    FindBestSplits_features active_fids columns_dense take overlap_depth
    = Some trace
    ∧ positions_of Process trace = seq 0 take
    ∧ positions_of GetBestSplit trace = seq 0 take
    ∧ Forall (call_wf active_fids columns_dense overlap_depth) trace
    ∧ pipeline_run trace (λ _, None) = Some final
    ∧ ∀ c, final c = None.
Proof.
  unfold FindBestSplits_features.
  destruct (for_loop_indexed_total
              (FindBestSplits_feature active_fids columns_dense take
                 overlap_depth)
              (λ j trace, inv j (Nat.min take (ahead j)) trace) take 0 [])
    as (trace & Hrun & Hinv).
  - intros j trace Hj. apply FindBestSplits_feature_inv. lia.
  - split; [|split; [|split]].
    + exists (λ _, None). split; [reflexivity|]. intros c p.
      split; [discriminate|]. cbn [Nat.eqb]. lia.
    + cbn [Nat.eqb]. rewrite Nat.min_0_r. reflexivity.
    + reflexivity.
    + constructor.
  - cbn [Nat.add] in Hinv.
    destruct Hinv as ((final & Hfinal & Hwin) & Hproc & Hget & Hwf).
    exists trace, final. split; [exact Hrun|].
    assert (Hmin : Nat.min take (ahead take) = take)
      by (destruct (Nat.eqb_spec take 0); lia).
    rewrite Hmin in Hproc, Hwin.
    split; [exact Hproc|].
    split; [exact Hget|]. split; [exact Hwf|]. split; [exact Hfinal|].
    intros c. destruct (final c) as [p|] eqn:E; [|reflexivity].
    apply Hwin in E. lia.
Qed.
End PipelineProperties.

Lemma FindBestSplits_pipeline_witness :
  ∃ trace final,
    FindBestSplits_features [2; 0; 1] 2 3 2 = Some trace
    ∧ map (λ c, (call_stage c, call_position c, call_slot c)) trace
      = [(Process, 0, 0); (Process, 1, 1); (GetBestSplit, 0, 0);
         (Process, 2, 0); (GetBestSplit, 1, 1); (GetBestSplit, 2, 0)]%nat
    ∧ pipeline_run trace (λ _, None) = Some final
    ∧ ∀ c, final c = None.
Proof.
  assert (Hoverlap : (0 < 2)%nat) by lia.
  assert (Htake : (3 <= length [2; 0; 1])%nat) by (simpl; lia).
  destruct (FindBestSplits_pipeline [2; 0; 1] 2 3 2 Hoverlap Htake)
    as (trace & final & Hrun & _ & _ & _ & Hfinal & Hfree).
  exists trace, final. split; [exact Hrun|].
  split; [|split; [exact Hfinal | exact Hfree]].
  vm_compute in Hrun. injection Hrun as <-. reflexivity.
Defined.

(** ** Temporary device storage *)

Lemma AllocateMemoryIfRequire_step (t : TempStorage) (circular_fid : nat)
    (bytes : Z) :
  TempStorage_ok t →
  (circular_fid < length (temp_bytes_allocated t))%nat → 0 <= bytes →
  ∃ t',
    AllocateMemoryIfRequire t circular_fid bytes = Some t'
    ∧ TempStorage_ok t'
    ∧ length (temp_bytes_allocated t') = length (temp_bytes_allocated t)
    ∧ ∀ (slot : nat) (allocated : Z),
        temp_bytes_allocated t !! slot = Some allocated →
        temp_bytes_allocated t' !! slot
        = Some (if decide (circular_fid = slot) then Z.max allocated bytes
                else allocated).
Proof.
  intros (Hlen & Hslots & Hdropped) Hfid Hbytes.
  destruct (lookup_lt_is_Some_2 _ _ Hfid) as [allocated Hallocated].
  destruct (Hslots _ _ Hallocated) as [Hpos Hblock].
  unfold AllocateMemoryIfRequire. rewrite Hallocated. monad_simpl.
  assert (Hset : ∀ (blocks : list (option Z)) (gone : list Z),
            length blocks = length (temp_bytes_allocated t) →
            blocks !! circular_fid = Some (Some bytes) →
            (∀ slot, slot ≠ circular_fid →
               blocks !! slot = temp_bytes t !! slot) →
            Forall (λ size, size = 0) gone →
            Z.max allocated bytes = bytes →
            let t' := {| temp_bytes_allocated :=
                           <[circular_fid := bytes]> (temp_bytes_allocated t);
                         temp_bytes := blocks; dropped := gone |} in
            TempStorage_ok t'
            ∧ length (temp_bytes_allocated t')
              = length (temp_bytes_allocated t)
            ∧ ∀ (slot : nat) (a : Z),
                temp_bytes_allocated t !! slot = Some a →
                temp_bytes_allocated t' !! slot
                = Some (if decide (circular_fid = slot)
                        then Z.max a bytes else a)).
  { intros blocks gone Hblen Hnew Hother Hgone Hmax t'. subst t'.
    unfold TempStorage_ok. cbn [temp_bytes_allocated temp_bytes dropped].
    split; [split; [|split]|split].
    - rewrite length_insert. exact Hblen.
    - intros slot a. destruct (decide (slot = circular_fid)) as [-> | Hne].
      + rewrite list_lookup_insert_eq by exact Hfid. intros [= <-].
        split; [exact Hbytes | left; exact Hnew].
      + rewrite list_lookup_insert_ne by auto. rewrite Hother by exact Hne.
        apply Hslots.
    - exact Hgone.
    - apply length_insert.
    - intros slot a Ha. destruct (decide (circular_fid = slot)) as [<- | Hne].
      + rewrite list_lookup_insert_eq by exact Hfid.
        assert (a = allocated) by congruence. subst a. congruence.
      + rewrite list_lookup_insert_ne by auto. exact Ha. }
  assert (Hfid' : (circular_fid < length (temp_bytes t))%nat) by lia.
  destruct (Z.eqb_spec allocated 0) as [Hzero | Hnonzero].
  - unfold cudaMalloc_temp_bytes.
    destruct (lookup_lt_is_Some_2 _ _ Hfid') as [old Hold].
    rewrite Hold. monad_simpl. eexists. split; [reflexivity|].
    unfold set_temp_bytes_allocated.
    cbn [temp_bytes_allocated temp_bytes dropped].
    apply Hset.
    + rewrite length_insert. exact Hlen.
    + apply list_lookup_insert_eq, Hfid'.
    + intros slot Hne. apply list_lookup_insert_ne. auto.
    + destruct Hblock as [Hb | [_ Hb]]; rewrite Hb in Hold;
        apply (inj Some) in Hold; subst old; [|exact Hdropped].
      apply Forall_app. split; [exact Hdropped|].
      constructor; [exact Hzero | constructor].
    + lia.
  - destruct (Z.ltb_spec allocated bytes) as [Hlt | Hge].
    + destruct Hblock as [Hb | [Hz _]]; [|contradiction].
      unfold cudaFree_temp_bytes. rewrite Hb. monad_simpl.
      unfold cudaMalloc_temp_bytes. cbn [temp_bytes].
      rewrite list_lookup_insert_eq by exact Hfid'. monad_simpl.
      eexists. split; [reflexivity|].
      unfold set_temp_bytes_allocated.
      cbn [temp_bytes_allocated temp_bytes dropped].
      apply Hset.
      * rewrite !length_insert. exact Hlen.
      * apply list_lookup_insert_eq. rewrite length_insert. exact Hfid'.
      * intros slot Hne. rewrite !list_lookup_insert_ne by auto. reflexivity.
      * exact Hdropped.
      * lia.
    + exists t. split; [reflexivity|].
      split; [exact (conj Hlen (conj Hslots Hdropped))|].
      split; [reflexivity|].
      intros slot a Ha. destruct (decide (circular_fid = slot)) as [<- | Hne];
        [|exact Ha].
      assert (a = allocated) by congruence. subst a. rewrite Ha. f_equal. lia.
Qed.

Lemma AllocateMemoryIfRequire_all_ok (requests : list (nat * Z)) :
  ∀ t : TempStorage,
    TempStorage_ok t →
    Forall (λ r, (r.1 < length (temp_bytes_allocated t))%nat ∧ 0 <= r.2)
      requests →
    ∃ t',
      AllocateMemoryIfRequire_all requests t = Some t'
      ∧ TempStorage_ok t'
      ∧ ∀ (slot : nat) (allocated : Z),
          temp_bytes_allocated t !! slot = Some allocated →
          temp_bytes_allocated t' !! slot
          = Some (largest_request requests slot allocated).
Proof.
  induction requests as [| [fid bytes] requests IH]; intros t Hok Hreq.
  - exists t. split; [reflexivity|]. split; [exact Hok|]. auto.
  - apply Forall_cons in Hreq. destruct Hreq as [[Hfid Hbytes] Hreq].
    cbn [fst snd] in Hfid, Hbytes.
    destruct (AllocateMemoryIfRequire_step t fid bytes Hok Hfid Hbytes)
      as (t1 & Hstep & Hok1 & Hlen1 & Hcap1).
    destruct (IH t1 Hok1) as (t' & Hrun & Hok' & Hcap').
    { rewrite Hlen1. exact Hreq. }
    exists t'. split.
    { unfold AllocateMemoryIfRequire_all in *. cbn [foldl fst snd].
      monad_simpl. rewrite Hstep. exact Hrun. }
    split; [exact Hok'|].
    intros slot allocated Ha. unfold largest_request. cbn [foldl fst snd].
    apply Hcap', Hcap1, Ha.
Qed.

(** X18. From the storage the constructor sets up, any sequence of calls
    of [AllocateMemoryIfRequire] for existing slots goes through without
    freeing a pointer that has no live block; afterwards the recorded
    capacity of every slot is the largest size asked for it (0 when none
    was), a slot with a capacity points to a live block of exactly that
    size, and no block of a positive size has lost its pointer without
    being freed. *)
Theorem AllocateMemoryIfRequire_capacity (overlap_depth : nat)
    (requests : list (nat * Z)) :
  Forall (λ r, (r.1 < overlap_depth)%nat ∧ 0 <= r.2) requests →
  ∃ t,
    AllocateMemoryIfRequire_all requests (TempStorage_new overlap_depth)
    = Some t
    ∧ (∀ slot : nat, (slot < overlap_depth)%nat →
         let capacity := largest_request requests slot 0 in
         temp_bytes_allocated t !! slot = Some capacity
         ∧ (temp_bytes t !! slot = Some (Some capacity)
            ∨ (capacity = 0 ∧ temp_bytes t !! slot = Some None)))
    ∧ Forall (λ size, size = 0) (dropped t).
Proof.
  intros Hreq.
  assert (Hnew : TempStorage_ok (TempStorage_new overlap_depth)).
  { unfold TempStorage_ok, TempStorage_new.
    cbn [temp_bytes_allocated temp_bytes dropped].
    split; [rewrite !length_replicate; reflexivity|]. split; [|constructor].
    intros slot allocated Hslot. apply lookup_replicate in Hslot.
    destruct Hslot as [-> Hslot]. split; [lia|]. right.
    split; [reflexivity|]. apply lookup_replicate. auto. }
  destruct (AllocateMemoryIfRequire_all_ok requests _ Hnew)
    as (t & Hrun & (Hlen & Hslots & Hdropped) & Hcap).
  { cbn [TempStorage_new temp_bytes_allocated]. rewrite length_replicate.
    exact Hreq. }
  exists t. split; [exact Hrun|]. split; [|exact Hdropped].
  intros slot Hslot. cbv zeta.
  assert (Hc : temp_bytes_allocated t !! slot
               = Some (largest_request requests slot 0)).
  { apply Hcap. cbn [TempStorage_new temp_bytes_allocated].
    apply lookup_replicate. auto. }
  split; [exact Hc|]. apply (Hslots _ _ Hc).
Qed.

Lemma AllocateMemoryIfRequire_capacity_witness :
  ∃ t,
    AllocateMemoryIfRequire_all [(0%nat, 16); (1%nat, 8); (0%nat, 4); (0%nat, 32)]
      (TempStorage_new 2) = Some t
    ∧ temp_bytes_allocated t = [32; 8]
    ∧ temp_bytes t = [Some 32; Some 8]
    ∧ dropped t = [].
Proof.
  assert (Hreq : Forall (λ r : nat * Z, (r.1 < 2)%nat ∧ 0 <= r.2)
                   [(0%nat, 16); (1%nat, 8); (0%nat, 4); (0%nat, 32)]).
  { repeat constructor; cbn; lia. }
  destruct (AllocateMemoryIfRequire_capacity 2 _ Hreq) as (t & Hrun & _).
  exists t. split; [exact Hrun|].
  vm_compute in Hrun. injection Hrun as <-. repeat split.
Defined.

(** ** The statistics of the new leaves *)

Section UpdateNodeStatProperties.
Context {sum_type : Type} `{SumType sum_type}.
Implicit Types (b : Builder sum_type).
Variable HeapOffset : Z → Z.
Variable ChildNode : Z → bool → Z.

#[local] Abbreviation child := (UpdateNodeStat_child HeapOffset ChildNode).

Lemma UpdateNodeStat_assign_Some (stats stats' : list (NodeStat.t sum_type))
    (k count : Z) (sum_grad : sum_type) :
  UpdateNodeStat_assign stats k count sum_grad = Some stats' →
  ∃ old,
    at_index stats k = Some old
    ∧ length stats' = length stats
    ∧ at_index stats' k
      = Some {| NodeStat.count := count; NodeStat.sum_grad := sum_grad;
                NodeStat.gain := NodeStat.gain old |}
    ∧ ∀ k', k' ≠ k → at_index stats' k' = at_index stats k'.
Proof.
  unfold UpdateNodeStat_assign.
  destruct (at_index stats k) as [old|] eqn:Hold; monad_simpl; [|discriminate].
  intros Hset. apply set_index_Some in Hset. destruct Hset as (Hk & Hlt & ->).
  exists old. split; [reflexivity|]. split; [apply length_insert|].
  unfold at_index. split.
  - destruct (Z.ltb_spec k 0); [lia|]. apply list_lookup_insert_eq, Hlt.
  - intros k' Hne. destruct (Z.ltb_spec k' 0); [reflexivity|].
    apply list_lookup_insert_ne. lia.
Qed.

#[local] Abbreviation children := (children_of HeapOffset ChildNode).

Lemma UpdateNodeStat_parent_Some (level : Z)
    (tmp : list (NodeStat.t sum_type)) (i : nat) b b' :
  UpdateNodeStat_parent HeapOffset ChildNode level tmp i b = Some b' →
  child level i true ≠ child level i false →
  ∃ best parent,
    _bestSplit b !! i = Some best
    ∧ tmp !! i = Some parent
    ∧ _bestSplit b' = _bestSplit b
    ∧ length (_nodeStat b') = length (_nodeStat b)
    ∧ children level i best parent (_nodeStat b')
    ∧ ∀ k, k ≠ child level i true → k ≠ child level i false →
        at_index (_nodeStat b') k = at_index (_nodeStat b) k.
Proof.
  unfold UpdateNodeStat_parent. intros Hrun Hsides. revert Hrun.
  destruct (_bestSplit b !! i) as [best|]; monad_simpl; [|discriminate].
  destruct (UpdateNodeStat_assign (_nodeStat b) _ _ _) as [stats1|] eqn:H1;
    monad_simpl; [|discriminate].
  destruct (tmp !! i) as [parent|]; monad_simpl; [|discriminate].
  destruct (UpdateNodeStat_assign stats1 _ _ _) as [stats2|] eqn:H2;
    monad_simpl; [|discriminate].
  intros Hrun. apply (inj Some) in Hrun. subst b'.
  apply UpdateNodeStat_assign_Some in H1, H2.
  destruct H1 as (old1 & _ & Hlen1 & Hnew1 & Hrest1).
  destruct H2 as (old2 & _ & Hlen2 & Hnew2 & Hrest2).
  exists best, parent. cbn [set_nodeStat _bestSplit _nodeStat].
  split; [reflexivity|]. split; [reflexivity|]. split; [reflexivity|].
  split; [congruence|]. split.
  - eexists _, _. split; [rewrite Hrest2 by exact Hsides; exact Hnew1|].
    split; [exact Hnew2|]. cbn [NodeStat.count NodeStat.sum_grad].
    repeat split; lia.
  - intros k HkL HkR. rewrite Hrest2, Hrest1 by assumption. reflexivity.
Qed.

(** X19. For a level other than 0, whenever the nodes of the tree give
    the split leaves of the level above distinct children, the first loop
    of [UpdateNodeStat] gives the left child of every such leaf the count
    and the gradient sum of the leaf's split, and the right child the
    remainder of what the leaf itself held before the call, so that the
    two counts add up to the leaf's; the leaf's own statistics are read
    from the copy taken before the loop, also when the loop has already
    overwritten them. Entries that are no child, and the split records,
    stay. *)
Theorem UpdateNodeStat_children_partition (level : Z) b b' :
  (∀ (i j : nat) (s s' : bool),
     (i < Z.to_nat (2 ^ (level - 1)))%nat →
     (j < Z.to_nat (2 ^ (level - 1)))%nat →
     child level i s = child level j s' → i = j ∧ s = s') →
  UpdateNodeStat_children HeapOffset ChildNode level b = Some b' →
  _bestSplit b' = _bestSplit b
  ∧ length (_nodeStat b') = length (_nodeStat b)
  ∧ (∀ i : nat, (i < Z.to_nat (2 ^ (level - 1)))%nat →
       ∃ best parent,
         _bestSplit b !! i = Some best
         ∧ _nodeStat b !! i = Some parent
         ∧ children level i best parent (_nodeStat b'))
  ∧ (∀ k,
       (∀ (i : nat) (s : bool), (i < Z.to_nat (2 ^ (level - 1)))%nat →
          k ≠ child level i s) →
       at_index (_nodeStat b') k = at_index (_nodeStat b) k).
Proof.
  intros Hinj Hrun. unfold UpdateNodeStat_children in Hrun. cbv zeta in Hrun.
  set (len := Z.to_nat (2 ^ (level - 1))) in *.
  pose proof (for_loop_indexed_invariant
                (UpdateNodeStat_parent HeapOffset ChildNode level (_nodeStat b))
                (λ n t,
                   (n <= len)%nat
                   ∧ _bestSplit t = _bestSplit b
                   ∧ length (_nodeStat t) = length (_nodeStat b)
                   ∧ (∀ i : nat, (i < n)%nat →
                        ∃ best parent,
                          _bestSplit b !! i = Some best
                          ∧ _nodeStat b !! i = Some parent
                          ∧ children level i best parent (_nodeStat t))
                   ∧ (∀ k,
                        (∀ (i : nat) (s : bool), (i < n)%nat →
                           k ≠ child level i s) →
                        at_index (_nodeStat t) k = at_index (_nodeStat b) k))
                len 0 b b') as Hloop.
  destruct Hloop as (_ & Hbs & Hlen & Hdone & Hrest); [| |exact Hrun|].
  - intros n t t' Hn (_ & Hbs & Hlen & Hdone & Hrest) Hstep.
    apply UpdateNodeStat_parent_Some in Hstep.
    2: { intros Heq. apply Hinj in Heq; [|lia|lia]. destruct Heq. discriminate. }
    destruct Hstep as (best & parent & Hbest & Hparent & Hbs' & Hlen' & Hnew
                       & Hrest').
    split; [lia|]. split; [congruence|]. split; [congruence|]. split.
    + intros i Hi. destruct (decide (i = n)) as [-> | Hne].
      * exists best, parent. rewrite <- Hbs. auto.
      * destruct (Hdone i ltac:(lia)) as (best0 & parent0 & Hb0 & Hp0 & Hc0).
        exists best0, parent0. split; [exact Hb0|]. split; [exact Hp0|].
        destruct Hc0 as (l & r & Hl & Hr & Hfields).
        exists l, r. rewrite !Hrest'; [auto| | | |];
          intros Heq; apply Hinj in Heq; lia.
    + intros k Hk. rewrite Hrest'; [apply Hrest| |].
      * intros i s Hi. apply Hk. lia.
      * apply Hk. lia.
      * apply Hk. lia.
  - split; [lia|]. split; [reflexivity|]. split; [reflexivity|].
    split; [intros i Hi; lia | reflexivity].
  - auto.
Qed.
End UpdateNodeStatProperties.

Lemma UpdateNodeStat_children_partition_witness :
  let HeapOffset := λ level, 2 ^ level - 1 in
  let ChildNode :=
    λ node (isLeft : bool), 2 * node + (if isLeft then 1 else 2) in
  let b :=
    set_bestSplit
      (set_nodeStat unclaimed_builder
         [NodeStat.Build 4 (F32.of_Z 2) F32.zero;
          NodeStat.Build 0 F32.zero F32.zero])
      [{| Split.fid := 0; Split.gain := F32.of_Z 4;
          Split.split_value := F32.of_Z 1; Split.split_by_true := false;
          Split.count := 1; Split.sum_grad := F32.of_Z (-1) |}] in
  ∃ b',
    UpdateNodeStat_children HeapOffset ChildNode 1 b = Some b'
    ∧ map NodeStat.count (_nodeStat b') = [1; 3]
    ∧ map NodeStat.sum_grad (_nodeStat b') = [F32.of_Z (-1); F32.of_Z 3].
Proof.
  intros HeapOffset ChildNode b.
  destruct (UpdateNodeStat_children HeapOffset ChildNode 1 b) as [b'|]
    eqn:Hrun; [|vm_compute in Hrun; discriminate].
  exists b'. split; [reflexivity|].
  assert (Hinj : ∀ (i j : nat) (s s' : bool),
            (i < Z.to_nat (2 ^ (1 - 1)))%nat →
            (j < Z.to_nat (2 ^ (1 - 1)))%nat →
            UpdateNodeStat_child HeapOffset ChildNode 1 i s
            = UpdateNodeStat_child HeapOffset ChildNode 1 j s' →
            i = j ∧ s = s').
  { intros i j s s' Hi Hj. change (Z.to_nat (2 ^ (1 - 1))) with 1%nat in *.
    assert (i = 0%nat) by lia. assert (j = 0%nat) by lia. subst i j.
    destruct s, s'; vm_compute; intros Heq; try discriminate; auto. }
  destruct (UpdateNodeStat_children_partition HeapOffset ChildNode 1 b b'
              Hinj Hrun) as (_ & Hlen & Hparts & _).
  destruct (Hparts 0%nat ltac:(vm_compute; lia))
    as (best & parent & Hbest & Hparent & l & r & Hl & Hr & Hcl & Hsl & Hcr
        & Hsr & _).
  cbv in Hbest. injection Hbest as <-. cbv in Hparent. injection Hparent as <-.
  destruct (_nodeStat b') as [|x [|y [|z stats]]]; try discriminate Hlen.
  vm_compute in Hl. injection Hl as ->. vm_compute in Hr. injection Hr as ->.
  cbn [map]. rewrite Hcl, Hcr, Hsl, Hsr. split; reflexivity.
Defined.

Section UpdateNodeStatReset.
Context {sum_type : Type} `{SumType sum_type}.
Implicit Types (b : Builder sum_type).

Lemma UpdateNodeStat_reset_leaf_Some (i : nat) b b' :
  UpdateNodeStat_reset_leaf i b = Some b' →
  ∃ node_stat,
    _nodeStat b !! i = Some node_stat
    ∧ (i < length (_bestSplit b))%nat
    ∧ b' = set_bestSplit
             (set_nodeStat b
                (<[i := {| NodeStat.count := NodeStat.count node_stat;
                           NodeStat.sum_grad := NodeStat.sum_grad node_stat;
                           NodeStat.gain := F32.zero |}]> (_nodeStat b)))
             (<[i := clean_split]> (_bestSplit b)).
Proof.
  unfold UpdateNodeStat_reset_leaf.
  destruct (_nodeStat b !! i) as [node_stat|]; monad_simpl; [|discriminate].
  destruct (_bestSplit b !! i) as [best|] eqn:Hbest; monad_simpl;
    [|discriminate].
  intros Hrun. apply (inj Some) in Hrun. subst b'.
  exists node_stat. split; [reflexivity|]. split; [|reflexivity].
  apply lookup_lt_is_Some. eauto.
Qed.

(** X20. The last loop of [UpdateNodeStat] leaves every leaf of the level
    without a split ([fid = -1], the gain against which the features of
    the level are compared being 0) and with the gain of its statistics
    at 0, and keeps the count and the gradient sum of the leaf; the
    records and statistics from [1 << level] on are not touched, and the
    row-to-leaf table stays. *)
Theorem UpdateNodeStat_reset_level (level : Z) b b' :
  UpdateNodeStat_reset level b = Some b' →
  _rowIndex2Node b' = _rowIndex2Node b
  ∧ (∀ i : nat, (i < Z.to_nat (2 ^ level))%nat →
       _bestSplit b' !! i = Some clean_split
       ∧ ∃ node_stat,
           _nodeStat b !! i = Some node_stat
           ∧ _nodeStat b' !! i
             = Some {| NodeStat.count := NodeStat.count node_stat;
                       NodeStat.sum_grad := NodeStat.sum_grad node_stat;
                       NodeStat.gain := F32.zero |})
  ∧ (∀ i : nat, (Z.to_nat (2 ^ level) <= i)%nat →
       _bestSplit b' !! i = _bestSplit b !! i
       ∧ _nodeStat b' !! i = _nodeStat b !! i).
Proof.
  intros Hrun. unfold UpdateNodeStat_reset in Hrun.
  pose proof (for_loop_indexed_invariant UpdateNodeStat_reset_leaf
                (λ n t,
                   _rowIndex2Node t = _rowIndex2Node b
                   ∧ (∀ i : nat, (i < n)%nat →
                        _bestSplit t !! i = Some clean_split
                        ∧ ∃ node_stat,
                            _nodeStat b !! i = Some node_stat
                            ∧ _nodeStat t !! i
                              = Some {| NodeStat.count :=
                                          NodeStat.count node_stat;
                                        NodeStat.sum_grad :=
                                          NodeStat.sum_grad node_stat;
                                        NodeStat.gain := F32.zero |})
                   ∧ (∀ i : nat, (n <= i)%nat →
                        _bestSplit t !! i = _bestSplit b !! i
                        ∧ _nodeStat t !! i = _nodeStat b !! i))
                (Z.to_nat (2 ^ level)) 0 b b') as Hloop.
  apply Hloop; [| |exact Hrun]; clear Hloop Hrun.
  - intros n t t' _ (Hrows & Hdone & Hrest) Hstep.
    apply UpdateNodeStat_reset_leaf_Some in Hstep.
    destruct Hstep as (node_stat & Hstat & Hlt & ->).
    cbn [set_bestSplit set_nodeStat _rowIndex2Node _bestSplit _nodeStat].
    assert (Hlt' : (n < length (_nodeStat t))%nat)
      by (apply lookup_lt_is_Some; eauto).
    split; [exact Hrows|]. split.
    + intros i Hi. destruct (decide (i = n)) as [-> | Hne].
      * rewrite !list_lookup_insert_eq by assumption.
        split; [reflexivity|]. exists node_stat.
        split; [|reflexivity]. rewrite <- Hstat. symmetry. apply Hrest. lia.
      * rewrite !list_lookup_insert_ne by auto. apply Hdone. lia.
    + intros i Hi. rewrite !list_lookup_insert_ne by lia. apply Hrest. lia.
  - split; [reflexivity|]. split; [intros i Hi; lia | auto].
Qed.
End UpdateNodeStatReset.

Lemma UpdateNodeStat_reset_level_witness :
  let b :=
    set_bestSplit unclaimed_builder
      [degenerate_split (clean_split (H := SumType_float))
         (NodeStat.Build 2 (F32.of_Z 3) F32.zero)] in
  ∃ b',
    UpdateNodeStat_reset 0 b = Some b'
    ∧ _bestSplit b' = [clean_split]
    ∧ _nodeStat b' = _nodeStat b.
Proof.
  intros b.
  destruct (UpdateNodeStat_reset 0 b) as [b'|] eqn:Hrun;
    [|vm_compute in Hrun; discriminate].
  exists b'. split; [reflexivity|].
  destruct (UpdateNodeStat_reset_level 0 b b' Hrun) as (_ & Hdone & Hrest).
  destruct (Hdone 0%nat ltac:(vm_compute; lia))
    as (Hclean & node_stat & Hstat & Hstat').
  pose proof (Hrest 1%nat ltac:(vm_compute; lia)) as [Hb1 Hs1].
  cbv in Hstat. injection Hstat as <-.
  split.
  - destruct (_bestSplit b') as [|x [|y l]]; try discriminate.
    cbn in Hclean. injection Hclean as ->. reflexivity.
  - destruct (_nodeStat b') as [|x [|y l]]; try discriminate.
    cbn in Hstat'. injection Hstat' as ->. reflexivity.
Defined.

(** ** [gather_kernel_temp] on its grid *)

Lemma grid_stride_lt (fuel stride n : nat) :
  ∀ start i, i ∈ grid_stride fuel start stride n → (i < n)%nat.
Proof.
  induction fuel as [| fuel IH]; intros start i Hi; cbn [grid_stride] in Hi.
  - apply elem_of_nil in Hi. contradiction.
  - destruct (Nat.ltb_spec start n) as [Hlt | Hge].
    + apply elem_of_cons in Hi. destruct Hi as [-> | Hi]; [exact Hlt|].
      exact (IH _ _ Hi).
    + apply elem_of_nil in Hi. contradiction.
Qed.

Lemma grid_stride_reaches (fuel stride n : nat) :
  ∀ start k, (k < fuel)%nat → (start + k * stride < n)%nat →
    (start + k * stride)%nat ∈ grid_stride fuel start stride n.
Proof.
  induction fuel as [| fuel IH]; intros start k Hk Hlt; [lia|].
  cbn [grid_stride]. destruct (Nat.ltb_spec start n) as [Hs | Hs]; [|nia].
  destruct k as [| k].
  - rewrite Nat.mul_0_l, Nat.add_0_r. apply elem_of_cons. left. reflexivity.
  - apply elem_of_cons. right.
    replace (start + S k * stride)%nat with (start + stride + k * stride)%nat
      by lia.
    apply IH; lia.
Qed.

Lemma block_indices_lt (blockDim gridDim blockIdx n i : nat) :
  i ∈ block_indices blockDim gridDim blockIdx n → (i < n)%nat.
Proof.
  unfold block_indices. rewrite list_elem_of_In, in_flat_map.
  intros (threadIdx & _ & Hi). apply list_elem_of_In in Hi.
  exact (grid_stride_lt _ _ _ _ _ Hi).
Qed.

(** Every index below [n] belongs to a thread of a block of the grid. *)
Lemma block_indices_cover (blockDim gridDim n i : nat) :
  (0 < blockDim)%nat → (0 < gridDim)%nat → (i < n)%nat →
  ∃ blockIdx, (blockIdx < gridDim)%nat
              ∧ i ∈ block_indices blockDim gridDim blockIdx n.
Proof.
  intros Hb Hg Hi.
  set (stride := (gridDim * blockDim)%nat).
  assert (Hstride : (0 < stride)%nat) by (subst stride; nia).
  pose proof (Nat.div_mod_eq i stride) as Hdiv.
  pose proof (Nat.mod_upper_bound i stride ltac:(lia)) as Hmod.
  pose proof (Nat.div_mod_eq (i mod stride) blockDim) as Hdiv'.
  pose proof (Nat.mod_upper_bound (i mod stride) blockDim ltac:(lia)) as Hmod'.
  remember (i / stride)%nat as q eqn:Hq.
  remember (i mod stride)%nat as r eqn:Hr.
  remember (r / blockDim)%nat as rb eqn:Hrb.
  remember (r mod blockDim)%nat as rt eqn:Hrt.
  exists rb. split; [subst stride; nia|].
  unfold block_indices. rewrite list_elem_of_In, in_flat_map.
  exists rt. split; [apply in_seq; lia|].
  apply list_elem_of_In. fold stride.
  assert (Hi' : i = (blockDim * rb + rt + q * stride)%nat) by lia.
  rewrite Hi' at 1.
  apply grid_stride_reaches; [|lia]. nia.
Qed.

Section GatherTempProperties.
Context {T : Type}.
Implicit Types (mem : list T).

Lemma set_index_effect mem mem' (a : Z) (v : T) :
  set_index mem a v = Some mem' →
  length mem' = length mem
  ∧ at_index mem' a = Some v
  ∧ ∀ a', a' ≠ a → at_index mem' a' = at_index mem a'.
Proof.
  intros Hset. apply set_index_Some in Hset. destruct Hset as (Ha & Hlt & ->).
  split; [apply length_insert|]. unfold at_index. split.
  - destruct (Z.ltb_spec a 0); [lia|]. apply list_lookup_insert_eq, Hlt.
  - intros a' Hne. destruct (Z.ltb_spec a' 0); [reflexivity|].
    apply list_lookup_insert_ne. lia.
Qed.

Lemma at_index_in mem (a : Z) :
  0 <= a < Z.of_nat (length mem) → is_Some (at_index mem a).
Proof.
  intros Ha. unfold at_index. destruct (Z.ltb_spec a 0); [lia|].
  apply lookup_lt_is_Some. lia.
Qed.

Lemma set_index_in mem (a : Z) (v : T) :
  0 <= a < Z.of_nat (length mem) → is_Some (set_index mem a v).
Proof.
  intros Ha. unfold set_index.
  destruct (Z.leb_spec 0 a); [|lia].
  destruct (Z.ltb_spec a (Z.of_nat (length mem))); [|lia]. eauto.
Qed.

(** Threads that copy cell [src i] to cell [dst i], one after the other:
    when no thread writes a cell that one of them reads, every thread's
    value is the one its source had at the start. *)
Lemma run_threads_copy (src : nat → option Z) (dst : nat → Z)
    (indices : list nat) :
  (∀ i j, i ∈ indices → j ∈ indices → dst i = dst j → i = j) →
  ∀ mem,
    (∀ i, i ∈ indices →
       0 <= dst i < Z.of_nat (length mem)
       ∧ ∃ a, src i = Some a ∧ 0 <= a < Z.of_nat (length mem)
              ∧ ∀ j, j ∈ indices → dst j ≠ a) →
    ∃ mem',
      run_threads (λ i, copy_cell (src i) (dst i)) indices mem = Some mem'
      ∧ length mem' = length mem
      ∧ (∀ i, i ∈ indices →
           ∃ a, src i = Some a ∧ at_index mem' (dst i) = at_index mem a)
      ∧ (∀ a, (∀ i, i ∈ indices → a ≠ dst i) →
           at_index mem' a = at_index mem a).
Proof.
  induction indices as [| i0 rest IH]; intros Hinj mem Hok.
  - exists mem. split; [reflexivity|]. split; [reflexivity|].
    split; [|reflexivity]. intros i Hi. apply elem_of_nil in Hi. contradiction.
  - destruct (Hok i0 ltac:(left)) as (Hdst0 & a0 & Hsrc0 & Ha0 & Hfree0).
    destruct (at_index_in mem a0 Ha0) as [v0 Hv0].
    destruct (set_index_in mem (dst i0) v0 Hdst0) as [mem1 Hmem1].
    pose proof (set_index_effect _ _ _ _ Hmem1) as (Hlen1 & Hnew1 & Hrest1).
    destruct (IH ltac:(intros i j Hi Hj; apply Hinj; right; assumption) mem1)
      as (mem' & Hrun & Hlen & Hdone & Hframe).
    { intros i Hi. rewrite Hlen1.
      destruct (Hok i ltac:(right; exact Hi)) as (Hdst & a & Hsrc & Ha & Hfree).
      split; [exact Hdst|]. exists a. split; [exact Hsrc|]. split; [exact Ha|].
      intros j Hj. apply Hfree. right. exact Hj. }
    exists mem'. split.
    { assert (Hstep : copy_cell (src i0) (dst i0) mem = Some mem1).
      { unfold copy_cell. rewrite Hsrc0. monad_simpl. rewrite Hv0.
        monad_simpl. exact Hmem1. }
      cbn [run_threads]. rewrite Hstep. exact Hrun. }
    split; [congruence|]. split.
    + intros i Hi.
      destruct (Hok i Hi) as (_ & a & Hsrc & _ & Hfree).
      exists a. split; [exact Hsrc|].
      assert (Ha1 : at_index mem1 a = at_index mem a).
      { apply Hrest1. intros ->. exact (Hfree i0 ltac:(left) eq_refl). }
      destruct (decide (i ∈ rest)) as [Hin | Hout].
      * destruct (Hdone i Hin) as (a' & Hsrc' & Hval).
        assert (a' = a) by congruence. subst a'. congruence.
      * apply elem_of_cons in Hi. destruct Hi as [-> | Hi]; [|contradiction].
        assert (a = a0) by congruence. subst a.
        rewrite Hframe, Hnew1; [congruence|].
        intros j Hj Heq. apply Hinj in Heq; [|left|right; exact Hj].
        subst j. contradiction.
    + intros a Ha. rewrite Hframe.
      * apply Hrest1, Ha. left.
      * intros i Hi. apply Ha. right. exact Hi.
Qed.
Variable position : list Z.
Variables data out tmp : Z.
Variables blockDim gridDim n : nat.

#[local] Abbreviation block :=
  (gather_kernel_temp_block position data out tmp blockDim gridDim n).

(** The value [gather_kernel_temp] is to leave in [out[i]], taken from the
    memory [mem0] the kernel starts with. *)
#[local] Abbreviation gathered mem0 mem i :=
  (∃ p, position !! i%nat = Some p
        ∧ at_index mem (out + Z.of_nat i) = at_index mem0 (data + p)).

Hypothesis positions_in : ∀ i, (i < n)%nat →
  ∃ p, position !! i = Some p ∧ 0 <= p < Z.of_nat n.
Hypothesis tmp_data : buffers_apart tmp data n.
Hypothesis tmp_out : buffers_apart tmp out n.

(** One block, whatever [data] and [out] have in common: every index of
    the block gets the value its source had when the block started, and
    only the cells of [tmp] and [out] at these indices are written. *)
Lemma gather_kernel_temp_block_effect (blockIdx : nat) mem :
  buffer_in data n mem → buffer_in out n mem → buffer_in tmp n mem →
  ∃ mem',
    block blockIdx mem = Some mem'
    ∧ length mem' = length mem
    ∧ (∀ i, i ∈ block_indices blockDim gridDim blockIdx n →
         gathered mem mem' i)
    ∧ (∀ a,
         (∀ i, i ∈ block_indices blockDim gridDim blockIdx n →
            a ≠ tmp + Z.of_nat i ∧ a ≠ out + Z.of_nat i) →
         at_index mem' a = at_index mem a).
Proof.
  intros Hdata Hout Htmp. unfold buffer_in, buffers_apart in *.
  set (indices := block_indices blockDim gridDim blockIdx n).
  assert (Hlt : ∀ i, i ∈ indices → (i < n)%nat)
    by (intros i; apply block_indices_lt).
  destruct (run_threads_copy
              (λ i, p ← position !! i; Some (data + p))
              (λ i, tmp + Z.of_nat i) indices) with (mem := mem)
    as (mem1 & Hrun1 & Hlen1 & Hdone1 & Hframe1).
  { intros i j _ _. lia. }
  { intros i Hi. apply Hlt in Hi. split; [lia|].
    destruct (positions_in i Hi) as (p & Hp & Hrange).
    exists (data + p). rewrite Hp. split; [reflexivity|]. split; [lia|].
    intros j Hj. apply Hlt in Hj. lia. }
  destruct (run_threads_copy
              (λ i, Some (tmp + Z.of_nat i))
              (λ i, out + Z.of_nat i) indices) with (mem := mem1)
    as (mem2 & Hrun2 & Hlen2 & Hdone2 & Hframe2).
  { intros i j _ _. lia. }
  { intros i Hi. apply Hlt in Hi. rewrite Hlen1. split; [lia|].
    exists (tmp + Z.of_nat i). split; [reflexivity|]. split; [lia|].
    intros j Hj. apply Hlt in Hj. lia. }
  exists mem2. split.
  { unfold gather_kernel_temp_block. fold indices.
    unfold gather_kernel_temp_load, gather_kernel_temp_store.
    rewrite Hrun1. exact Hrun2. }
  split; [congruence|]. split.
  - intros i Hi.
    destruct (Hdone1 i Hi) as (a & Ha & Hval1).
    destruct (Hdone2 i Hi) as (a' & Ha' & Hval2).
    apply (inj Some) in Ha'. subst a'.
    destruct (positions_in i (Hlt i Hi)) as (p & Hp & _).
    rewrite Hp in Ha. apply (inj Some) in Ha. subst a.
    exists p. split; [exact Hp | congruence].
  - intros a Ha. rewrite Hframe2, Hframe1; [reflexivity| |];
      intros i Hi; apply Ha, Hi.
Qed.

Lemma gather_kernel_temp_blocks_effect (mem0 : list T) :
  buffers_apart data out n →
  buffer_in data n mem0 → buffer_in out n mem0 → buffer_in tmp n mem0 →
  ∀ (blocks : list nat) mem,
    length mem = length mem0 →
    (∀ a, (a < tmp ∨ tmp + Z.of_nat n <= a) →
          (a < out ∨ out + Z.of_nat n <= a) →
          at_index mem a = at_index mem0 a) →
    ∃ mem',
      gather_kernel_temp position data out tmp blockDim gridDim n blocks mem
      = Some mem'
      ∧ length mem' = length mem0
      ∧ (∀ a, (a < tmp ∨ tmp + Z.of_nat n <= a) →
              (a < out ∨ out + Z.of_nat n <= a) →
              at_index mem' a = at_index mem0 a)
      ∧ (∀ i, (i < n)%nat → gathered mem0 mem i → gathered mem0 mem' i)
      ∧ (∀ blockIdx i, blockIdx ∈ blocks →
           i ∈ block_indices blockDim gridDim blockIdx n →
           gathered mem0 mem' i).
Proof.
  intros Hdata_out Hdata Hout Htmp blocks.
  induction blocks as [| blockIdx blocks IH]; intros mem Hlen Hsame.
  - exists mem. split; [reflexivity|]. split; [exact Hlen|].
    split; [exact Hsame|]. split; [auto|].
    intros blockIdx i Hin. apply elem_of_nil in Hin. contradiction.
  - unfold buffer_in, buffers_apart in *.
    destruct (gather_kernel_temp_block_effect blockIdx mem)
      as (mem1 & Hblock & Hlen1 & Hdone1 & Hframe1);
      [unfold buffer_in; lia..|].
    assert (Hlt : ∀ i, i ∈ block_indices blockDim gridDim blockIdx n →
                       (i < n)%nat)
      by (intros i; apply block_indices_lt).
    assert (Hgood1 : ∀ i, i ∈ block_indices blockDim gridDim blockIdx n →
                          gathered mem0 mem1 i).
    { intros i Hi. destruct (Hdone1 i Hi) as (p & Hp & Hval).
      exists p. split; [exact Hp|]. rewrite Hval.
      destruct (positions_in i (Hlt i Hi)) as (p' & Hp' & Hrange).
      assert (p' = p) by congruence. subst p'.
      apply Hsame; lia. }
    assert (Hkeep1 : ∀ i, (i < n)%nat → gathered mem0 mem i →
                          gathered mem0 mem1 i).
    { intros i Hi (p & Hp & Hval).
      destruct (decide (i ∈ block_indices blockDim gridDim blockIdx n))
        as [Hin | Hout']; [exact (Hgood1 i Hin)|].
      exists p. split; [exact Hp|]. rewrite <- Hval. apply Hframe1.
      intros j Hj. pose proof (Hlt j Hj).
      split; [lia|]. intros Heq.
      assert (i = j) by lia. subst j. contradiction. }
    destruct (IH mem1) as (mem' & Hrun & Hlen' & Hsame' & Hkeep & Hgood).
    { congruence. }
    { intros a Ha1 Ha2. rewrite Hframe1; [apply Hsame; assumption|].
      intros i Hi. pose proof (Hlt i Hi). lia. }
    exists mem'. split.
    { unfold gather_kernel_temp in *. cbn [run_threads]. rewrite Hblock.
      exact Hrun. }
    split; [exact Hlen'|]. split; [exact Hsame'|]. split.
    + intros i Hi Hg. apply Hkeep; [exact Hi|]. apply Hkeep1; assumption.
    + intros blk i Hblk Hi. apply elem_of_cons in Hblk.
      destruct Hblk as [-> | Hblk]; [|exact (Hgood blk i Hblk Hi)].
      apply Hkeep; [exact (Hlt i Hi) | exact (Hgood1 i Hi)].
Qed.

(** X21. With [tmp], [data] and [out] three buffers of [n] cells that do
    not meet, a grid of at least one block of at least one thread, and
    positions below [n], [gather_kernel_temp] gathers in whatever order
    its blocks run: [out[i]] ends as [data[position[i]]] for every
    [i < n], and no cell outside [out] and [tmp] is written. *)
Theorem gather_kernel_temp_gathers (schedule : list nat) mem :
  (0 < blockDim)%nat → (0 < gridDim)%nat →
  schedule ≡ₚ seq 0 gridDim →
  buffers_apart data out n →
  buffer_in data n mem → buffer_in out n mem → buffer_in tmp n mem →
  ∃ mem',
    gather_kernel_temp position data out tmp blockDim gridDim n schedule mem
    = Some mem'
    ∧ length mem' = length mem
    ∧ (∀ i, (i < n)%nat → gathered mem mem' i)
    ∧ (∀ a, (a < tmp ∨ tmp + Z.of_nat n <= a) →
            (a < out ∨ out + Z.of_nat n <= a) →
            at_index mem' a = at_index mem a).
Proof.
  intros Hb Hg Hschedule Hdata_out Hdata Hout Htmp.
  destruct (gather_kernel_temp_blocks_effect mem Hdata_out Hdata Hout Htmp
              schedule mem eq_refl ltac:(auto))
    as (mem' & Hrun & Hlen & Hsame & _ & Hgood).
  exists mem'. split; [exact Hrun|]. split; [exact Hlen|].
  split; [|exact Hsame].
  intros i Hi.
  destruct (block_indices_cover blockDim gridDim n i Hb Hg Hi)
    as (blockIdx & Hblock & Hin).
  apply (Hgood blockIdx i); [|exact Hin].
  rewrite Hschedule. apply elem_of_seq. lia.
Qed.

(** X22. Run as one block, [gather_kernel_temp] gathers also in place:
    whatever [data] and [out] have in common, and be they the same
    buffer, [out[i]] ends as the value [data[position[i]]] had before the
    launch, provided [tmp] meets neither. *)
Theorem gather_kernel_temp_one_block mem :
  (0 < blockDim)%nat → gridDim = 1%nat →
  buffer_in data n mem → buffer_in out n mem → buffer_in tmp n mem →
  ∃ mem',
    gather_kernel_temp position data out tmp blockDim gridDim n [0%nat] mem
    = Some mem'
    ∧ length mem' = length mem
    ∧ ∀ i, (i < n)%nat → gathered mem mem' i.
Proof.
  intros Hb Hg Hdata Hout Htmp.
  destruct (gather_kernel_temp_block_effect 0 mem Hdata Hout Htmp)
    as (mem' & Hblock & Hlen & Hdone & _).
  exists mem'. split.
  { unfold gather_kernel_temp. cbn [run_threads]. rewrite Hblock.
    reflexivity. }
  split; [exact Hlen|]. intros i Hi.
  destruct (block_indices_cover blockDim gridDim n i Hb ltac:(lia) Hi)
    as (blockIdx & Hblock' & Hin).
  assert (blockIdx = 0%nat) by lia. subst blockIdx.
  exact (Hdone i Hin).
Qed.
End GatherTempProperties.

(** X23. In place on a grid of more than one block,
    [gather_kernel_temp] does not gather in general: the barrier holds one
    block, and a block that runs after another one reads cells the other
    has already overwritten. With two blocks of one thread, the positions
    [1, 0] and the blocks run in the order 0, 1, both cells end with the
    value of the second. *)
Theorem gather_kernel_temp_in_place_race :
  ∃ (position : list Z) (mem mem' : list Z) (i : nat) (p : Z),
    gather_kernel_temp position 0 0 2 1 2 2 [0; 1]%nat mem = Some mem'
    ∧ (i < 2)%nat
    ∧ position !! i = Some p
    ∧ 0 <= p < 2
    ∧ at_index mem' (0 + Z.of_nat i) ≠ at_index mem (0 + p).
Proof.
  exists [1; 0], [10; 20; 0; 0], [20; 20; 20; 20], 1%nat, 0.
  split; [reflexivity|]. split; [lia|]. split; [reflexivity|].
  split; [lia|]. cbv. discriminate.
Qed.

Lemma gather_kernel_temp_gathers_witness :
  ∃ mem',
    gather_kernel_temp [1; 0] 0 2 4 1 2 2 [1; 0]%nat [10; 20; 0; 0; 0; 0]
    = Some mem'
    ∧ at_index mem' 2 = Some 20 ∧ at_index mem' 3 = Some 10.
Proof.
  assert (Hpos : ∀ i, (i < 2)%nat →
            ∃ p, [1; 0] !! i = Some p ∧ 0 <= p < Z.of_nat 2).
  { intros [|[|i]] Hi; [exists 1 | exists 0 | lia]; split; (reflexivity || lia). }
  assert (Hperm : [1; 0]%nat ≡ₚ seq 0 2) by apply Permutation_swap.
  destruct (gather_kernel_temp_gathers [1; 0] 0 2 4 1 2 2 Hpos
              ltac:(right; simpl; lia) ltac:(right; simpl; lia)
              [1; 0]%nat [10; 20; 0; 0; 0; 0]
              ltac:(lia) ltac:(lia) Hperm ltac:(left; simpl; lia)
              ltac:(split; simpl; lia) ltac:(split; simpl; lia)
              ltac:(split; simpl; lia))
    as (mem' & Hrun & _ & Hgood & _).
  exists mem'. split; [exact Hrun|].
  destruct (Hgood 0%nat ltac:(lia)) as (p0 & Hp0 & Hv0).
  destruct (Hgood 1%nat ltac:(lia)) as (p1 & Hp1 & Hv1).
  cbn in Hp0, Hp1. injection Hp0 as <-. injection Hp1 as <-.
  split; [exact Hv0 | exact Hv1].
Defined.

Lemma gather_kernel_temp_one_block_witness :
  ∃ mem',
    gather_kernel_temp [1; 0] 0 0 2 2 1 2 [0%nat] [10; 20; 0; 0] = Some mem'
    ∧ at_index mem' 0 = Some 20 ∧ at_index mem' 1 = Some 10.
Proof.
  assert (Hpos : ∀ i, (i < 2)%nat →
            ∃ p, [1; 0] !! i = Some p ∧ 0 <= p < Z.of_nat 2).
  { intros [|[|i]] Hi; [exists 1 | exists 0 | lia]; split; (reflexivity || lia). }
  destruct (gather_kernel_temp_one_block [1; 0] 0 0 2 2 1 2 Hpos
              ltac:(right; simpl; lia) ltac:(right; simpl; lia)
              [10; 20; 0; 0] ltac:(lia) eq_refl
              ltac:(split; simpl; lia) ltac:(split; simpl; lia)
              ltac:(split; simpl; lia))
    as (mem' & Hrun & _ & Hgood).
  exists mem'. split; [exact Hrun|].
  destruct (Hgood 0%nat ltac:(lia)) as (p0 & Hp0 & Hv0).
  destruct (Hgood 1%nat ltac:(lia)) as (p1 & Hp1 & Hv1).
  cbn in Hp0, Hp1. injection Hp0 as <-. injection Hp1 as <-.
  split; [exact Hv0 | exact Hv1].
Defined.

(** ** Boosting rounds *)

Section RoundProperties.
Context {tree : Type}.
Variable grow_levels : builder_type → nat → tree.
Variable param : TreeParam.
Variable columns : Z.

Lemma Garden_grow_labels_Return (builder : builder_type) (n : nat) :
  ∀ (label : nat) (trees trees' : list tree),
    Garden_grow_labels grow_levels param columns builder label n trees
    = Return trees' →
    trees' = trees ++ map (grow_levels builder) (seq label n)
    ∧ (n ≠ 0%nat → InitGrowingTree param columns = Return tt).
Proof.
  induction n as [| n IH]; intros label trees trees' Hrun;
    cbn [Garden_grow_labels] in Hrun.
  - injection Hrun as <-. rewrite app_nil_r. split; [reflexivity | lia].
  - unfold Builder_GrowTree in Hrun.
    destruct (InitGrowingTree param columns) as [[]| |] eqn:Hinit;
      cbn [outcome_bind] in Hrun; [|discriminate..].
    apply IH in Hrun. destruct Hrun as [-> _].
    rewrite <- app_assoc. split; reflexivity.
Qed.

Lemma Garden_grow_labels_returns (builder : builder_type) (n : nat) :
  (n ≠ 0%nat → InitGrowingTree param columns = Return tt) →
  ∀ (label : nat) (trees : list tree),
    Garden_grow_labels grow_levels param columns builder label n trees
    = Return (trees ++ map (grow_levels builder) (seq label n)).
Proof.
  induction n as [| n IH]; intros Hinit label trees;
    cbn [Garden_grow_labels].
  - rewrite app_nil_r. reflexivity.
  - unfold Builder_GrowTree. rewrite Hinit by lia. cbn [outcome_bind].
    rewrite IH by (intros _; apply Hinit; lia).
    rewrite <- app_assoc. reflexivity.
Qed.

(** X24. A boosting round that returns leaves the trainer initialised
    with a builder, the one it had if it was initialised and the one the
    depth and objective select otherwise, and has appended one tree per
    label to the trees it had, in the order of the labels. The next round
    with the same parameters and data returns as well, creates no builder
    and appends again one tree per label grown with the same builder. *)
Theorem Garden_GrowTree_round (double_precision : bool) (g g1 : Garden tree) :
  Garden_GrowTree grow_levels param double_precision columns g = Return g1 →
  _init g1 = true
  ∧ ∃ builder,
      _builder g1 = Some builder
      ∧ (if _init g then _builder g = Some builder
         else Garden_new_builder param double_precision = Return builder)
      ∧ _trees g1
        = _trees g
          ++ map (grow_levels builder) (seq 0 (labels_count param))
      ∧ Garden_GrowTree grow_levels param double_precision columns g1
        = Return {| _init := true; _builder := Some builder;
                    _trees :=
                      _trees g1
                      ++ map (grow_levels builder)
                           (seq 0 (labels_count param)) |}.
Proof.
  unfold Garden_GrowTree at 1. intros Hrun.
  assert (Hfirst : ∃ builder,
            (if _init g then _builder g = Some builder
             else Garden_new_builder param double_precision = Return builder)
            ∧ Garden_grow_labels grow_levels param columns builder 0
                (labels_count param) (_trees g)
              = Return (_trees g1)
            ∧ _init g1 = true ∧ _builder g1 = Some builder).
  { destruct (_init g) eqn:Hinit; cbn [outcome_bind] in Hrun.
    - destruct (_builder g) as [builder|] eqn:Hb; [|discriminate].
      destruct (Garden_grow_labels _ _ _ _ _ _ _) as [trees| |] eqn:Hgrow;
        cbn [outcome_bind] in Hrun; [|discriminate..].
      injection Hrun as <-. exists builder. cbn [_init _builder _trees].
      rewrite Hgrow. auto.
    - destruct (Garden_new_builder param double_precision)
        as [builder| |] eqn:Hnew; cbn [outcome_bind _builder _trees _init]
        in Hrun; [|discriminate..].
      destruct (Garden_grow_labels _ _ _ _ _ _ _) as [trees| |] eqn:Hgrow;
        cbn [outcome_bind] in Hrun; [|discriminate..].
      injection Hrun as <-. exists builder. cbn [_init _builder _trees].
      rewrite Hgrow. auto. }
  destruct Hfirst as (builder & Hbuilder & Hgrow & Hinit1 & Hbuilder1).
  apply Garden_grow_labels_Return in Hgrow. destruct Hgrow as [Htrees Hinit].
  split; [exact Hinit1|]. exists builder.
  split; [exact Hbuilder1|]. split; [exact Hbuilder|].
  split; [exact Htrees|].
  unfold Garden_GrowTree. rewrite Hinit1. cbn [outcome_bind].
  rewrite Hbuilder1, (Garden_grow_labels_returns builder _ Hinit).
  cbn [outcome_bind]. rewrite Hinit1. reflexivity.
Qed.
End RoundProperties.

Lemma Garden_GrowTree_round_witness :
  let param :=
    {| objective := LogisticRegression; depth := 3;
       colsample_bytree := F32.of_Z 1; colsample_bylevel := F32.of_Z 1;
       labels_count := 2 |} in
  let grow := λ (_ : builder_type) (label : nat), label in
  ∃ g1,
    Garden_GrowTree grow param false 4
      {| _init := false; _builder := None; _trees := [] |} = Return g1
    ∧ _builder g1
      = Some (TaylorApproximationBuilder unsigned_char float2_t float2_t)
    ∧ _trees g1 = [0; 1]%nat.
Proof.
  intros param grow.
  destruct (Garden_GrowTree grow param false 4
              {| _init := false; _builder := None; _trees := [] |})
    as [g1| |] eqn:Hrun; [|vm_compute in Hrun; discriminate..].
  exists g1. split; [reflexivity|].
  destruct (Garden_GrowTree_round grow param 4 false _ g1 Hrun)
    as (_ & builder & Hb & Hnew & Htrees & _).
  cbn [_init] in Hnew. vm_compute in Hnew. injection Hnew as <-.
  split; [exact Hb | exact Htrees].
Defined.

(** X25. Whatever the depth, the builder that [Garden::GrowTree] creates
    takes its gradient type from the objective alone ([float] for the
    linear regression, [float2] for the two others) and its sum type from
    the objective and the precision flag: the gradient type itself in
    single precision, its double counterpart in double precision. *)
Theorem Garden_new_builder_value_types (param : TreeParam)
    (double_precision : bool) (b : builder_type) :
  Garden_new_builder param double_precision = Return b →
  builder_grad b
  = match objective param with
    | LinearRegression => float_t
    | LogisticRegression | SoftMaxOneVsAll => float2_t
    end
  ∧ builder_sum b
    = match objective param, double_precision with
      | LinearRegression, false => float_t
      | LinearRegression, true => double_t
      | _, false => float2_t
      | _, true => mydouble2_t
      end.
Proof.
  unfold Garden_new_builder.
  destruct (objective param), double_precision;
    repeat match goal with
           | |- context [if ?c then _ else _] => destruct c
           end;
    intros Hnew; try discriminate; injection Hnew as <-; split; reflexivity.
Qed.

Lemma Garden_new_builder_value_types_witness :
  let param :=
    {| objective := SoftMaxOneVsAll; depth := 40;
       colsample_bytree := F32.of_Z 1; colsample_bylevel := F32.of_Z 1;
       labels_count := 3 |} in
  ∃ b,
    Garden_new_builder param true = Return b
    ∧ builder_grad b = float2_t ∧ builder_sum b = mydouble2_t.
Proof.
  intros param.
  destruct (Garden_new_builder param true) as [b| |] eqn:Hnew;
    [|vm_compute in Hnew; discriminate..].
  exists b. split; [reflexivity|].
  exact (Garden_new_builder_value_types param true b Hnew).
Defined.

(** ** The counts of the sparse features *)

Lemma update_each_effect {A : Type} (f : nat → A → option A) (n : nat)
    (l l' : list A) :
  update_each f n l = Some l' →
  length l' = length l
  ∧ (∀ i, (i < n)%nat →
       ∃ x y, l !! i = Some x ∧ f i x = Some y ∧ l' !! i = Some y)
  ∧ (∀ i, (n <= i)%nat → l' !! i = l !! i).
Proof.
  intros Hrun. unfold update_each in Hrun.
  pose proof (for_loop_indexed_invariant
                (λ i s, x ← s !! i; y ← f i x; Some (<[i := y]> s))
                (λ k s,
                   length s = length l
                   ∧ (∀ i, (i < k)%nat →
                        ∃ x y, l !! i = Some x ∧ f i x = Some y
                               ∧ s !! i = Some y)
                   ∧ (∀ i, (k <= i)%nat → s !! i = l !! i))
                n 0 l l') as Hloop.
  apply Hloop; [| |exact Hrun]; clear Hloop Hrun.
  - intros k s s' _ (Hlen & Hdone & Hrest).
    destruct (s !! k) as [x|] eqn:Hx; monad_simpl; [|discriminate].
    destruct (f k x) as [y|] eqn:Hy; monad_simpl; [|discriminate].
    intros Hs. apply (inj Some) in Hs. subst s'.
    assert (Hk : (k < length s)%nat) by (apply lookup_lt_is_Some; eauto).
    split; [rewrite length_insert; exact Hlen|]. split.
    + intros i Hi. destruct (decide (i = k)) as [-> | Hne].
      * exists x, y. rewrite <- Hrest by lia.
        split; [exact Hx|]. split; [exact Hy|].
        apply list_lookup_insert_eq, Hk.
      * rewrite list_lookup_insert_ne by auto. apply Hdone. lia.
    + intros i Hi. rewrite list_lookup_insert_ne by lia. apply Hrest. lia.
  - split; [reflexivity|]. split; [intros i Hi; lia | reflexivity].
Qed.

Lemma wrap32_add_l (a b : Z) : wrap32 (wrap32 a + b) = wrap32 (a + b).
Proof. unfold wrap32. apply Zplus_mod_idemp_l. Qed.

Lemma wrap32_add_r (a b : Z) : wrap32 (a + wrap32 b) = wrap32 (a + b).
Proof. unfold wrap32. apply Zplus_mod_idemp_r. Qed.

Lemma cell_Some (stat : list (list Z)) (f node c : Z) :
  cell stat f node = Some c →
  ∃ column, 0 <= f ∧ stat !! Z.to_nat f = Some column
            ∧ 0 <= node ∧ column !! Z.to_nat node = Some c.
Proof.
  unfold cell.
  destruct (at_index stat f) as [column|] eqn:Hcol; monad_simpl;
    [|discriminate].
  intros Hc. apply at_index_Some in Hcol, Hc. exists column. tauto.
Qed.

Lemma cell_lookup (stat : list (list Z)) (f node : Z) (column : list Z) :
  0 <= f → 0 <= node → stat !! Z.to_nat f = Some column →
  cell stat f node = column !! Z.to_nat node.
Proof.
  intros Hf Hnode Hcol. unfold cell, at_index.
  destruct (Z.ltb_spec f 0); [lia|]. rewrite Hcol. monad_simpl.
  destruct (Z.ltb_spec node 0); [lia | reflexivity].
Qed.

Lemma cell_replicate (m n : nat) (f node : Z) :
  0 <= f < Z.of_nat m → 0 <= node < Z.of_nat n →
  cell (replicate m (replicate n 0)) f node = Some 0.
Proof.
  intros Hf Hnode.
  assert (Hcol : replicate m (replicate n 0) !! Z.to_nat f
                 = Some (replicate n 0)).
  { apply lookup_replicate. split; [reflexivity | lia]. }
  rewrite (cell_lookup _ f node _ (proj1 Hf) (proj1 Hnode) Hcol).
  apply lookup_replicate. split; [reflexivity | lia].
Qed.

Lemma at_index_insert {A : Type} (l : list A) (k j : Z) (v : A) :
  0 <= k → (Z.to_nat k < length l)%nat →
  at_index (<[Z.to_nat k := v]> l) j
  = if decide (j = k) then Some v else at_index l j.
Proof.
  intros Hk Hlt. unfold at_index. destruct (decide (j = k)) as [-> | Hne].
  - destruct (Z.ltb_spec k 0); [lia|]. apply list_lookup_insert_eq, Hlt.
  - destruct (Z.ltb_spec j 0); [reflexivity|].
    apply list_lookup_insert_ne. lia.
Qed.

Section SparseStatProperties.
Variable columns_dense : Z.
Variable columns_sparse : nat.
Variable lil_row : list (list Z).
Variable width : nat.
Variable _rowIndex2Node : list Z.

#[local] Abbreviation adds' := (adds columns_sparse width).
#[local] Abbreviation row_count' :=
  (row_count columns_dense lil_row _rowIndex2Node).
#[local] Abbreviation rows_count' :=
  (rows_count columns_dense lil_row _rowIndex2Node).

(** The counters of the table are those of [unsigned int]. *)
#[local] Abbreviation ranged stat :=
  (∀ f node c, 0 <= f < Z.of_nat columns_sparse →
     0 <= node < Z.of_nat width →
     cell stat f node = Some c → wrap32 c = c).

Lemma adds_ranged (delta : Z → Z → Z) (stat stat' : list (list Z)) :
  adds' delta stat stat' → ranged stat'.
Proof.
  intros Hadds f node c Hf Hnode. rewrite (Hadds f node Hf Hnode).
  destruct (cell stat f node); monad_simpl; [|discriminate].
  intros [= <-]. unfold wrap32. apply Z.mod_mod. lia.
Qed.

Lemma adds_same (delta : Z → Z → Z) (stat : list (list Z)) :
  ranged stat → (∀ f node, delta f node = 0) → adds' delta stat stat.
Proof.
  intros Hranged Hzero f node Hf Hnode.
  destruct (cell stat f node) as [c|] eqn:Hc; monad_simpl; [|reflexivity].
  rewrite Hzero, Z.add_0_r, (Hranged f node c Hf Hnode Hc). reflexivity.
Qed.

Lemma adds_trans (d1 d2 d : Z → Z → Z) (s1 s2 s3 : list (list Z)) :
  adds' d1 s1 s2 → adds' d2 s2 s3 →
  (∀ f node, d f node = d1 f node + d2 f node) → adds' d s1 s3.
Proof.
  intros H12 H23 Hd f node Hf Hnode.
  rewrite (H23 f node Hf Hnode), (H12 f node Hf Hnode).
  destruct (cell s1 f node) as [c|]; monad_simpl; [|reflexivity].
  rewrite wrap32_add_l, Hd. do 2 f_equal. lia.
Qed.

Lemma count_up_adds (stat stat' : list (list Z)) (f0 node0 : Z) :
  ranged stat → count_up stat f0 node0 = Some stat' →
  adds' (λ f node, if decide (f = f0 ∧ node = node0) then 1 else 0)
    stat stat'.
Proof.
  intros Hranged. unfold count_up.
  destruct (at_index stat f0) as [column|] eqn:Hcol; monad_simpl;
    [|discriminate].
  destruct (at_index column node0) as [c0|] eqn:Hc0; monad_simpl;
    [|discriminate].
  destruct (set_index column node0 _) as [column'|] eqn:Hset; monad_simpl;
    [|discriminate].
  intros Hstat. apply set_index_Some in Hset, Hstat.
  destruct Hset as (Hnode0 & Hlt0 & ->). destruct Hstat as (Hf0 & Hltf & ->).
  intros f node Hf Hnode. unfold cell at 1.
  rewrite at_index_insert by assumption.
  destruct (decide (f = f0)) as [-> | Hnef]; monad_simpl.
  - rewrite at_index_insert by assumption.
    unfold cell. rewrite Hcol. monad_simpl.
    destruct (decide (node = node0)) as [-> | Hnen].
    + rewrite Hc0. monad_simpl.
      destruct (decide (f0 = f0 ∧ node0 = node0)) as [_ | Hno]; [|tauto].
      reflexivity.
    + destruct (at_index column node) as [c|] eqn:Hc; monad_simpl;
        [|reflexivity].
      destruct (decide (f0 = f0 ∧ node = node0)) as [[_ ->] | _];
        [contradiction|].
      rewrite Z.add_0_r. f_equal. symmetry.
      apply (Hranged f0 node c Hf Hnode). unfold cell. rewrite Hcol.
      exact Hc.
  - fold (cell stat f node).
    destruct (cell stat f node) as [c|] eqn:Hc; monad_simpl; [|reflexivity].
    destruct (decide (f = f0 ∧ node = node0)) as [[-> _] | _];
      [contradiction|].
    rewrite Z.add_0_r. f_equal. symmetry. exact (Hranged f node c Hf Hnode Hc).
Qed.

Lemma UpdateNodeStat_count_features_adds (features : list Z) (node0 : Z) :
  ∀ temp_stat temp_stat',
    ranged temp_stat →
    UpdateNodeStat_count_features columns_dense features node0 temp_stat
    = Some temp_stat' →
    adds' (λ f node,
             if decide (node = node0) then
               Z.of_nat (length (filter (λ fid, size_t_sub fid columns_dense = f)
                                   features))
             else 0)
      temp_stat temp_stat'.
Proof.
  induction features as [| fid rest IH]; intros temp_stat temp_stat' Hranged;
    cbn [UpdateNodeStat_count_features].
  - intros [= <-]. apply adds_same; [exact Hranged|].
    intros f node. destruct (decide (node = node0)); reflexivity.
  - destruct (count_up temp_stat _ node0) as [temp1|] eqn:Hup; monad_simpl;
      [|discriminate].
    intros Hrest. apply count_up_adds in Hup; [|exact Hranged].
    apply IH in Hrest; [|exact (adds_ranged _ _ _ Hup)].
    apply (adds_trans _ _ _ _ _ _ Hup Hrest).
    intros f node. rewrite filter_cons.
    destruct (decide (size_t_sub fid columns_dense = f)) as [Heq | Hne];
      destruct (decide (node = node0)) as [-> | Hnode].
    + destruct (decide (f = size_t_sub fid columns_dense ∧ node0 = node0))
        as [_ | Hno]; [|exfalso; auto]. cbn [length]. lia.
    + destruct (decide (f = size_t_sub fid columns_dense ∧ node = node0))
        as [[_ ->] | _]; [contradiction | reflexivity].
    + destruct (decide (f = size_t_sub fid columns_dense ∧ node0 = node0))
        as [[Heq _] | _]; [exfalso; auto | reflexivity].
    + destruct (decide (f = size_t_sub fid columns_dense ∧ node = node0))
        as [[_ ->] | _]; [contradiction | reflexivity].
Qed.

Lemma UpdateNodeStat_count_row_adds (i : nat) temp_stat temp_stat' :
  ranged temp_stat →
  UpdateNodeStat_count_row columns_dense lil_row _rowIndex2Node i temp_stat
  = Some temp_stat' →
  adds' (λ f node, row_count' f node i) temp_stat temp_stat'.
Proof.
  intros Hranged. unfold UpdateNodeStat_count_row, row_count.
  destruct (_rowIndex2Node !! i) as [node0|]; monad_simpl; [|discriminate].
  destruct (lil_row !! i) as [features|]; monad_simpl; [|discriminate].
  intros Hrun. apply UpdateNodeStat_count_features_adds in Hrun;
    [|exact Hranged].
  intros f node Hf Hnode. rewrite (Hrun f node Hf Hnode).
  destruct (decide (node = node0)) as [-> | Hne].
  - rewrite Z.eqb_refl. reflexivity.
  - destruct (Z.eqb_spec node0 node); [congruence | reflexivity].
Qed.

Lemma UpdateNodeStat_count_rows_adds (chunk : list nat) :
  ∀ temp_stat temp_stat',
    ranged temp_stat →
    UpdateNodeStat_count_rows columns_dense lil_row _rowIndex2Node chunk
      temp_stat = Some temp_stat' →
    adds' (λ f node, rows_count' f node chunk) temp_stat temp_stat'.
Proof.
  induction chunk as [| i rest IH]; intros temp_stat temp_stat' Hranged;
    cbn [UpdateNodeStat_count_rows].
  - intros [= <-]. apply adds_same; [exact Hranged | reflexivity].
  - destruct (UpdateNodeStat_count_row _ _ _ i temp_stat) as [temp1|] eqn:Hrow;
      monad_simpl; [|discriminate].
    intros Hrest. apply UpdateNodeStat_count_row_adds in Hrow;
      [|exact Hranged].
    apply IH in Hrest; [|exact (adds_ranged _ _ _ Hrow)].
    apply (adds_trans _ _ _ _ _ _ Hrow Hrest). reflexivity.
Qed.
Lemma UpdateNodeStat_merge_adds (temp_stat sparse_stat sparse_stat' : list (list Z))
    (delta : Z → Z → Z) :
  (∀ f node, 0 <= f < Z.of_nat columns_sparse → 0 <= node < Z.of_nat width →
     ∃ t, cell temp_stat f node = Some t ∧ wrap32 t = wrap32 (delta f node)) →
  UpdateNodeStat_merge temp_stat sparse_stat = Some sparse_stat' →
  adds' delta sparse_stat sparse_stat'.
Proof.
  intros Htemp Hrun f node Hf Hnode.
  destruct (Htemp f node Hf Hnode) as (t & Ht & Hdelta).
  apply cell_Some in Ht.
  destruct Ht as (temp_column & _ & Htcol & _ & Htcell).
  apply update_each_effect in Hrun. destruct Hrun as (_ & Hrows & _).
  destruct (Hrows (Z.to_nat f)) as (column & column' & Hcol & Hinner & Hcol').
  { apply lookup_lt_is_Some. eauto. }
  rewrite Htcol in Hinner. monad_simpl.
  apply update_each_effect in Hinner. destruct Hinner as (_ & Hcells & _).
  destruct (Hcells (Z.to_nat node)) as (c & v & Hc & Hv & Hc').
  { apply lookup_lt_is_Some. eauto. }
  rewrite Htcell in Hv. monad_simpl. apply (inj Some) in Hv. subst v.
  rewrite (cell_lookup _ f node column') by (lia || exact Hcol').
  rewrite (cell_lookup _ f node column) by (lia || exact Hcol).
  rewrite Hc, Hc'. monad_simpl.
  rewrite <- wrap32_add_r, Hdelta, wrap32_add_r. reflexivity.
Qed.

Lemma UpdateNodeStat_thread_adds (chunk : list nat)
    (sparse_stat sparse_stat' : list (list Z)) :
  UpdateNodeStat_thread columns_dense columns_sparse lil_row width
    _rowIndex2Node chunk sparse_stat = Some sparse_stat' →
  adds' (λ f node, rows_count' f node chunk) sparse_stat sparse_stat'.
Proof.
  unfold UpdateNodeStat_thread.
  destruct (UpdateNodeStat_count_rows _ _ _ chunk _) as [temp_stat|] eqn:Hcount;
    monad_simpl; [|discriminate].
  apply UpdateNodeStat_count_rows_adds in Hcount.
  2: { intros f node c Hf Hnode. rewrite cell_replicate by assumption.
       intros [= <-]. reflexivity. }
  apply UpdateNodeStat_merge_adds.
  intros f node Hf Hnode. rewrite (Hcount f node Hf Hnode).
  rewrite cell_replicate by assumption. monad_simpl.
  eexists. split; [reflexivity|]. rewrite Z.add_0_l.
  unfold wrap32. apply Z.mod_mod. lia.
Qed.

Lemma rows_count_app (f node : Z) (rows rows' : list nat) :
  rows_count' f node (rows ++ rows')
  = rows_count' f node rows + rows_count' f node rows'.
Proof.
  unfold rows_count. induction rows as [| i rows IH]; cbn [foldr app]; lia.
Qed.

Lemma UpdateNodeStat_threads_adds (chunks : list (list nat)) :
  ∀ sparse_stat sparse_stat',
    ranged sparse_stat →
    UpdateNodeStat_threads columns_dense columns_sparse lil_row width
      _rowIndex2Node chunks sparse_stat = Some sparse_stat' →
    adds' (λ f node, rows_count' f node (concat chunks))
      sparse_stat sparse_stat'.
Proof.
  induction chunks as [| chunk rest IH]; intros sparse_stat sparse_stat'
    Hranged; cbn [UpdateNodeStat_threads].
  - intros [= <-]. apply adds_same; [exact Hranged | reflexivity].
  - destruct (UpdateNodeStat_thread _ _ _ _ _ chunk sparse_stat)
      as [stat1|] eqn:Hthread; monad_simpl; [|discriminate].
    intros Hrest. apply UpdateNodeStat_thread_adds in Hthread.
    apply IH in Hrest; [|exact (adds_ranged _ _ _ Hthread)].
    apply (adds_trans _ _ _ _ _ _ Hthread Hrest).
    intros f node. cbn [concat]. apply rows_count_app.
Qed.

Lemma rows_count_Permutation (f node : Z) (rows rows' : list nat) :
  rows ≡ₚ rows' → rows_count' f node rows = rows_count' f node rows'.
Proof.
  unfold rows_count. induction 1; cbn [foldr]; lia.
Qed.

(** X26. For a level other than 0, [UpdateNodeStat] leaves in
    [sparse_stat[f][node]] the number of times feature
    [f + data->columns_dense] is listed in the rows that
    [_rowIndex2Node] puts in leaf [node], modulo [2^32], whatever the
    table held before and however the rows are shared out among the
    threads of the parallel region. *)
Theorem UpdateNodeStat_sparse_stat_counts (rows : nat)
    (chunks : list (list nat)) (sparse_stat sparse_stat' : list (list Z))
    (f node : Z) :
  UpdateNodeStat_sparse_stat columns_dense columns_sparse lil_row width
    _rowIndex2Node chunks sparse_stat = Some sparse_stat' →
  concat chunks ≡ₚ seq 0 rows →
  0 <= f < Z.of_nat columns_sparse → 0 <= node < Z.of_nat width →
  is_Some (cell sparse_stat f node) →
  cell sparse_stat' f node
  = Some (wrap32 (rows_count' f node (seq 0 rows))).
Proof.
  unfold UpdateNodeStat_sparse_stat. intros Hrun Hchunks Hf Hnode [c Hc].
  destruct (update_each _ columns_sparse sparse_stat) as [zeroed|] eqn:Hzero;
    monad_simpl; [|discriminate].
  destruct (Nat.ltb_spec 0 columns_sparse) as [_ | Hnone]; [|lia].
  apply update_each_effect in Hzero. destruct Hzero as (_ & Hrows & _).
  assert (Hzeroed : ∀ f' node', 0 <= f' < Z.of_nat columns_sparse →
            0 <= node' < Z.of_nat width →
            cell zeroed f' node' = _ ← cell sparse_stat f' node'; Some 0).
  { intros f' node' Hf' Hnode'.
    destruct (Hrows (Z.to_nat f') ltac:(lia))
      as (column & column' & Hcol & Hfill & Hcol').
    apply (inj Some) in Hfill. subst column'.
    rewrite (cell_lookup _ f' node' _ ltac:(lia) ltac:(lia) Hcol').
    rewrite (cell_lookup _ f' node' _ ltac:(lia) ltac:(lia) Hcol).
    destruct (column !! Z.to_nat node') as [c'|] eqn:Hc'; monad_simpl.
    - apply lookup_replicate. split; [reflexivity|].
      apply lookup_lt_is_Some. eauto.
    - apply lookup_ge_None. rewrite length_replicate.
      apply lookup_ge_None. exact Hc'. }
  apply UpdateNodeStat_threads_adds in Hrun.
  - rewrite (Hrun f node Hf Hnode), (Hzeroed f node Hf Hnode), Hc.
    monad_simpl. rewrite Z.add_0_l.
    rewrite (rows_count_Permutation f node _ _ Hchunks). reflexivity.
  - intros f' node' c' Hf' Hnode'. rewrite (Hzeroed f' node' Hf' Hnode').
    destruct (cell sparse_stat f' node'); monad_simpl; [|discriminate].
    intros [= <-]. reflexivity.
Qed.
End SparseStatProperties.

Lemma UpdateNodeStat_sparse_stat_counts_witness :
  ∃ sparse_stat',
    UpdateNodeStat_sparse_stat 1 2 [[1]; [1; 2]; []] 2 [0; 1; 0]
      [[2; 0]; [1]]%nat [[5; 5]; [5; 5]] = Some sparse_stat'
    ∧ cell sparse_stat' 0 0 = Some 1
    ∧ cell sparse_stat' 1 1 = Some 1
    ∧ cell sparse_stat' 1 0 = Some 0.
Proof.
  destruct (UpdateNodeStat_sparse_stat 1 2 [[1]; [1; 2]; []] 2 [0; 1; 0]
              [[2; 0]; [1]]%nat [[5; 5]; [5; 5]]) as [sparse_stat'|] eqn:Hrun;
    [|vm_compute in Hrun; discriminate].
  exists sparse_stat'. split; [reflexivity|].
  assert (Hchunks : concat [[2; 0]; [1]]%nat ≡ₚ seq 0 3).
  { cbn. etrans; [apply Permutation_swap|].
    apply Permutation_skip, Permutation_swap. }
  assert (Hcount : ∀ f node, 0 <= f < 2 → 0 <= node < 2 →
            cell sparse_stat' f node
            = Some (wrap32 (rows_count 1 [[1]; [1; 2]; []] [0; 1; 0] f node
                              (seq 0 3)))).
  { intros f node Hf Hnode.
    apply (UpdateNodeStat_sparse_stat_counts 1 2 [[1]; [1; 2]; []] 2
             [0; 1; 0] 3 _ _ sparse_stat' f node Hrun Hchunks);
      [lia | lia |].
    assert (Hcases : (f = 0 ∨ f = 1) ∧ (node = 0 ∨ node = 1)) by lia.
    destruct Hcases as [[-> | ->] [-> | ->]]; cbv; eauto. }
  rewrite !Hcount by lia. repeat split.
Defined.
